(** * doodle-paper-vue: the gesture-driven transform and stroke engine

    A shallow embedding of [src/packages/doodle/brush.ts] and of the
    [Paper] class (with its [AnimationController]), followed by the
    properties of the specification that were checked against them.

    Conventions of the embedding.
    - A JavaScript [number] that carries a coordinate, a size, a scale or
      a time span is a real number ([R]): arithmetic is exact, and the
      values [NaN] and [Infinity] do not exist.  A division whose divisor
      is zero, and a read of a touch that is not there, make the handler
      return [None] instead: the code goes on with [Infinity] or [NaN]
      there, and a run of the embedding ends.  A property of a run is a
      property of the runs on which every handler returns; the fingers
      of a pinch at one and the same point are the case that matters
      ([ExampleFacts.pinch_after_coincident_fingers]).
    - A [number] that the code treats as an integer (a colour, a
      timestamp, a work mode, an array length) is a [Z] or a [nat].
    - An array is a list; [push] appends at the tail and [pop] removes the
      tail.
    - A statement that throws a [TypeError] or an [Error] returns [None].
    - The 2D canvas is the list of the curves stroked on it since it was
      last cleared, each with the style it was stroked with.
    - [Paper] holds its strokes by value; where sharing matters (what an
      export copies), the same methods are told again on a heap of
      objects, in [Heap].
    - What reaches a [Paper] from outside (touches, animation frames,
      resizes, calls of its public methods) is an [Event]; the clock
      ([Date], [performance.now]) is an argument of the event.
    - The opacity of the canvas element, which no other state depends on,
      is kept apart from the [Paper], as the number its style text reads
      as ([CanvasStyle]).

    The properties come in two parts: those of the specification, and
    then those read off the code itself (points and configurations,
    strokes and gestures, the layout, pans and pinches, transitions, the
    measures of a touch event). *)

From Stdlib Require Import Reals Lra Lia ZArith List String Ascii Bool.
From Stdlib Require Import Permutation.
Import ListNotations.

Local Open Scope R_scope.

(** ** Numbers *)

Module Num.

Definition leb (a b : R) : bool := if Rle_dec a b then true else false.
Definition ltb (a b : R) : bool := if Rlt_dec a b then true else false.
Definition eqb (a b : R) : bool := if Req_dec_T a b then true else false.

(** [a / b] on JavaScript numbers, defined when the quotient is a real.
    With a divisor of zero the code's [/] yields [Infinity] or [NaN] and
    the handler goes on with it; here the result is [None], and so is
    that of the handler: [computeFocus] without a touch,
    [onTouchMoveProxy] with two touches after a remembered distance of
    zero, [relativePositionToTimePoint] at a zoom of zero,
    [loadSizeAndPosition] with a root of height zero. *)
Definition div (a b : R) : option R :=
  if Req_dec_T b 0 then None else Some (a / b).

(** [Math.floor] *)
Definition floor (a : R) : Z := Int_part a.

(** [clampNumber(value, min, max)] *)
Definition clampNumber (value min max : R) : R :=
  Rmin (Rmax value min) max.

End Num.

(** Decides the comparisons of a goal or of the context on concrete reals. *)
Ltac num_cases :=
  unfold Num.clampNumber, Num.leb, Num.ltb, Num.eqb, Num.div, Rmin, Rmax, Rabs in *;
  repeat match goal with
    | |- context [Rle_dec ?a ?b] => destruct (Rle_dec a b)
    | |- context [Rlt_dec ?a ?b] => destruct (Rlt_dec a b)
    | |- context [Req_dec_T ?a ?b] => destruct (Req_dec_T a b)
    | |- context [Rcase_abs ?a] => destruct (Rcase_abs a)
    | H : context [Rle_dec ?a ?b] |- _ => destruct (Rle_dec a b)
    | H : context [Rlt_dec ?a ?b] |- _ => destruct (Rlt_dec a b)
    | H : context [Req_dec_T ?a ?b] |- _ => destruct (Req_dec_T a b)
    | H : context [Rcase_abs ?a] |- _ => destruct (Rcase_abs a)
    end.

(** Failure (an exception, or a value that is not a real number). *)
Notation "x <- c ;; k" := (match c with Some x => k | None => None end)
  (at level 61, c at next level, right associativity).

(** ** brush.ts *)

Module Brush.

Inductive BrushBlendMode : Type :=
  | source_over | source_in | source_out | source_atop
  | destination_over | destination_in | destination_out | destination_atop
  | lighter | copy | xor | multiply | screen | overlay | darken | lighten
  | color_dodge | color_burn | hard_light | soft_light | difference
  | exclusion | hue | saturation | color_ | luminosity.

Inductive BrushLineCap : Type := butt | round_cap | square.

Inductive BrushLineJoin : Type := bevel | round_join | miter.

Inductive BrushType : Type := marking | eraser.

Record BrushConfigs : Type := mkConfigs {
  type : BrushType;
  color : Z;
  alpha : R;
  size : R;
  cap : BrushLineCap;
  join : BrushLineJoin;
  blendMode : BrushBlendMode
}.

(** *** TimePoint *)

Record TimePoint : Type := mkTimePoint {
  x : R;
  y : R;
  time : Z
}.

Definition len (p : TimePoint) : R :=
  sqrt (x p * x p + y p * y p).

Definition cross (p o : TimePoint) : R :=
  x p * y o - y p * x o.

Definition distance (p o : TimePoint) : R :=
  let dx := x o - x p in
  let dy := y o - y p in
  sqrt (dx * dx + dy * dy).

Definition middle (p0 p1 : TimePoint) : TimePoint :=
  mkTimePoint ((x p0 + x p1) / 2) ((y p0 + y p1) / 2) ((time p0 + time p1) / 2)%Z.

(** *** Number.prototype.toString(16) on an integer *)

Definition hexDigit (d : Z) : ascii :=
  match d with
  | 0%Z => "0" | 1%Z => "1" | 2%Z => "2" | 3%Z => "3"
  | 4%Z => "4" | 5%Z => "5" | 6%Z => "6" | 7%Z => "7"
  | 8%Z => "8" | 9%Z => "9" | 10%Z => "a" | 11%Z => "b"
  | 12%Z => "c" | 13%Z => "d" | 14%Z => "e" | _ => "f"
  end%char.

Fixpoint hexDigits (fuel : nat) (n : Z) : string :=
  match fuel with
  | O => EmptyString
  | S fuel' =>
      if (n <? 16)%Z then String (hexDigit n) EmptyString
      else (hexDigits fuel' (n / 16)%Z ++ String (hexDigit (n mod 16)%Z) EmptyString)%string
  end.

Definition toString16 (n : Z) : string :=
  if (n <? 0)%Z
  then String "-"%char (hexDigits (S (Z.to_nat (Z.log2 (- n)))) (- n)%Z)
  else hexDigits (S (Z.to_nat (Z.log2 n))) n.

(** *** Brush *)

Record BrushHistory : Type := mkHistory {
  configs : BrushConfigs;
  points : list TimePoint
}.

(** A brush object: its configuration and, for a [PathBrush], the stroke
    under way.  The class of the object ([MarkingBrush] or [EraserBrush])
    is the [type] of its configuration: both constructors refuse any
    other, and nothing assigns [type] afterwards. *)
Record Brush : Type := mkBrush {
  bconfigs : BrushConfigs;
  _history : option BrushHistory
}.

Definition strokeSize (b : Brush) : R := size (bconfigs b).

Definition with_color (color : Z) (c : BrushConfigs) : BrushConfigs :=
  mkConfigs (type c) color (alpha c) (size c) (cap c) (join c) (blendMode c).

(** The setter of [color]; [Number.isInteger] holds of every [Z]. *)
Definition set_color (color : Z) (b : Brush) : Brush :=
  let color :=
    if (color <? 0)%Z then 0%Z
    else if (0xFFFFFF <? color)%Z then 0xFFFFFF%Z
    else color in
  mkBrush (with_color color (bconfigs b)) (_history b).

(** The setter of [strokeSize]. *)
Definition set_strokeSize (size : R) (b : Brush) : Brush :=
  mkBrush
    (mkConfigs (type (bconfigs b)) (color (bconfigs b)) (alpha (bconfigs b))
       size (cap (bconfigs b)) (join (bconfigs b)) (blendMode (bconfigs b)))
    (_history b).

(** [while (color.length < 6) color = '0' + color] *)
Fixpoint padColor (fuel : nat) (color : string) : string :=
  match fuel with
  | O => color
  | S fuel' =>
      if (String.length color <? 6)%nat
      then padColor fuel' (String "0"%char color)
      else color
  end.

(** [while (alpha.length < 2) alpha = '0' + color] *)
Fixpoint padAlpha (fuel : nat) (color alpha : string) : string :=
  match fuel with
  | O => alpha
  | S fuel' =>
      if (String.length alpha <? 2)%nat
      then padAlpha fuel' color (String "0"%char color)
      else alpha
  end.

Definition strokeStyle_of (c : BrushConfigs) : string :=
  let color0 := toString16 (color c) in
  let color := padColor (6 - String.length color0) color0 in
  let alpha0 := toString16 (Num.floor (alpha c * 255)) in
  let alpha := padAlpha (2 - String.length alpha0) color alpha0 in
  String "#"%char (color ++ alpha)%string.

Definition strokeStyle (b : Brush) : string := strokeStyle_of (bconfigs b).

(** *** BrushHistory *)

(** [array[i]], which is [undefined] outside the array. *)
Definition at_index {A : Type} (l : list A) (i : Z) : option A :=
  if (i <? 0)%Z then None else nth_error l (Z.to_nat i).

Definition addPoint (h : BrushHistory) (point : TimePoint) : BrushHistory :=
  mkHistory (configs h) (points h ++ [point]).

Definition count (h : BrushHistory) : nat := List.length (points h).

Definition first (h : BrushHistory) : option TimePoint :=
  at_index (points h) 0.

Definition current (h : BrushHistory) : option TimePoint :=
  at_index (points h) (Z.of_nat (count h) - 1).

Definition prev (h : BrushHistory) : option TimePoint :=
  at_index (points h) (Z.of_nat (count h) - 2).

Definition early (h : BrushHistory) : option TimePoint :=
  at_index (points h) (Z.of_nat (count h) - 3).

Definition valid (h : BrushHistory) : bool := (2 <? count h)%nat.

Definition clone (h : BrushHistory) : BrushHistory :=
  mkHistory
    (mkConfigs (type (configs h)) (color (configs h)) (alpha (configs h))
       (size (configs h)) (cap (configs h)) (join (configs h))
       (blendMode (configs h)))
    (points h).

(** *** The canvas *)

(** One [beginPath … stroke] of [PathBrush.draw], with the context
    attributes that [applyCanvas] assigned before it. *)
Record Curve : Type := mkCurve {
  globalCompositeOperation : BrushBlendMode;
  lineJoin : BrushLineJoin;
  lineCap : BrushLineCap;
  lineWidth : R;
  canvasStrokeStyle : string;
  moveTo : R * R;
  quadraticCurveTo : (R * R) * (R * R)
}.

Definition Canvas : Type := list Curve.

(** *** Brush (continued) and PathBrush *)

Definition toConfigs (b : Brush) : BrushConfigs := bconfigs b.

(** The static [Brush.fromConfig]. *)
Definition fromConfig (c : BrushConfigs) : Brush := mkBrush c None.

Definition MarkingBrush_default (size : option R) : Brush :=
  mkBrush
    (mkConfigs marking 0x0E9C4B 1
       (match size with Some s => s | None => 8 end)
       round_cap round_join source_over)
    None.

Definition EraserBrush_default (size : option R) : Brush :=
  mkBrush
    (mkConfigs eraser 0xFFFFFF 1
       (match size with Some s => s | None => 8 end)
       round_cap round_join destination_out)
    None.

Definition canDraw (b : Brush) (prev current : TimePoint) : bool :=
  match type (bconfigs b) with
  | marking => Num.leb (Rmax (strokeSize b / 4) 2) (distance current prev)
  | eraser => Num.leb (Rmax (strokeSize b / 8) 2) (distance current prev)
  end.

Definition cleanHistory (b : Brush) : option BrushHistory * Brush :=
  (_history b, mkBrush (bconfigs b) None).

Definition draw (b : Brush) (canvas : Canvas) (early prev current : TimePoint)
  : Canvas :=
  let p0 := middle early prev in
  let p1 := prev in
  let p2 := middle prev current in
  canvas ++
  [ mkCurve (blendMode (bconfigs b)) (join (bconfigs b)) (cap (bconfigs b))
      (size (bconfigs b)) (strokeStyle b)
      (x p0, y p0) ((x p1, y p1), (x p2, y p2)) ].

Definition drawDown (point : TimePoint) (b : Brush) : Brush :=
  mkBrush (bconfigs b) (Some (addPoint (mkHistory (toConfigs b) []) point)).

Definition drawMove (point : TimePoint) (b : Brush) (canvas : Canvas)
  : option (Brush * Canvas) :=
  history <- _history b ;;
  skip <- (if (1 <? count history)%nat
           then cur <- current history ;; Some (negb (canDraw b cur point))
           else Some false) ;;
  if (skip : bool) then Some (b, canvas)
  else
    let history := addPoint history point in
    let b := mkBrush (bconfigs b) (Some history) in
    if negb (valid history) then Some (b, canvas)
    else
      e <- early history ;;
      p <- prev history ;;
      c <- current history ;;
      Some (b, draw b canvas e p c).

Definition drawUp (b : Brush) (canvas : Canvas) : option (Brush * Canvas) :=
  match _history b with
  | None => Some (b, canvas)
  | Some history =>
      if negb (valid history) then Some (b, canvas)
      else
        cur <- current history ;;
        let history := addPoint history cur in
        let b := mkBrush (bconfigs b) (Some history) in
        e <- early history ;;
        p <- prev history ;;
        c <- current history ;;
        Some (b, draw b canvas e p c)
  end.

End Brush.

(** ** paper.ts: the data *)

Module Offset.
Record t : Type := mk { x : R; y : R }.
End Offset.

Module Position.
Record t : Type := mk {
  ox : R;
  oy : R;
  oScale : R;
  x : R;
  y : R;
  scale : R;
  width : R;
  height : R
}.

Definition set_xys (x y scale : R) (p : t) : t :=
  mk (ox p) (oy p) (oScale p) x y scale (width p) (height p).

Definition set_scale (scale : R) (p : t) : t :=
  set_xys (x p) (y p) scale p.

Definition set_xy (x y : R) (p : t) : t :=
  set_xys x y (scale p) p.
End Position.

Module PaperHistory.
Record t : Type := mk {
  width : R;
  height : R;
  histories : list Brush.BrushHistory
}.
End PaperHistory.

(** What the handlers read from the DOM. *)
Module Dom.
Record Touch : Type := mkTouch { pageX : R; pageY : R }.
Record TouchEvent : Type := mkTouchEvent { targetTouches : list Touch }.
Record DOMRect : Type := mkRect { x : R; y : R }.
Record Element : Type := mkElement { offsetWidth : R; offsetHeight : R }.

Inductive InputImage : Type :=
  | HTMLImageElement (complete : bool) (naturalWidth naturalHeight : R)
  | ImageBitmap (width height : R).
End Dom.

(** ** paper.ts: AnimationController *)

Module Animation.

(** The callbacks of this program are the closures of [Paper.animateTo];
    they assign the user part of the position (and refresh the style of
    the parent element from it), and ignore the controller they get. *)
Definition AnimationCallback : Type := R -> Position.t -> Position.t.

(** A holder object.  [id] stands for the identity of the object, which
    [cleanFinishAnimation] compares. *)
Record AnimationHolder : Type := mkHolder {
  id : nat;
  frameCallback : AnimationCallback;
  completedCallback : option AnimationCallback;
  canceledCallback : option AnimationCallback;
  duration : R;
  tick : R;
  canceled : bool
}.

(** [holder] refers to a holder object; [pending] are the callbacks handed
    to [window.requestAnimationFrame] and not yet run, oldest first, each
    with the holder object it closes over; [fresh] is the identity of the
    next object. *)
Record AnimationController : Type := mkController {
  holder : option nat;
  pending : list AnimationHolder;
  fresh : nat
}.

Definition create : AnimationController := mkController None [] 0.

Definition animating (c : AnimationController) : bool :=
  match holder c with Some _ => true | None => false end.

Definition cancel (i : nat) (h : AnimationHolder) : AnimationHolder :=
  if (id h =? i)%nat
  then mkHolder (id h) (frameCallback h) (completedCallback h)
         (canceledCallback h) (duration h) (tick h) true
  else h.

Definition reset (c : AnimationController) : AnimationController :=
  match holder c with
  | None => c
  | Some i => mkController None (map (cancel i) (pending c)) (fresh c)
  end.

(** [now] is the value of [performance.now()]. *)
Definition execute (duration : R) (frameCallback : AnimationCallback)
  (completedCallback canceledCallback : option AnimationCallback)
  (now : R) (c : AnimationController) : AnimationController :=
  if animating c then c
  else
    let holder :=
      mkHolder (fresh c) frameCallback completedCallback canceledCallback
        duration now false in
    mkController (Some (fresh c)) (pending c ++ [holder]) (S (fresh c)).

Definition cleanFinishAnimation (h : AnimationHolder)
  (c : AnimationController) : AnimationController :=
  match holder c with
  | Some i =>
      if (i =? id h)%nat then mkController None (pending c) (fresh c) else c
  | None => c
  end.

Definition call (cb : option AnimationCallback) (value : R)
  (pos : Position.t) : Position.t :=
  match cb with Some f => f value pos | None => pos end.

(** The callback that [requestAnimationFrame(holder, controller)] hands to
    the window, run at time [now]. *)
Definition frame (now : R) (h : AnimationHolder)
  (st : Position.t * AnimationController)
  : option (Position.t * AnimationController) :=
  let (pos, c) := st in
  value <- Num.div (now - tick h) (duration h) ;;
  let pos := frameCallback h (Num.clampNumber value 0 1) pos in
  if Num.leb 1 value then
    Some (call (completedCallback h) 1 pos, cleanFinishAnimation h c)
  else if canceled h then
    Some (call (canceledCallback h) value pos, cleanFinishAnimation h c)
  else
    Some (pos, mkController (holder c) (pending c ++ [h]) (fresh c)).

End Animation.

(** ** paper.ts: Paper *)

Module Paper.

Import Dom.

Record Paper : Type := mkPaper {
  root : Element;
  canvas : Brush.Canvas;
  image : InputImage;
  position : Position.t;
  histories : list Brush.BrushHistory;
  redoHistories : list Brush.BrushHistory;
  animCtrl : Animation.AnimationController;
  maxScale : R;
  width : R;
  height : R;
  brush : Brush.Brush;
  lastFocus : Offset.t;
  lastLength : R;
  lastScaleFocus : Offset.t;
  workMode : nat
}.

Definition set_root (v : Element) (p : Paper) : Paper :=
  mkPaper v (canvas p) (image p) (position p) (histories p) (redoHistories p)
    (animCtrl p) (maxScale p) (width p) (height p) (brush p) (lastFocus p)
    (lastLength p) (lastScaleFocus p) (workMode p).

Definition set_canvas (v : Brush.Canvas) (p : Paper) : Paper :=
  mkPaper (root p) v (image p) (position p) (histories p) (redoHistories p)
    (animCtrl p) (maxScale p) (width p) (height p) (brush p) (lastFocus p)
    (lastLength p) (lastScaleFocus p) (workMode p).

Definition set_position (v : Position.t) (p : Paper) : Paper :=
  mkPaper (root p) (canvas p) (image p) v (histories p) (redoHistories p)
    (animCtrl p) (maxScale p) (width p) (height p) (brush p) (lastFocus p)
    (lastLength p) (lastScaleFocus p) (workMode p).

Definition set_histories (v : list Brush.BrushHistory) (p : Paper) : Paper :=
  mkPaper (root p) (canvas p) (image p) (position p) v (redoHistories p)
    (animCtrl p) (maxScale p) (width p) (height p) (brush p) (lastFocus p)
    (lastLength p) (lastScaleFocus p) (workMode p).

Definition set_redoHistories (v : list Brush.BrushHistory) (p : Paper) : Paper :=
  mkPaper (root p) (canvas p) (image p) (position p) (histories p) v
    (animCtrl p) (maxScale p) (width p) (height p) (brush p) (lastFocus p)
    (lastLength p) (lastScaleFocus p) (workMode p).

Definition set_animCtrl (v : Animation.AnimationController) (p : Paper) : Paper :=
  mkPaper (root p) (canvas p) (image p) (position p) (histories p)
    (redoHistories p) v (maxScale p) (width p) (height p) (brush p)
    (lastFocus p) (lastLength p) (lastScaleFocus p) (workMode p).

Definition set_brush (v : Brush.Brush) (p : Paper) : Paper :=
  mkPaper (root p) (canvas p) (image p) (position p) (histories p)
    (redoHistories p) (animCtrl p) (maxScale p) (width p) (height p) v
    (lastFocus p) (lastLength p) (lastScaleFocus p) (workMode p).

Definition set_lastFocus (v : Offset.t) (p : Paper) : Paper :=
  mkPaper (root p) (canvas p) (image p) (position p) (histories p)
    (redoHistories p) (animCtrl p) (maxScale p) (width p) (height p)
    (brush p) v (lastLength p) (lastScaleFocus p) (workMode p).

Definition set_lastLength (v : R) (p : Paper) : Paper :=
  mkPaper (root p) (canvas p) (image p) (position p) (histories p)
    (redoHistories p) (animCtrl p) (maxScale p) (width p) (height p)
    (brush p) (lastFocus p) v (lastScaleFocus p) (workMode p).

Definition set_lastScaleFocus (v : Offset.t) (p : Paper) : Paper :=
  mkPaper (root p) (canvas p) (image p) (position p) (histories p)
    (redoHistories p) (animCtrl p) (maxScale p) (width p) (height p)
    (brush p) (lastFocus p) (lastLength p) v (workMode p).

Definition set_workMode (v : nat) (p : Paper) : Paper :=
  mkPaper (root p) (canvas p) (image p) (position p) (histories p)
    (redoHistories p) (animCtrl p) (maxScale p) (width p) (height p)
    (brush p) (lastFocus p) (lastLength p) (lastScaleFocus p) v.

(** [Array.prototype.pop] *)
Definition pop {A : Type} (l : list A) : option A * list A :=
  match rev l with
  | [] => (None, l)
  | item :: rest => (Some item, rev rest)
  end.

(** The style that [updateState] assigns to the parent element. *)
Record Style : Type := mkStyle {
  styleWidth : R;
  styleHeight : R;
  styleLeft : R;
  styleTop : R;
  styleScale : R
}.

Definition parentStyle (pos : Position.t) : Style :=
  mkStyle (Position.width pos) (Position.height pos)
    (Position.ox pos + Position.x pos) (Position.oy pos + Position.y pos)
    (Position.scale pos).

(** [updateState] writes [parentStyle (position p)] to the DOM and reads
    nothing back.  Every handler that assigns the position calls it before
    it returns, and so do the animation callbacks, so that between two
    events the style of the parent element is [parentStyle (position p)];
    the style is not kept as state of its own. *)
Definition updateState (p : Paper) : Paper := p.

(** The loop [for (let i = 2; i < item.points.length; i++)] of [redraw]:
    it draws every three consecutive points, in order. *)
Fixpoint drawPoints (b : Brush.Brush) (canvas : Brush.Canvas)
  (points : list Brush.TimePoint) : Brush.Canvas :=
  match points with
  | early :: rest =>
      match rest with
      | prev :: current :: _ =>
          drawPoints b (Brush.draw b canvas early prev current) rest
      | _ => canvas
      end
  | [] => canvas
  end.

Definition redrawItem (canvas : Brush.Canvas) (item : Brush.BrushHistory)
  : Brush.Canvas :=
  if negb (Brush.valid item) then canvas
  else drawPoints (Brush.fromConfig (Brush.configs item)) canvas
         (Brush.points item).

Definition redraw (p : Paper) : Paper :=
  set_canvas (fold_left redrawItem (histories p) []) p.

Definition canUndo (p : Paper) : bool := (0 <? List.length (histories p))%nat.

Definition undo (p : Paper) : bool * Paper :=
  if negb (canUndo p) then (false, p)
  else
    match pop (histories p) with
    | (None, _) => (false, p)
    | (Some item, rest) =>
        (true,
         redraw (set_redoHistories (redoHistories p ++ [item])
                   (set_histories rest p)))
    end.

Definition canRedo (p : Paper) : bool :=
  (0 <? List.length (redoHistories p))%nat.

Definition redo (p : Paper) : bool * Paper :=
  if negb (canRedo p) then (false, p)
  else
    match pop (redoHistories p) with
    | (None, _) => (false, p)
    | (Some item, rest) =>
        (true,
         redraw (set_histories (histories p ++ [item])
                   (set_redoHistories rest p)))
    end.

Definition exportHistory (p : Paper) : PaperHistory.t :=
  PaperHistory.mk (width p) (height p) (map Brush.clone (histories p)).

Definition set_currentBrush (b : Brush.Brush) (p : Paper) : Paper :=
  set_brush b p.

(** *** Geometry of the touches *)

Definition getTouchFromRawTouch (touch : Touch) (rect : DOMRect) : Offset.t :=
  Offset.mk (pageX touch - Dom.x rect) (pageY touch - Dom.y rect).

(** [event.targetTouches[index] ?? event]: without the touch, the
    coordinates are read from the event and are not numbers. *)
Definition getTouch (event : TouchEvent) (rect : DOMRect) (index : nat)
  : option Offset.t :=
  touch <- nth_error (targetTouches event) index ;;
  Some (getTouchFromRawTouch touch rect).

Definition computeLength (event : TouchEvent) (rect : DOMRect) : option R :=
  a <- getTouch event rect 0 ;;
  b <- getTouch event rect 1 ;;
  Some (sqrt ((Offset.x a - Offset.x b) ^ 2 + (Offset.y a - Offset.y b) ^ 2)).

Definition sumTouches (rect : DOMRect) (touches : list Touch) : R * R :=
  fold_left
    (fun (sum : R * R) target =>
       let offset := getTouchFromRawTouch target rect in
       (fst sum + Offset.x offset, snd sum + Offset.y offset))
    touches (0, 0).

Definition computeFocus (event : TouchEvent) (rect : DOMRect)
  : option Offset.t :=
  let (sumX, sumY) := sumTouches rect (targetTouches event) in
  let size := INR (List.length (targetTouches event)) in
  fx <- Num.div sumX size ;;
  fy <- Num.div sumY size ;;
  Some (Offset.mk fx fy).

Definition computeScaleOffset (focus : Offset.t) (scale : R) (p : Paper)
  : Offset.t :=
  let px := Offset.x focus - (Position.x (position p) + Position.ox (position p)) in
  let py := Offset.y focus - (Position.y (position p) + Position.oy (position p)) in
  Offset.mk (px - px * scale) (py - py * scale).

(** [time] is the value of [new Date().getTime()]. *)
Definition relativePositionToTimePoint (x y : R) (time : Z) (p : Paper)
  : option Brush.TimePoint :=
  let pos := position p in
  let cx := x - (Position.x pos + Position.ox pos) in
  let cy := y - (Position.y pos + Position.oy pos) in
  let scale := Position.oScale pos * Position.scale pos in
  tx <- Num.div cx scale ;;
  ty <- Num.div cy scale ;;
  Some (Brush.mkTimePoint tx ty time).

(** *** Construction and resize *)

Definition loadSizeAndPosition (p : Paper) : option Paper :=
  let rw := offsetWidth (root p) in
  let rh := offsetHeight (root p) in
  let iw := width p in
  let ih := height p in
  rr <- Num.div rw rh ;;
  ir <- Num.div iw ih ;;
  owh <- (if Num.ltb ir rr
          then ow <- Num.div (iw * rh) ih ;; Some (ow, rh)
          else oh <- Num.div (ih * rw) iw ;; Some (rw, oh)) ;;
  let (ow, oh) := owh : R * R in
  oScale <- Num.div ow (width p) ;;
  Some (set_position
          (Position.mk ((rw - ow) / 2) ((rh - oh) / 2) oScale
             (Position.x (position p)) (Position.y (position p))
             (Position.scale (position p)) ow oh)
          p).

(** The width and height that [initImageAndCanvas] assigns. *)
Definition initImageAndCanvas (image : InputImage) : option (R * R) :=
  match image with
  | HTMLImageElement complete naturalWidth naturalHeight =>
      if negb complete || Num.leb naturalWidth 0 || Num.leb naturalHeight 0
      then None
      else Some (naturalWidth, naturalHeight)
  | ImageBitmap width height =>
      if Num.leb width 0 || Num.leb height 0 then None
      else Some (width, height)
  end.

Definition new (root : Element) (image : InputImage) (maxScale : option R)
  (brush : option Brush.Brush) (history : option PaperHistory.t)
  : option Paper :=
  wh <- initImageAndCanvas image ;;
  let (w, h) := wh : R * R in
  let p :=
    mkPaper root [] image
      (Position.mk 0 0 1 0 0 1 0 0)
      (match history with Some hs => PaperHistory.histories hs | None => [] end)
      []
      Animation.create
      (Num.clampNumber (match maxScale with Some m => m | None => 2 end) 1.5 3)
      w h
      (match brush with Some b => b | None => Brush.MarkingBrush_default None end)
      (Offset.mk 0 0) 0 (Offset.mk 0 0) 0 in
  p <- loadSizeAndPosition p ;;
  let p :=
    match history with
    | Some hs =>
        if negb (Num.eqb (PaperHistory.width hs) (width p))
           || negb (Num.eqb (PaperHistory.height hs) (height p))
        then set_histories [] p
        else p
    | None => p
    end in
  Some (redraw (updateState p)).

Definition onResize (root : Element) (p : Paper) : option Paper :=
  p <- loadSizeAndPosition (set_root root p) ;;
  Some (updateState (set_position (Position.set_xys 0 0 1 (position p)) p)).

(** *** Animated transitions *)

Definition lerp (sx sy ss ex ey es : R) : Animation.AnimationCallback :=
  fun value pos =>
    Position.set_xys (sx + (ex - sx) * value) (sy + (ey - sy) * value)
      (ss + (es - ss) * value) pos.

Definition jump (ex ey es : R) : Animation.AnimationCallback :=
  fun _ pos => Position.set_xys ex ey es pos.

Definition animateDuration (ex ey es maxDuration : R) (p : Paper) : R :=
  let sx := Position.x (position p) in
  let sy := Position.y (position p) in
  let ss := Position.scale (position p) in
  let dt := sqrt ((ex - sx) ^ 2 + (ey - sy) ^ 2) * 4 in
  let ds := Rabs (es - ss) * 1000 in
  Rmax (Num.clampNumber dt 0 maxDuration) (Num.clampNumber ds 0 maxDuration).

Definition animateTo (ex ey es maxDuration : R) (lost : bool) (now : R)
  (p : Paper) : Paper :=
  let sx := Position.x (position p) in
  let sy := Position.y (position p) in
  let ss := Position.scale (position p) in
  let duration := animateDuration ex ey es maxDuration p in
  if Num.leb duration 0 then p
  else if Num.ltb duration 16 then
    updateState (set_position (Position.set_xys ex ey es (position p)) p)
  else
    set_animCtrl
      (Animation.execute duration (lerp sx sy ss ex ey es) None
         (if lost then None else Some (jump ex ey es)) now (animCtrl p))
      p.

Definition fitCenter (now : R) (p : Paper) : Paper :=
  animateTo 0 0 1 200 false now
    (set_animCtrl (Animation.reset (animCtrl p)) p).

(** The arguments [(ex, ey, es)] of the call of [animateTo] in [overBound]. *)
Definition overBoundTarget (p : Paper) : option (R * R * R) :=
  let pos := position p in
  let scaleTo := Num.clampNumber (Position.scale pos) 1 (maxScale p) in
  if Num.leb scaleTo 1 then Some (0, 0, 1)
  else
    ratio <- Num.div scaleTo (Position.scale pos) ;;
    let offset := computeScaleOffset (lastScaleFocus p) ratio p in
    let offset_x := Offset.x offset + (Position.x pos + Position.ox pos) in
    let offset_y := Offset.y offset + (Position.y pos + Position.oy pos) in
    let cx := offsetWidth (root p) - Position.width pos * scaleTo in
    let cy := offsetHeight (root p) - Position.height pos * scaleTo in
    let minX := Rmin cx 0 in
    let minY := Rmin cy 0 in
    let maxX := Rmax cx 0 in
    let maxY := Rmax cy 0 in
    Some (Num.clampNumber offset_x minX maxX - Position.ox pos,
          Num.clampNumber offset_y minY maxY - Position.oy pos,
          scaleTo).

Definition overBound (now : R) (p : Paper) : option Paper :=
  target <- overBoundTarget p ;;
  let '(ex, ey, es) := target : R * R * R in
  Some (animateTo ex ey es 200 true now p).

(** *** The touch handlers *)

Definition cleanCurrentDraw (p : Paper) : Paper :=
  let (prev, b) := Brush.cleanHistory (brush p) in
  let p := set_brush b p in
  match prev with
  | Some _ => redraw p
  | None => p
  end.

Definition onTouchStartProxy (event : TouchEvent) (rect : DOMRect) (time : Z)
  (p : Paper) : option Paper :=
  let touchCount := List.length (targetTouches event) in
  if (touchCount =? 1)%nat && Animation.animating (animCtrl p) then
    Some (set_workMode 0 p)
  else if negb (touchCount =? 1)%nat && (workMode p =? 0)%nat then
    Some p
  else
    let p := set_workMode (if (touchCount <=? 1)%nat then 1 else 2)%nat p in
    focus <- computeFocus event rect ;;
    let p := set_lastFocus focus p in
    if (workMode p =? 1)%nat then
      point <- relativePositionToTimePoint (Offset.x focus) (Offset.y focus) time p ;;
      Some (set_brush (Brush.drawDown point (brush p)) p)
    else
      let p := cleanCurrentDraw p in
      length <- computeLength event rect ;;
      Some (set_lastScaleFocus (lastFocus p) (set_lastLength length p)).

Definition onTouchMoveProxy (event : TouchEvent) (rect : DOMRect) (time : Z)
  (p : Paper) : option Paper :=
  let focus := computeFocus event rect in
  if (workMode p =? 0)%nat then Some p
  else if (workMode p =? 1)%nat then
    focus <- focus ;;
    point <- relativePositionToTimePoint (Offset.x focus) (Offset.y focus) time p ;;
    bc <- Brush.drawMove point (brush p) (canvas p) ;;
    Some (set_canvas (snd bc) (set_brush (fst bc) p))
  else
    focus <- focus ;;
    let delta :=
      Offset.mk (Offset.x focus - Offset.x (lastFocus p))
                (Offset.y focus - Offset.y (lastFocus p)) in
    scaled <-
      (if (1 <? List.length (targetTouches event))%nat then
         curLength <- computeLength event rect ;;
         deltaScale <- Num.div curLength (lastLength p) ;;
         if Num.ltb 0.005 (Rabs (deltaScale - 1.0)) then
           let offset := computeScaleOffset focus deltaScale p in
           Some (true,
                 Offset.mk (Offset.x delta + Offset.x offset)
                           (Offset.y delta + Offset.y offset),
                 set_lastScaleFocus focus
                   (set_lastLength curLength
                      (set_position
                         (Position.set_scale
                            (Position.scale (position p) * deltaScale)
                            (position p))
                         p)))
         else Some (false, delta, p)
       else Some (false, delta, p)) ;;
    let '(updated, delta, p) := scaled : bool * Offset.t * Paper in
    let moved :=
      updated
      || Num.ltb 0.25
           (Offset.x delta * Offset.x delta + Offset.y delta * Offset.y delta) in
    let p :=
      if moved then
        set_lastFocus focus
          (set_position
             (Position.set_xy (Position.x (position p) + Offset.x delta)
                (Position.y (position p) + Offset.y delta) (position p))
             p)
      else p in
    Some (if moved then updateState p else p).

(** [now] is the value of [performance.now()], should an animation start. *)
Definition onTouchEndProxy (event : TouchEvent) (rect : DOMRect) (now : R)
  (p : Paper) : option Paper :=
  if (workMode p =? 0)%nat then Some p
  else if (workMode p =? 1)%nat then
    bc <- Brush.drawUp (brush p) (canvas p) ;;
    let (history, b) := Brush.cleanHistory (fst bc) in
    let p := set_canvas (snd bc) (set_brush b p) in
    match history with
    | None => Some p
    | Some history =>
        Some (set_redoHistories [] (set_histories (histories p ++ [history]) p))
    end
  else if (1 <? List.length (targetTouches event))%nat then
    focus <- computeFocus event rect ;;
    length <- computeLength event rect ;;
    Some (set_lastScaleFocus focus (set_lastLength length (set_lastFocus focus p)))
  else if (0 <? List.length (targetTouches event))%nat then
    focus <- computeFocus event rect ;;
    Some (set_lastFocus focus p)
  else overBound now p.

(** *** The animation frames *)

(** The window runs the oldest callback it was handed, at time [now]. *)
Definition animationFrame (now : R) (p : Paper) : option Paper :=
  match Animation.pending (animCtrl p) with
  | [] => Some p
  | h :: rest =>
      let c := Animation.mkController (Animation.holder (animCtrl p)) rest
                 (Animation.fresh (animCtrl p)) in
      st <- Animation.frame now h (position p, c) ;;
      Some (set_animCtrl (snd st) (set_position (fst st) p))
  end.

(** *** What can happen to a Paper *)

Inductive Event : Type :=
  | TouchStart (event : TouchEvent) (rect : DOMRect) (time : Z)
  | TouchMove (event : TouchEvent) (rect : DOMRect) (time : Z)
  | TouchEnd (event : TouchEvent) (rect : DOMRect) (now : R)
  | TouchCancel (event : TouchEvent) (rect : DOMRect) (now : R)
  | Resize (root : Element)
  | AnimationFrame (now : R)
  | Undo
  | Redo
  | FitCenter (now : R)
  | SetCurrentBrush (b : Brush.Brush).

Definition step (ev : Event) (p : Paper) : option Paper :=
  match ev with
  | TouchStart event rect time => onTouchStartProxy event rect time p
  | TouchMove event rect time => onTouchMoveProxy event rect time p
  | TouchEnd event rect now => onTouchEndProxy event rect now p
  | TouchCancel event rect now => onTouchEndProxy event rect now p
  | Resize root => onResize root p
  | AnimationFrame now => animationFrame now p
  | Undo => Some (snd (undo p))
  | Redo => Some (snd (redo p))
  | FitCenter now => Some (fitCenter now p)
  | SetCurrentBrush b => Some (set_currentBrush b p)
  end.

Fixpoint run (evs : list Event) (p : Paper) : option Paper :=
  match evs with
  | [] => Some p
  | ev :: evs => p <- step ev p ;; run evs p
  end.

Inductive reachable : Paper -> Prop :=
  | reachable_new root image maxScale brush history p :
      new root image maxScale brush history = Some p -> reachable p
  | reachable_step ev p p' :
      reachable p -> step ev p = Some p' -> reachable p'.

End Paper.

(** ** paper.ts and brush.ts: the objects behind a history *)

(** [Paper] and [Brush] above hold strokes by value.  What [clone] and
    [exportHistory] copy and what they share is told on the objects
    themselves: a heap of configuration objects, point arrays,
    [BrushHistory] objects and arrays of those, each at an address.  A
    [TimePoint] has read-only fields and stays a value. *)
Module Heap.

Import Brush.

Inductive Obj : Type :=
  | OConfigs (c : BrushConfigs)
  | OPoints (ps : list TimePoint)
  | OHistory (configs points : nat)
  | OArray (items : list nat).

(** The address of an object is its index; a new object goes at the end. *)
Definition t : Type := list Obj.

Definition alloc (o : Obj) (h : t) : nat * t := (List.length h, h ++ [o]).

(** An assignment to, or a [push], [pop] or [splice] on, the object at
    address [a]. *)
Definition write (a : nat) (o : Obj) (h : t) : t :=
  if (a <? List.length h)%nat then firstn a h ++ o :: skipn (S a) h else h.

(** [BrushHistory.clone()] on the object at address [a]. *)
Definition clone (a : nat) (h : t) : option (nat * t) :=
  match nth_error h a with
  | Some (OHistory c ps) =>
      match nth_error h c, nth_error h ps with
      | Some (OConfigs cv), Some (OPoints pv) =>
          let (c', h) :=
            alloc (OConfigs (mkConfigs (type cv) (color cv) (alpha cv)
                               (size cv) (cap cv) (join cv) (blendMode cv)))
              h in
          let (ps', h) := alloc (OPoints pv) h in
          Some (alloc (OHistory c' ps') h)
      | _, _ => None
      end
  | _ => None
  end.

(** [items.map(x => x.clone())], without the array it builds. *)
Fixpoint cloneAll (items : list nat) (h : t) : option (list nat * t) :=
  match items with
  | [] => Some ([], h)
  | x :: items =>
      r <- clone x h ;;
      rs <- cloneAll items (snd r) ;;
      Some (fst r :: fst rs, snd rs)
  end.

(** The [histories] of [Paper.exportHistory()], the live array being at
    address [hs]. *)
Definition exportHistories (hs : nat) (h : t) : option (nat * t) :=
  match nth_error h hs with
  | Some (OArray items) =>
      rs <- cloneAll items h ;;
      Some (alloc (OArray (fst rs)) (snd rs))
  | _ => None
  end.

(** The stroke, and the list of strokes, that an address stands for. *)
Definition readHistory (h : t) (a : nat) : option BrushHistory :=
  match nth_error h a with
  | Some (OHistory c ps) =>
      match nth_error h c, nth_error h ps with
      | Some (OConfigs cv), Some (OPoints pv) => Some (mkHistory cv pv)
      | _, _ => None
      end
  | _ => None
  end.

Fixpoint readAll (h : t) (items : list nat) : option (list BrushHistory) :=
  match items with
  | [] => Some []
  | x :: items =>
      v <- readHistory h x ;;
      vs <- readAll h items ;;
      Some (v :: vs)
  end.

Definition readHistories (h : t) (hs : nat) : option (list BrushHistory) :=
  match nth_error h hs with
  | Some (OArray items) => readAll h items
  | _ => None
  end.

(** The three objects that [clone] makes. *)
Definition cloned (n : nat) (v : BrushHistory) : list Obj :=
  [OConfigs (configs (Brush.clone v)); OPoints (points v);
   OHistory n (S n)].

(** [h2] has, at every address of [h1] from [n] on, the object [h1] has:
    whatever happened between them left the objects made since [n]
    alone. *)
Definition agree_from (n : nat) (h1 h2 : t) : Prop :=
  forall a, (n <= a)%nat -> (a < List.length h1)%nat ->
            nth_error h2 a = nth_error h1 a.

End Heap.

(** * The notions of the specification *)

(** ** The colour notation the specification names *)

Module ColorSpec.

(** The [w]-digit, zero-padded, lowercase hexadecimal notation of [n]. *)
Fixpoint hexFixed (w : nat) (n : Z) : string :=
  match w with
  | O => EmptyString
  | S w' =>
      (hexFixed w' (n / 16)%Z ++ String (Brush.hexDigit (n mod 16)%Z) EmptyString)%string
  end.

Fixpoint zeros (k : nat) : string :=
  match k with
  | O => EmptyString
  | S k' => String "0"%char (zeros k')
  end.

End ColorSpec.

(** ** The travel policy the specification names *)

Module StrokeSpec.

Import Brush.

(** The least distance from the last point at which a brush records a move. *)
Definition minTravel (b : Brush) : R :=
  match type (bconfigs b) with
  | marking => Rmax (size (bconfigs b) / 4) 2
  | eraser => Rmax (size (bconfigs b) / 8) 2
  end.

Definition accepts (b : Brush) (h : BrushHistory) (p : TimePoint) : Prop :=
  (count h < 2)%nat \/
  exists last, current h = Some last /\ minTravel b <= distance last p.

End StrokeSpec.

(** ** The history store the specification names *)

Module HistorySpec.

Import Paper.

(** What an event may do to the two stacks: nothing; commit a stroke and
    clear the redo stack (the end of a draw gesture); move the tail of the
    committed stack to the redo stack (undo), or back (redo). *)
Inductive change (p p' : Paper) : Event -> Prop :=
  | unchanged ev :
      histories p' = histories p -> redoHistories p' = redoHistories p ->
      change p p' ev
  | committed_end event rect now h :
      histories p' = histories p ++ [h] -> redoHistories p' = [] ->
      change p p' (TouchEnd event rect now)
  | committed_cancel event rect now h :
      histories p' = histories p ++ [h] -> redoHistories p' = [] ->
      change p p' (TouchCancel event rect now)
  | undone h :
      histories p = histories p' ++ [h] ->
      redoHistories p' = redoHistories p ++ [h] ->
      change p p' Undo
  | redone h :
      histories p' = histories p ++ [h] ->
      redoHistories p = redoHistories p' ++ [h] ->
      change p p' Redo.

(** What the handlers of a gesture leave alone. *)
Definition same_rest (p p' : Paper) : Prop :=
  histories p' = histories p /\ redoHistories p' = redoHistories p
  /\ animCtrl p' = animCtrl p /\ maxScale p' = maxScale p
  /\ root p' = root p.

End HistorySpec.

(** ** The viewport the specification names *)

Module ViewportSpec.

Import Dom Paper.









End ViewportSpec.

(** ** What holds of every Paper *)

Module Invariant.

Import Animation Paper.

(** The animation ends on a zoom within the bounds: the last frame, at
    value 1, assigns a scale in [[1, maxScale]]. *)
Definition lands (maxScale : R) (h : AnimationHolder) : Prop :=
  forall pos, 1 <= Position.scale (frameCallback h 1 pos) <= maxScale.

(** The holder the controller refers to: scheduled, not cancelled, with a
    duration no shorter than a frame, nothing to call on completion. *)
Definition live (maxScale : R) (h : AnimationHolder) : Prop :=
  canceled h = false /\ 16 <= duration h /\ completedCallback h = None
  /\ lands maxScale h.

(** The scheduled callbacks are those of cancelled holders, oldest first,
    followed by that of the holder the controller refers to, if any. *)
Definition scheduled (maxScale : R) (c : AnimationController) : Prop :=
  match holder c with
  | None => Forall (fun h => canceled h = true) (pending c)
  | Some i =>
      exists old h,
        pending c = old ++ [h] /\ id h = i /\ live maxScale h
        /\ Forall (fun h => canceled h = true) old
  end.

Definition wf_controller (maxScale : R) (c : AnimationController) : Prop :=
  Forall (fun h => (id h < fresh c)%nat) (pending c)
  /\ NoDup (map id (pending c))
  /\ scheduled maxScale c.

(** No scheduled animation is shorter than a frame. *)
Definition paced (c : AnimationController) : Prop :=
  Forall (fun h => 16 <= duration h) (pending c).

Definition Inv (p : Paper) : Prop :=
  1.5 <= maxScale p <= 3
  /\ wf_controller (maxScale p) (animCtrl p)
  /\ paced (animCtrl p).

(** The holders that are scheduled and not cancelled. *)
Definition liveHolders (c : AnimationController) : list AnimationHolder :=
  filter (fun h => negb (canceled h)) (pending c).

(** Animation frames at the given times, for as long as an animation is
    live. *)
Fixpoint settle (times : list R) (p : Paper) : option Paper :=
  match times with
  | [] => Some p
  | now :: times =>
      if animating (animCtrl p)
      then p <- animationFrame now p ;; settle times p
      else Some p
  end.

(** The zoom is within its bounds. *)
Definition zoomBounded (p : Paper) : Prop :=
  1 <= Position.scale (position p) <= maxScale p.

End Invariant.

(** ** Concrete papers *)

Module Examples.

Import Dom.

(** A 1000 x 800 bitmap in a 300 x 300 root: fitted 300 x 240, 30 down. *)
Definition paper0 : Paper.Paper :=
  Paper.mkPaper (mkElement 300 300) [] (ImageBitmap 1000 800)
    (Position.mk 0 30 (3 / 10) 0 0 1 300 240)
    [] [] Animation.create 2 1000 800 (Brush.MarkingBrush_default None)
    (Offset.mk 0 0) 0 (Offset.mk 0 0) 0.


Definition rect0 : DOMRect := mkRect 0 0.

Definition touches (l : list (R * R)) : TouchEvent :=
  mkTouchEvent (map (fun xy => mkTouch (fst xy) (snd xy)) l).

Definition stroke3 : Brush.BrushHistory :=
  Brush.mkHistory (Brush.toConfigs (Brush.MarkingBrush_default None))
    [Brush.mkTimePoint 10 10 0; Brush.mkTimePoint 12 11 1;
     Brush.mkTimePoint 50 60 2].

(** [stroke3] committed and undone again. *)
Definition undone0 : Paper.Paper :=
  snd (Paper.undo (Paper.set_histories [stroke3] paper0)).

(** One finger down at the middle of the root, and up again. *)
Definition tap : list Paper.Event :=
  [Paper.TouchStart (touches [(150, 150)]) rect0 0;
   Paper.TouchEnd (touches []) rect0 0].

(** One finger down, one move, and up. *)
Definition shortDrag : list Paper.Event :=
  [Paper.TouchStart (touches [(150, 150)]) rect0 0;
   Paper.TouchMove (touches [(160, 150)]) rect0 1;
   Paper.TouchEnd (touches []) rect0 0].

(** A pinch: one finger down, a second one down 100 apart, the two
    moved 260 apart around the same middle, both lifted, and the frame
    that ends the animation. *)
Definition pinchStart : Paper.Event :=
  Paper.TouchStart (touches [(150, 150)]) rect0 0.

Definition pinchSecond : Paper.Event :=
  Paper.TouchStart (touches [(100, 150); (200, 150)]) rect0 0.

Definition pinchMove : TouchEvent * DOMRect * Z :=
  (touches [(20, 150); (280, 150)], rect0, 1%Z).

Definition drawing0 : Paper.Paper :=
  Paper.mkPaper (mkElement 300 300) [] (ImageBitmap 1000 800)
    (Position.mk 0 30 (3 / 10) 0 0 1 300 240)
    [] [] Animation.create 2 1000 800
    (Brush.drawDown (Brush.mkTimePoint 500 400 0)
       (Brush.MarkingBrush_default None))
    (Offset.mk 150 150) 0 (Offset.mk 0 0) 1.

Definition pinching0 : Paper.Paper :=
  Paper.mkPaper (mkElement 300 300) [] (ImageBitmap 1000 800)
    (Position.mk 0 30 (3 / 10) 0 0 1 300 240)
    [] [] Animation.create 2 1000 800 (Brush.MarkingBrush_default None)
    (Offset.mk 150 150) 100 (Offset.mk 150 150) 2.

Definition zoomed0 : Paper.Paper :=
  Paper.mkPaper (mkElement 300 300) [] (ImageBitmap 1000 800)
    (Position.mk 0 30 (3 / 10) (-240) (-192) (13 / 5) 300 240)
    [] [] Animation.create 2 1000 800 (Brush.MarkingBrush_default None)
    (Offset.mk 150 150) 260 (Offset.mk 150 150) 2.

Definition snapBack : Animation.AnimationHolder :=
  Animation.mkHolder 0
    (Paper.lerp (-240) (-192) (13 / 5) (-150) (-120) 2) None None 200 1000
    false.

Definition snapping0 : Paper.Paper :=
  Paper.set_animCtrl (Animation.mkController (Some 0%nat) [snapBack] 1) zoomed0.

Definition snapped0 : Paper.Paper :=
  Paper.set_animCtrl (Animation.mkController None [] 1)
    (Paper.set_position (Position.mk 0 30 (3 / 10) (-150) (-120) 2 300 240)
       zoomed0).

(** A pinch that shrinks the view by a hundredth, around the corner of
    the fitted image: two fingers 60 apart, moved 59.4 apart. *)
Definition shrinkStart : Paper.Event :=
  Paper.TouchStart (touches [(0, 0)]) rect0 0.

Definition shrinkSecond : Paper.Event :=
  Paper.TouchStart (touches [(0, 0); (0, 60)]) rect0 0.

Definition shrinkMove : Paper.Event :=
  Paper.TouchMove (touches [(0, 3 / 10); (0, 597 / 10)]) rect0 1.

Definition shrinkDrawing0 : Paper.Paper :=
  Paper.mkPaper (mkElement 300 300) [] (ImageBitmap 1000 800)
    (Position.mk 0 30 (3 / 10) 0 0 1 300 240)
    [] [] Animation.create 2 1000 800
    (Brush.drawDown (Brush.mkTimePoint 0 (-100) 0)
       (Brush.MarkingBrush_default None))
    (Offset.mk 0 0) 0 (Offset.mk 0 0) 1.

Definition shrinking0 : Paper.Paper :=
  Paper.mkPaper (mkElement 300 300) [] (ImageBitmap 1000 800)
    (Position.mk 0 30 (3 / 10) 0 0 1 300 240)
    [] [] Animation.create 2 1000 800 (Brush.MarkingBrush_default None)
    (Offset.mk 0 30) 60 (Offset.mk 0 30) 2.

Definition shrunk0 : Paper.Paper :=
  Paper.mkPaper (mkElement 300 300) [] (ImageBitmap 1000 800)
    (Position.mk 0 30 (3 / 10) 0 0 (99 / 100) 300 240)
    [] [] Animation.create 2 1000 800 (Brush.MarkingBrush_default None)
    (Offset.mk 0 30) (594 / 10) (Offset.mk 0 30) 2.

(** [shrunk0] with the zoom back at 1, and no animation. *)
Definition fitted0 : Paper.Paper :=
  Paper.set_position (Position.mk 0 30 (3 / 10) 0 0 1 300 240) shrunk0.




Definition narrowZoomed0 : Paper.Paper :=
  Paper.mkPaper (mkElement 300 300) [] (ImageBitmap 100 300)
    (Position.mk 100 0 1 (-50) (-150) 2 100 300)
    [] [] Animation.create 2 100 300 (Brush.MarkingBrush_default None)
    (Offset.mk 150 150) 200 (Offset.mk 150 150) 2.

(** A pinch that shrinks the view by a fifth around the corner of the
    fitted image (two fingers 60 apart, moved 48 apart), both fingers
    lifted at time 1000, an animation frame at time 1187, a call of
    [fitCenter], and the animation frame at time 1195. *)
Definition fifthMove : Paper.Event :=
  Paper.TouchMove (touches [(0, 6); (0, 54)]) rect0 1.

Definition fifth0 : Paper.Paper :=
  Paper.mkPaper (mkElement 300 300) [] (ImageBitmap 1000 800)
    (Position.mk 0 30 (3 / 10) 0 0 (4 / 5) 300 240)
    [] [] Animation.create 2 1000 800 (Brush.MarkingBrush_default None)
    (Offset.mk 0 30) 48 (Offset.mk 0 30) 2.

Definition fitBack : Animation.AnimationHolder :=
  Animation.mkHolder 0 (Paper.lerp 0 0 (4 / 5) 0 0 1) None None 200 1000 false.

Definition returning0 : Paper.Paper :=
  Paper.set_animCtrl (Animation.mkController (Some 0%nat) [fitBack] 1) fifth0.

Definition nearly0 : Paper.Paper :=
  Paper.set_position (Position.mk 0 30 (3 / 10) 0 0 (987 / 1000) 300 240)
    returning0.

Definition fitBackCanceled : Animation.AnimationHolder :=
  Animation.mkHolder 0 (Paper.lerp 0 0 (4 / 5) 0 0 1) None None 200 1000 true.

Definition centred0 : Paper.Paper :=
  Paper.set_animCtrl (Animation.mkController None [fitBackCanceled] 1)
    (Paper.set_position (Position.mk 0 30 (3 / 10) 0 0 1 300 240) nearly0).

Definition stale0 : Paper.Paper :=
  Paper.set_animCtrl (Animation.mkController None [] 1)
    (Paper.set_position (Position.mk 0 30 (3 / 10) 0 0 (199 / 200) 300 240)
       centred0).

(** Two fingers at the same point, in the gesture of [shrinking0]. *)
Definition coincidentMove : Paper.Event :=
  Paper.TouchMove (touches [(0, 30); (0, 30)]) rect0 1.

Definition collapsed0 : Paper.Paper :=
  Paper.mkPaper (mkElement 300 300) [] (ImageBitmap 1000 800)
    (Position.mk 0 30 (3 / 10) 0 0 0 300 240)
    [] [] Animation.create 2 1000 800 (Brush.MarkingBrush_default None)
    (Offset.mk 0 30) 0 (Offset.mk 0 30) 2.

(** [stroke3] committed on a fresh paper. *)
Definition drawn0 : Paper.Paper :=
  Paper.redraw (Paper.set_histories [stroke3] paper0).

(** A heap with the committed array [[stroke3]] at address 3, and what
    an export followed by three changes of the live objects makes of it:
    a point pushed onto the live stroke, its colour assigned, the live
    array emptied. *)
Definition heap0 : Heap.t :=
  [Heap.OConfigs (Brush.configs stroke3); Heap.OPoints (Brush.points stroke3);
   Heap.OHistory 0 1; Heap.OArray [2%nat]].

Definition mutate0 (h : Heap.t) : Heap.t :=
  Heap.write 3 (Heap.OArray [])
    (Heap.write 0
       (Heap.OConfigs
          (Brush.mkConfigs Brush.marking 0xFF0000 1 8 Brush.round_cap
             Brush.round_join Brush.source_over))
       (Heap.write 1
          (Heap.OPoints (Brush.points stroke3 ++ [Brush.mkTimePoint 70 80 3]))
          h)).

End Examples.

(** ** brush.ts: the rest of TimePoint and Brush *)

Module BrushApi.

Import Brush.

(** The method [fromConfig(configs)] of a brush object (the static
    function of that name is [Brush.fromConfig]): it assigns every field
    of the configuration but [type]. *)
Definition fromConfig' (c : BrushConfigs) (b : Brush) : Brush :=
  mkBrush
    (mkConfigs (type (bconfigs b)) (color c) (alpha c) (size c) (cap c)
       (join c) (blendMode c))
    (_history b).

(** [new MarkingBrush(size, configs)] and [new EraserBrush(size, configs)]. *)
Definition MarkingBrush (size : option R) (configs : option BrushConfigs)
  : option Brush :=
  match configs with
  | Some c =>
      match type c with
      | marking => Some (mkBrush c None)
      | eraser => None
      end
  | None => Some (MarkingBrush_default size)
  end.

Definition EraserBrush (size : option R) (configs : option BrushConfigs)
  : option Brush :=
  match configs with
  | Some c =>
      match type c with
      | eraser => Some (mkBrush c None)
      | marking => None
      end
  | None => Some (EraserBrush_default size)
  end.

(** The [switch] of the static [Brush.fromConfig], constructor by
    constructor. *)
Definition fromConfig_switch (c : BrushConfigs) : option Brush :=
  match type c with
  | marking => MarkingBrush None (Some c)
  | eraser => EraserBrush None (Some c)
  end.

End BrushApi.

(** ** paper.ts: the opacity of the canvas element *)

Module CanvasStyle.

(** [canvas.canvas.style.opacity]: the number that [parseFloat] reads
    from the text, [None] when it reads none (the empty text of a style
    that was never assigned).  [Number.prototype.toString] writes a number
    that [parseFloat] reads back. *)
Definition t : Type := option R.

(** The getter of [canvasOpacity]: [parseFloat(…) || 1.0]. *)
Definition canvasOpacity (opacity : t) : R :=
  match opacity with
  | Some v => if Num.eqb v 0 then 1 else v
  | None => 1
  end.

(** The setter of [canvasOpacity]. *)
Definition set_canvasOpacity (opacity : R) : t :=
  Some (Num.clampNumber opacity 0 1).

End CanvasStyle.

(** ** Strokes and gestures as wholes *)

Module GestureSpec.

Import Brush Dom Paper.

(** [drawMove] for each point in turn. *)
Fixpoint drawMoves (pts : list TimePoint) (b : Brush) (canvas : Canvas)
  : option (Brush * Canvas) :=
  match pts with
  | [] => Some (b, canvas)
  | p :: pts => bc <- drawMove p b canvas ;; drawMoves pts (fst bc) (snd bc)
  end.

(** Every two neighbours of the list are at least [d] apart. *)
Fixpoint spaced (d : R) (pts : list TimePoint) : Prop :=
  match pts with
  | a :: rest =>
      match rest with
      | b :: _ => d <= distance a b /\ spaced d rest
      | [] => True
      end
  | [] => True
  end.

(** [l1] is [l2] with some of its elements left out. *)
Inductive subseq {A : Type} : list A -> list A -> Prop :=
  | subseq_nil : subseq [] []
  | subseq_skip a l1 l2 : subseq l1 l2 -> subseq l1 (a :: l2)
  | subseq_keep a l1 l2 : subseq l1 l2 -> subseq (a :: l1) (a :: l2).

(** The touch moves of a gesture. *)
Definition touchMoves (moves : list (TouchEvent * DOMRect * Z)) : list Event :=
  map (fun m => TouchMove (fst (fst m)) (snd (fst m)) (snd m)) moves.


(** The canvas shows the committed strokes, and nothing else. *)
Definition inSync (p : Paper) : Prop := canvas p = canvas (redraw p).

(** The strokes in the order they were committed, the undone ones last. *)
Definition timeline (p : Paper) : list BrushHistory :=
  histories p ++ rev (redoHistories p).

(** The number of curves that [redraw] strokes for a history. *)
Definition curves (h : BrushHistory) : nat := (count h - 2)%nat.

(** [q] is [p0] with a stroke of a brush of configuration [cfg] under
    way, the canvas showing what has been captured of it on top of [c0]. *)
Definition drawing (cfg : BrushConfigs) (c0 : Canvas) (p0 q : Paper) : Prop :=
  workMode q = 1%nat
  /\ (exists h,
        brush q = mkBrush cfg (Some h) /\ (1 <= count h)%nat
        /\ configs h = cfg
        /\ spaced (StrokeSpec.minTravel (fromConfig cfg)) (tl (points h))
        /\ canvas q = drawPoints (fromConfig cfg) c0 (points h))
  /\ histories q = histories p0 /\ redoHistories q = redoHistories p0
  /\ position q = position p0.

End GestureSpec.

(** ** The layout of the image in its root *)

Module LayoutSpec.

Import Dom Paper Animation.

(** What [loadSizeAndPosition] assigns is the same in two positions. *)
Definition sameBase (a b : Position.t) : Prop :=
  Position.ox a = Position.ox b /\ Position.oy a = Position.oy b
  /\ Position.oScale a = Position.oScale b
  /\ Position.width a = Position.width b
  /\ Position.height a = Position.height b.

(** A callback leaves alone what [loadSizeAndPosition] assigns. *)
Definition keeps (f : AnimationCallback) : Prop :=
  forall value pos, sameBase (f value pos) pos.

Definition keeps_opt (f : option AnimationCallback) : Prop :=
  match f with Some f => keeps f | None => True end.

Definition keeps_holder (h : AnimationHolder) : Prop :=
  keeps (frameCallback h) /\ keeps_opt (completedCallback h)
  /\ keeps_opt (canceledCallback h).

(** What the constructor assigns once and for all. *)
Definition sameImage (p p' : Paper) : Prop :=
  image p' = image p /\ width p' = width p /\ height p' = height p
  /\ maxScale p' = maxScale p.

(** The root and what [loadSizeAndPosition] made of it are the same. *)
Definition sameFrame (p p' : Paper) : Prop :=
  root p' = root p /\ sameBase (position p') (position p).

(** The position is the one [loadSizeAndPosition] computes from the root
    and the image as they are, and no scheduled animation will change
    that. *)
Definition Fitted (p : Paper) : Prop :=
  loadSizeAndPosition p = Some p
  /\ 0 < width p /\ 0 < height p
  /\ Forall keeps_holder (pending (animCtrl p)).

(** Where the parent element shows, from its style: its box scaled
    around its top left corner. *)
Definition shownX (p : Paper) (u : R) : R :=
  let st := parentStyle (position p) in
  styleLeft st + u * (styleWidth st * styleScale st).

Definition shownY (p : Paper) (v : R) : R :=
  let st := parentStyle (position p) in
  styleTop st + v * (styleHeight st * styleScale st).

End LayoutSpec.
(** ** Transitions of the view *)

Module TransitionSpec.

Import Paper Animation.


(** The pan and the zoom of the user are the target. *)
Definition at_target (ex ey es : R) (p : Paper) : Prop :=
  Position.x (position p) = ex /\ Position.y (position p) = ey
  /\ Position.scale (position p) = es.

(** The view after a pan by [dx, dy] and a zoom by the factor [s]. *)
Definition moved (dx dy s : R) (p : Paper) : Paper :=
  set_position
    (Position.set_xys (Position.x (position p) + dx)
       (Position.y (position p) + dy) (Position.scale (position p) * s)
       (position p))
    p.

End TransitionSpec.

(** * Properties *)

(** ** Numbers *)

Module NumFacts.

Import Num.

Lemma leb_le a b : leb a b = true <-> a <= b.
Proof. unfold leb. destruct (Rle_dec a b); split; intros; try easy. Qed.

Lemma leb_gt a b : leb a b = false <-> b < a.
Proof.
  unfold leb. destruct (Rle_dec a b); split; intros; try easy; lra.
Qed.

Lemma ltb_lt a b : ltb a b = true <-> a < b.
Proof. unfold ltb. destruct (Rlt_dec a b); split; intros; try easy. Qed.

Lemma ltb_ge a b : ltb a b = false <-> b <= a.
Proof.
  unfold ltb. destruct (Rlt_dec a b); split; intros; try easy; lra.
Qed.

Lemma eqb_eq a b : eqb a b = true <-> a = b.
Proof. unfold eqb. destruct (Req_dec_T a b); split; intros; try easy. Qed.

Lemma eqb_neq a b : eqb a b = false <-> a <> b.
Proof. unfold eqb. destruct (Req_dec_T a b); split; intros; try easy. Qed.

Lemma div_some a b : b <> 0 -> div a b = Some (a / b).
Proof. intros H. unfold div. destruct (Req_dec_T b 0); [contradiction | reflexivity]. Qed.

Lemma div_inv a b q : div a b = Some q -> b <> 0 /\ q = a / b.
Proof.
  unfold div. destruct (Req_dec_T b 0); intros H; [discriminate |].
  injection H as <-. split; [assumption | reflexivity].
Qed.

Lemma floor_unique (a : R) (z : Z) : IZR z <= a < IZR z + 1 -> floor a = z.
Proof.
  intros [H1 H2]. unfold floor. symmetry. apply Int_part_spec. lra.
Qed.

Lemma clampNumber_bounds value min max :
  min <= max -> min <= clampNumber value min max <= max.
Proof.
  intros H. unfold clampNumber, Rmin, Rmax.
  destruct (Rle_dec value min); destruct (Rle_dec _ max); lra.
Qed.

Lemma clampNumber_id value min max :
  min <= value <= max -> clampNumber value min max = value.
Proof.
  intros H. unfold clampNumber, Rmin, Rmax.
  destruct (Rle_dec value min); destruct (Rle_dec _ max); lra.
Qed.

End NumFacts.

(** ** strokeStyle *)

Module StrokeStyleFacts.

Import Brush ColorSpec.

Local Open Scope string_scope.

Lemma length_append (s1 s2 : string) :
  String.length (s1 ++ s2) = (String.length s1 + String.length s2)%nat.
Proof. induction s1 as [| c s1 IH]; simpl; [reflexivity | now rewrite IH]. Qed.

Lemma append_assoc (s1 s2 s3 : string) : (s1 ++ s2) ++ s3 = s1 ++ (s2 ++ s3).
Proof. induction s1 as [| c s1 IH]; simpl; [reflexivity | now rewrite IH]. Qed.

Lemma length_zeros k : String.length (zeros k) = k.
Proof. induction k; simpl; congruence. Qed.

Lemma zeros_snoc k : zeros k ++ "0" = zeros (S k).
Proof. induction k as [| k IH]; simpl; [reflexivity |]. simpl in IH. now rewrite IH. Qed.

Lemma hexFixed_zero w : hexFixed w 0 = zeros w.
Proof.
  induction w as [| w IH]; [reflexivity |].
  change (hexFixed (S w) 0) with (hexFixed w (0 / 16)%Z ++ "0").
  rewrite Z.div_0_l by lia. rewrite IH. apply zeros_snoc.
Qed.

Lemma length_hexFixed w n : String.length (hexFixed w n) = w.
Proof.
  revert n. induction w as [| w IH]; intros n; simpl; [reflexivity |].
  rewrite length_append, IH. simpl. lia.
Qed.

Lemma length_hexDigits_pos fuel n :
  (1 <= String.length (hexDigits (S fuel) n))%nat.
Proof.
  simpl. destruct (n <? 16)%Z; simpl; [lia |].
  rewrite length_append. simpl. lia.
Qed.

(** The digits that [toString(16)] yields are those of the fixed-width
    notation without its leading zeros. *)
Lemma hexDigits_hexFixed w : forall fuel n,
  (0 <= n < 16 ^ Z.of_nat (S w))%Z -> (0 <= n < 16 ^ Z.of_nat (S fuel))%Z ->
  (String.length (hexDigits (S fuel) n) <= S w)%nat /\
  hexFixed (S w) n =
    zeros (S w - String.length (hexDigits (S fuel) n)) ++ hexDigits (S fuel) n.
Proof.
  induction w as [| w IH]; intros fuel n Hw Hf.
  - change (16 ^ Z.of_nat 1)%Z with 16%Z in Hw.
    assert (E : (n <? 16)%Z = true) by (apply Z.ltb_lt; lia).
    simpl. rewrite E. simpl. split; [lia |].
    rewrite Z.mod_small by lia. reflexivity.
  - change (hexFixed (S (S w)) n)
      with (hexFixed (S w) (n / 16)%Z ++ String (hexDigit (n mod 16)%Z) "").
    change (hexDigits (S fuel) n)
      with (if (n <? 16)%Z then String (hexDigit n) ""
            else hexDigits fuel (n / 16)%Z ++ String (hexDigit (n mod 16)%Z) "").
    destruct (Z.ltb_spec n 16) as [Hlt | Hge].
    + rewrite Z.div_small, Z.mod_small by lia.
      rewrite hexFixed_zero. simpl String.length. split; [lia |].
      replace (S (S w) - 1)%nat with (S w) by lia.
      reflexivity.
    + destruct fuel as [| fuel].
      { change (16 ^ Z.of_nat 1)%Z with 16%Z in Hf. lia. }
      assert (Hw' : (0 <= n / 16 < 16 ^ Z.of_nat (S w))%Z).
      { split; [apply Z.div_pos; lia |].
        apply Z.div_lt_upper_bound; [lia |].
        replace (Z.of_nat (S (S w))) with (Z.succ (Z.of_nat (S w))) in Hw by lia.
        rewrite Z.pow_succ_r in Hw by lia. lia. }
      assert (Hf' : (0 <= n / 16 < 16 ^ Z.of_nat (S fuel))%Z).
      { split; [apply Z.div_pos; lia |].
        apply Z.div_lt_upper_bound; [lia |].
        replace (Z.of_nat (S (S fuel))) with (Z.succ (Z.of_nat (S fuel))) in Hf by lia.
        rewrite Z.pow_succ_r in Hf by lia. lia. }
      destruct (IH fuel (n / 16)%Z Hw' Hf') as [Hlen Heq].
      rewrite length_append.
      change (String.length (String (hexDigit (n mod 16)%Z) "")) with 1%nat.
      split; [lia |].
      rewrite Heq, append_assoc.
      replace (S (S w) - (String.length (hexDigits (S fuel) (n / 16)) + 1))%nat
        with (S w - String.length (hexDigits (S fuel) (n / 16)))%nat by lia.
      reflexivity.
Qed.

Lemma zeros_cons k s : zeros k ++ String "0" s = String "0" (zeros k ++ s).
Proof. induction k as [| k IH]; simpl; [reflexivity | now rewrite IH]. Qed.

Lemma padColor_zeros : forall k s,
  k = (6 - String.length s)%nat -> padColor k s = zeros k ++ s.
Proof.
  induction k as [| k IH]; intros s Hk; [reflexivity |].
  simpl padColor.
  destruct (Nat.ltb_spec (String.length s) 6) as [Hlt | Hge]; [| lia].
  rewrite IH by (simpl String.length; lia).
  rewrite zeros_cons. reflexivity.
Qed.

(** Both loops of [strokeStyle] stop: on exit their conditions are false. *)
Lemma padColor_exit s : (6 <= String.length (padColor (6 - String.length s) s))%nat.
Proof.
  rewrite padColor_zeros by reflexivity.
  rewrite length_append, length_zeros. lia.
Qed.

Lemma padAlpha_exit color alpha :
  (1 <= String.length color)%nat ->
  (2 <= String.length (padAlpha (2 - String.length alpha) color alpha))%nat.
Proof.
  intros Hc.
  destruct color as [| c color]; [simpl in Hc; lia |].
  destruct alpha as [| c1 [| c2 alpha]]; cbn; lia.
Qed.

Lemma toString16_fuel n :
  (0 <= n)%Z -> (0 <= n < 16 ^ Z.of_nat (S (Z.to_nat (Z.log2 n))))%Z.
Proof.
  intros Hn. split; [assumption |].
  destruct (Z.eq_dec n 0) as [-> | Hnz]; [reflexivity |].
  assert (Hlog : (0 <= Z.log2 n)%Z) by apply Z.log2_nonneg.
  replace (Z.of_nat (S (Z.to_nat (Z.log2 n)))) with (Z.succ (Z.log2 n)) by lia.
  assert (H2 : (n < 2 ^ Z.succ (Z.log2 n))%Z) by (apply Z.log2_spec; lia).
  assert (H16 : (2 ^ Z.succ (Z.log2 n) <= 16 ^ Z.succ (Z.log2 n))%Z)
    by (apply Z.pow_le_mono_l; lia).
  lia.
Qed.

Lemma toString16_nonneg n :
  (0 <= n)%Z -> toString16 n = hexDigits (S (Z.to_nat (Z.log2 n))) n.
Proof.
  intros Hn. unfold toString16.
  destruct (Z.ltb_spec n 0); [lia | reflexivity].
Qed.

Lemma padColor_toString16 c :
  (0 <= c <= 0xFFFFFF)%Z ->
  padColor (6 - String.length (toString16 c)) (toString16 c) = hexFixed 6 c.
Proof.
  intros Hc. rewrite padColor_zeros by reflexivity.
  rewrite toString16_nonneg by lia.
  symmetry. apply (hexDigits_hexFixed 5).
  - change (16 ^ Z.of_nat 6)%Z with 16777216%Z. lia.
  - apply toString16_fuel. lia.
Qed.

Lemma toString16_two_digits a :
  (16 <= a <= 255)%Z -> toString16 a = hexFixed 2 a.
Proof.
  intros Ha. rewrite toString16_nonneg by lia.
  assert (Hf := toString16_fuel a ltac:(lia)).
  destruct (hexDigits_hexFixed 1 (Z.to_nat (Z.log2 a)) a) as [Hlen Heq];
    [change (16 ^ Z.of_nat 2)%Z with 256%Z; lia | exact Hf |].
  assert (Hlog : (4 <= Z.log2 a)%Z)
    by (change 4%Z with (Z.log2 16); apply Z.log2_le_mono; lia).
  assert (H2 : (2 <= String.length (hexDigits (S (Z.to_nat (Z.log2 a))) a))%nat).
  { destruct (Z.to_nat (Z.log2 a)) as [| f] eqn:E; [lia |].
    change (hexDigits (S (S f)) a)
      with (if (a <? 16)%Z then String (hexDigit a) ""
            else hexDigits (S f) (a / 16)%Z ++ String (hexDigit (a mod 16)%Z) "").
    destruct (Z.ltb_spec a 16); [lia |].
    rewrite length_append.
    pose proof (length_hexDigits_pos f (a / 16)%Z) as Hpos.
    set (d := hexDigits (S f) (a / 16)%Z) in *. simpl String.length. lia. }
  rewrite Heq.
  replace (2 - String.length (hexDigits (S (Z.to_nat (Z.log2 a))) a))%nat
    with 0%nat by lia.
  reflexivity.
Qed.

Lemma toString16_one_digit a :
  (0 <= a < 16)%Z -> String.length (toString16 a) = 1%nat.
Proof.
  intros Ha. rewrite toString16_nonneg by lia.
  simpl. destruct (Z.ltb_spec a 16); [reflexivity | lia].
Qed.

Lemma floor_nonneg (r : R) : (0 <= r)%R -> (0 <= Num.floor r)%Z.
Proof.
  intros Hr. unfold Num.floor.
  destruct (base_Int_part r) as [_ H].
  assert (H1 : (IZR (-1) < IZR (Int_part r))%R) by (simpl; lra).
  apply lt_IZR in H1. lia.
Qed.

(** C10: for an integer colour in [0, 0xFFFFFF], [strokeStyle] is ['#'],
    the six zero-padded lowercase hexadecimal digits of the colour and the
    two hexadecimal digits of [floor(alpha * 255)] when that is in
    [16, 255], nine characters in all; when it is below 16 (alpha being an
    opacity, not negative) the padding of the alpha digit puts ['0'] and
    the six colour digits in its place, which gives fourteen characters
    and no [#RRGGBBAA] colour. *)
Theorem strokeStyle_hex (b : Brush) :
  (0 <= color (bconfigs b) <= 0xFFFFFF)%Z ->
  let a := Num.floor (alpha (bconfigs b) * 255) in
  ((16 <= a <= 255)%Z ->
   strokeStyle b
     = String "#" (hexFixed 6 (color (bconfigs b)) ++ hexFixed 2 a)
   /\ String.length (strokeStyle b) = 9%nat)
  /\
  ((0 <= alpha (bconfigs b))%R -> (a < 16)%Z ->
   strokeStyle b
     = String "#" (hexFixed 6 (color (bconfigs b))
                   ++ String "0" (hexFixed 6 (color (bconfigs b))))
   /\ String.length (strokeStyle b) = 14%nat
   /\ String.length (strokeStyle b) <> 9%nat).
Proof.
  intros Hc a. unfold strokeStyle, strokeStyle_of. fold a.
  rewrite (padColor_toString16 _ Hc).
  set (c6 := hexFixed 6 (color (bconfigs b))).
  assert (Lc : String.length c6 = 6%nat) by apply length_hexFixed.
  split.
  - intros Ha. rewrite (toString16_two_digits _ Ha).
    rewrite (length_hexFixed 2).
    change (padAlpha (2 - 2) c6 (hexFixed 2 a)) with (hexFixed 2 a).
    split; [reflexivity |].
    change (S (String.length (c6 ++ hexFixed 2 a)) = 9%nat).
    rewrite length_append, Lc, length_hexFixed. reflexivity.
  - intros Halpha Ha.
    assert (Ha0 : (0 <= a)%Z) by (apply floor_nonneg; lra).
    assert (La : String.length (toString16 a) = 1%nat)
      by (apply toString16_one_digit; lia).
    assert (E : padAlpha (2 - String.length (toString16 a)) c6 (toString16 a)
                = String "0" c6).
    { rewrite La. change (2 - 1)%nat with 1%nat.
      unfold padAlpha. rewrite La. reflexivity. }
    rewrite E.
    assert (L : String.length (String "#" (c6 ++ String "0" c6)) = 14%nat).
    { change (S (String.length (c6 ++ String "0" c6)) = 14%nat).
      rewrite length_append.
      change (String.length (String "0" c6)) with (S (String.length c6)).
      rewrite Lc. reflexivity. }
    split; [reflexivity |]. split; [exact L | rewrite L; discriminate].
Qed.

(** A colour assigned through the setter is in the range of the theorem. *)
Lemma set_color_range (c : Z) (b : Brush) :
  (0 <= color (bconfigs (set_color c b)) <= 0xFFFFFF)%Z.
Proof.
  unfold set_color. simpl.
  destruct (Z.ltb_spec c 0); [simpl; lia |].
  destruct (Z.ltb_spec 0xFFFFFF c); simpl; lia.
Qed.

Lemma floor_255 : Num.floor (1 * 255) = 255%Z.
Proof. apply NumFacts.floor_unique. simpl. lra. Qed.

Lemma floor_0 : Num.floor (0 * 255) = 0%Z.
Proof. apply NumFacts.floor_unique. simpl. lra. Qed.

(** The default marking brush is opaque green; made transparent, its
    style has fourteen characters. *)
Lemma strokeStyle_hex_witness :
  strokeStyle (MarkingBrush_default None) = "#0e9c4bff"
  /\ strokeStyle
       (mkBrush (mkConfigs marking 0x0E9C4B 0 8 round_cap round_join source_over) None)
     = "#0e9c4b00e9c4b".
Proof.
  split.
  - destruct (strokeStyle_hex (MarkingBrush_default None)) as [H _];
      [simpl; lia |].
    simpl in H. rewrite floor_255 in H.
    destruct H as [H _]; [lia |]. exact H.
  - destruct (strokeStyle_hex
                (mkBrush (mkConfigs marking 0x0E9C4B 0 8 round_cap round_join source_over) None))
      as [_ H]; [simpl; lia |].
    simpl in H. rewrite floor_0 in H.
    destruct H as [H _]; [lra | lia |]. exact H.
Defined.

(** Outside the documented range of an opacity: a negative alpha has a
    floor of two characters or more, sign included, and is not padded. *)
Example strokeStyle_negative_alpha :
  strokeStyle
    (mkBrush
       (mkConfigs marking 0x0E9C4B (-1 / 255) 8 round_cap round_join source_over)
       None)
  = "#0e9c4b-1".
Proof.
  assert (F : Num.floor (-1 / 255 * 255) = (-1)%Z)
    by (apply NumFacts.floor_unique; simpl; lra).
  unfold strokeStyle, strokeStyle_of. simpl bconfigs. simpl alpha.
  rewrite F. reflexivity.
Qed.

End StrokeStyleFacts.

(** ** Capturing a stroke *)

Module StrokeFacts.

Import Brush StrokeSpec.

Lemma at_index_app_last {A : Type} (l : list A) (a : A) :
  at_index (l ++ [a]) (Z.of_nat (List.length (l ++ [a])) - 1) = Some a.
Proof.
  unfold at_index. rewrite length_app. simpl List.length.
  destruct (Z.ltb_spec (Z.of_nat (List.length l + 1) - 1) 0); [lia |].
  replace (Z.to_nat (Z.of_nat (List.length l + 1) - 1)) with (List.length l) by lia.
  rewrite nth_error_app2 by lia. rewrite Nat.sub_diag. reflexivity.
Qed.

Lemma at_index_some {A : Type} (l : list A) (i : Z) :
  (0 <= i < Z.of_nat (List.length l))%Z -> exists a, at_index l i = Some a.
Proof.
  intros Hi. unfold at_index.
  destruct (Z.ltb_spec i 0); [lia |].
  destruct (nth_error l (Z.to_nat i)) as [a |] eqn:E; [now exists a |].
  apply nth_error_None in E. lia.
Qed.

Lemma current_some (h : BrushHistory) :
  (1 <= count h)%nat -> exists p, current h = Some p.
Proof. intros H. apply at_index_some. unfold count in *. lia. Qed.

Lemma prev_some (h : BrushHistory) :
  (2 <= count h)%nat -> exists p, prev h = Some p.
Proof. intros H. apply at_index_some. unfold count in *. lia. Qed.

Lemma early_some (h : BrushHistory) :
  (3 <= count h)%nat -> exists p, early h = Some p.
Proof. intros H. apply at_index_some. unfold count in *. lia. Qed.

Lemma current_addPoint (h : BrushHistory) (p : TimePoint) :
  current (addPoint h p) = Some p.
Proof. unfold current, count, addPoint. simpl. apply at_index_app_last. Qed.

Lemma count_addPoint (h : BrushHistory) (p : TimePoint) :
  count (addPoint h p) = S (count h).
Proof. unfold count, addPoint. simpl. rewrite length_app. simpl. lia. Qed.

Lemma valid_count (h : BrushHistory) : valid h = true <-> (2 < count h)%nat.
Proof. unfold valid. apply Nat.ltb_lt. Qed.

Lemma distance_sym (p o : TimePoint) : distance p o = distance o p.
Proof. unfold distance. f_equal. ring. Qed.

Lemma canDraw_minTravel (b : Brush) (last p : TimePoint) :
  canDraw b last p = true <-> minTravel b <= distance last p.
Proof.
  unfold canDraw, minTravel, strokeSize. rewrite (distance_sym last p).
  destruct (type (bconfigs b)); apply NumFacts.leb_le.
Qed.

(** Once a stroke is under way, [drawMove] does not throw, and leaves the
    brush with the stroke, extended by the point or as it was. *)
Lemma drawMove_total (b : Brush) (canvas : Canvas) (h : BrushHistory)
  (p : TimePoint) :
  _history b = Some h ->
  exists canvas' h',
    drawMove p b canvas = Some (mkBrush (bconfigs b) (Some h'), canvas')
    /\ configs h' = configs h
    /\ (points h' = points h ++ [p] \/ (points h' = points h /\ canvas' = canvas)).
Proof.
  intros Hh. unfold drawMove. rewrite Hh.
  assert (Hb : b = mkBrush (bconfigs b) (Some h)) by (destruct b; simpl in *; congruence).
  assert (Hadd : forall c,
    exists canvas' h',
      (if negb (valid (addPoint h p))
       then Some (mkBrush (bconfigs b) (Some (addPoint h p)), c)
       else
         e <- early (addPoint h p) ;;
         q <- prev (addPoint h p) ;;
         c0 <- current (addPoint h p) ;;
         Some (mkBrush (bconfigs b) (Some (addPoint h p)),
               draw (mkBrush (bconfigs b) (Some (addPoint h p))) c e q c0))
      = Some (mkBrush (bconfigs b) (Some h'), canvas')
      /\ configs h' = configs h
      /\ (points h' = points h ++ [p] \/ (points h' = points h /\ canvas' = c))).
  { intros c. destruct (valid (addPoint h p)) eqn:V; simpl negb; cbv iota.
    - apply valid_count in V.
      destruct (early_some (addPoint h p)) as [e ->]; [lia |].
      destruct (prev_some (addPoint h p)) as [q ->]; [lia |].
      rewrite current_addPoint.
      eexists _, (addPoint h p). split; [reflexivity |]. split; [reflexivity |].
      left. reflexivity.
    - eexists _, (addPoint h p). split; [reflexivity |]. split; [reflexivity |].
      left. reflexivity. }
  destruct (Nat.ltb_spec 1 (count h)) as [Hc | Hc].
  - destruct (current_some h) as [cur ->]; [lia |].
    destruct (canDraw b cur p); simpl negb; cbv iota.
    + apply Hadd.
    + exists canvas, h. split; [congruence |]. split; [reflexivity |].
      right. split; reflexivity.
  - apply Hadd.
Qed.

(** C6: with a stroke under way, [drawMove(p)] appends [p] exactly when
    the stroke has fewer than two points or [p] is at least
    [max(size/4, 2)] (marking brush) or [max(size/8, 2)] (eraser) away from
    the last point; a point that is refused leaves the points, and the
    canvas, as they were. *)
Theorem drawMove_appends_iff (b : Brush) (canvas : Canvas) (h : BrushHistory)
  (p : TimePoint) :
  _history b = Some h ->
  exists b' canvas' h',
    drawMove p b canvas = Some (b', canvas')
    /\ _history b' = Some h'
    /\ (points h' = points h ++ [p] <-> accepts b h p)
    /\ (~ accepts b h p -> points h' = points h /\ canvas' = canvas).
Proof.
  intros Hh.
  assert (Hneq : forall l : list TimePoint, l <> l ++ [p]).
  { intros l E. apply (f_equal (@List.length _)) in E.
    rewrite length_app in E. simpl in E. lia. }
  unfold drawMove. rewrite Hh.
  destruct (Nat.ltb_spec 1 (count h)) as [Hc | Hc].
  - destruct (current_some h) as [cur Hcur]; [lia |]. rewrite Hcur.
    destruct (canDraw b cur p) eqn:Ecan; simpl negb; cbv iota.
    + destruct (drawMove_total b canvas h p Hh) as (canvas' & h' & Hrun & _ & _).
      unfold drawMove in Hrun. rewrite Hh in Hrun.
      destruct (Nat.ltb_spec 1 (count h)); [| lia].
      rewrite Hcur, Ecan in Hrun. simpl negb in Hrun. cbv iota in Hrun.
      assert (Hacc : accepts b h p).
      { right. exists cur. split; [assumption |]. now apply canDraw_minTravel. }
      destruct (valid (addPoint h p)) eqn:V; simpl negb in *; cbv iota in *.
      * destruct (early (addPoint h p)); [| discriminate].
        destruct (prev (addPoint h p)); [| discriminate].
        destruct (current (addPoint h p)); [| discriminate].
        eexists _, _, (addPoint h p). split; [reflexivity |].
        split; [reflexivity |]. split; [| contradiction].
        split; [intros _; assumption | reflexivity].
      * eexists _, _, (addPoint h p). split; [reflexivity |].
        split; [reflexivity |]. split; [| contradiction].
        split; [intros _; assumption | reflexivity].
    + assert (Hrej : ~ accepts b h p).
      { intros [Hlt | (last & Hlast & Hd)]; [lia |].
        rewrite Hcur in Hlast. injection Hlast as <-.
        apply canDraw_minTravel in Hd. congruence. }
      exists b, canvas, h. split; [reflexivity |]. split; [assumption |].
      split; [| intros _; split; reflexivity].
      split; [intros E; exfalso; exact (Hneq _ E) | contradiction].
  - assert (Hacc : accepts b h p) by (left; lia).
    assert (V : valid (addPoint h p) = false).
    { unfold valid. rewrite count_addPoint. apply Nat.ltb_ge. lia. }
    rewrite V. simpl negb. cbv iota.
    eexists _, _, (addPoint h p). split; [reflexivity |].
    split; [reflexivity |]. split; [| contradiction].
    split; [intros _; assumption | reflexivity].
Qed.

Lemma drawMove_appends_iff_witness :
  let p0 := mkTimePoint 10 10 0 in
  let p1 := mkTimePoint 12 11 1 in
  exists b' canvas' h',
    drawMove p1 (drawDown p0 (MarkingBrush_default None)) [] = Some (b', canvas')
    /\ _history b' = Some h'
    /\ points h' = [p0; p1].
Proof.
  intros p0 p1.
  destruct (drawMove_appends_iff (drawDown p0 (MarkingBrush_default None)) []
              (addPoint (mkHistory (toConfigs (MarkingBrush_default None)) []) p0)
              p1 eq_refl)
    as (b' & canvas' & h' & Hrun & Hh & Hiff & _).
  exists b', canvas', h'. split; [exact Hrun |]. split; [exact Hh |].
  apply Hiff. left. unfold count, addPoint. simpl. lia.
Defined.

End StrokeFacts.

(** ** The history of strokes *)

(** Takes apart a hypothesis that says a handler returned. *)
Ltac inv_some H :=
  repeat match type of H with
    | match ?c with Some _ => _ | None => None end = Some _ =>
        let E := fresh "E" in destruct c eqn:E; [| discriminate H]
    | (if ?c then _ else _) = Some _ =>
        let E := fresh "E" in destruct c eqn:E
    | (let (_, _) := ?c in _) = Some _ =>
        let E := fresh "E" in destruct c eqn:E
    | None = Some _ => discriminate H
    end.

Module HistoryFacts.

Import Dom Paper HistorySpec.

Lemma pop_app {A : Type} (l : list A) (a : A) : pop (l ++ [a]) = (Some a, l).
Proof. unfold pop. rewrite rev_app_distr. simpl. now rewrite rev_involutive. Qed.

Lemma nonempty_last {A : Type} (l : list A) :
  l <> [] -> exists l' a, l = l' ++ [a].
Proof. intros H. destruct (exists_last H) as (l' & a & ->). now exists l', a. Qed.

Lemma app_last_neq {A : Type} (l : list A) (a : A) : l ++ [a] <> l.
Proof.
  intros E. apply (f_equal (@List.length _)) in E.
  rewrite length_app in E. simpl in E. lia.
Qed.

(** C3: on a non-empty committed stack, [undo()] and then [redo()] both
    return [true] and leave the committed stack, and the redo stack, as
    they were before. *)
Theorem undo_redo_restores (p : Paper) :
  histories p <> [] ->
  let (r1, p1) := undo p in
  let (r2, p2) := redo p1 in
  r1 = true /\ r2 = true
  /\ histories p2 = histories p /\ redoHistories p2 = redoHistories p.
Proof.
  intros Hne. destruct (nonempty_last _ Hne) as (l & a & Hl).
  unfold undo, canUndo. rewrite Hl, length_app. simpl List.length.
  replace (0 <? List.length l + 1)%nat with true
    by (symmetry; apply Nat.ltb_lt; lia).
  simpl negb. cbv iota. rewrite pop_app.
  unfold redo, canRedo. simpl redoHistories. rewrite length_app.
  simpl List.length.
  replace (0 <? List.length (redoHistories p) + 1)%nat with true
    by (symmetry; apply Nat.ltb_lt; lia).
  simpl negb. cbv iota. rewrite pop_app. simpl.
  repeat split; reflexivity.
Qed.

(** *** A draw gesture *)

Lemma touchStart_draw (event : TouchEvent) (rect : DOMRect) (time : Z)
  (p p' : Paper) :
  List.length (targetTouches event) = 1%nat ->
  Animation.animating (animCtrl p) = false ->
  onTouchStartProxy event rect time p = Some p' ->
  workMode p' = 1%nat
  /\ (exists h, Brush._history (brush p') = Some h /\ Brush.count h = 1%nat)
  /\ histories p' = histories p /\ redoHistories p' = redoHistories p.
Proof.
  intros Hlen Hanim H. unfold onTouchStartProxy in H.
  rewrite Hlen, Hanim in H. simpl in H.
  inv_some H. injection H as <-. simpl.
  split; [reflexivity |]. split; [| split; reflexivity].
  eexists. split; reflexivity.
Qed.

Lemma touchMove_draw (event : TouchEvent) (rect : DOMRect) (time : Z)
  (p p' : Paper) (h : Brush.BrushHistory) :
  workMode p = 1%nat ->
  Brush._history (brush p) = Some h ->
  onTouchMoveProxy event rect time p = Some p' ->
  workMode p' = 1%nat
  /\ (exists h', Brush._history (brush p') = Some h')
  /\ histories p' = histories p /\ redoHistories p' = redoHistories p.
Proof.
  intros Hmode Hh H. unfold onTouchMoveProxy in H.
  rewrite Hmode in H. simpl in H.
  inv_some H. injection H as <-. simpl.
  split; [assumption |]. split; [| split; reflexivity].
  match goal with E : Brush.drawMove ?pt _ _ = Some _ |- _ =>
    destruct (StrokeFacts.drawMove_total (brush p) (canvas p) h pt Hh)
      as (c' & h' & Hrun & _); rewrite Hrun in E; injection E as <-
  end.
  now exists h'.
Qed.

Lemma touchMoves_draw (moves : list (TouchEvent * DOMRect * Z)) :
  forall (p p' : Paper) (h : Brush.BrushHistory),
  workMode p = 1%nat ->
  Brush._history (brush p) = Some h ->
  run (map (fun m => TouchMove (fst (fst m)) (snd (fst m)) (snd m)) moves) p
    = Some p' ->
  workMode p' = 1%nat
  /\ (exists h', Brush._history (brush p') = Some h')
  /\ histories p' = histories p /\ redoHistories p' = redoHistories p.
Proof.
  induction moves as [| m moves IH]; intros p p' h Hmode Hh H.
  - injection H as <-. split; [assumption |]. split; [now exists h |].
    split; reflexivity.
  - simpl in H. inv_some H.
    match goal with E : onTouchMoveProxy _ _ _ p = Some ?q |- _ =>
      destruct (touchMove_draw _ _ _ _ _ _ Hmode Hh E)
        as (Hmode' & (h' & Hh') & Hs & Hr)
    end.
    destruct (IH _ _ _ Hmode' Hh' H) as (? & ? & Hs2 & Hr2).
    split; [assumption |]. split; [assumption |]. split; congruence.
Qed.

(** Touch-up while drawing: whatever stroke the brush holds is committed. *)
Lemma touchEnd_draw (event : TouchEvent) (rect : DOMRect) (now : R)
  (p : Paper) (h : Brush.BrushHistory) :
  workMode p = 1%nat ->
  Brush._history (brush p) = Some h ->
  exists p' h',
    onTouchEndProxy event rect now p = Some p'
    /\ histories p' = histories p ++ [h']
    /\ redoHistories p' = []
    /\ (Brush.valid h = false -> h' = h).
Proof.
  intros Hmode Hh. unfold onTouchEndProxy. rewrite Hmode. simpl.
  unfold Brush.drawUp. rewrite Hh.
  destruct (Brush.valid h) eqn:V; simpl negb; cbv iota.
  - apply StrokeFacts.valid_count in V.
    destruct (StrokeFacts.current_some h) as [cur ->]; [lia |].
    assert (V' : (3 <= Brush.count (Brush.addPoint h cur))%nat)
      by (rewrite StrokeFacts.count_addPoint; lia).
    destruct (StrokeFacts.early_some (Brush.addPoint h cur)) as [e ->]; [lia |].
    destruct (StrokeFacts.prev_some (Brush.addPoint h cur)) as [q ->]; [lia |].
    rewrite StrokeFacts.current_addPoint. simpl.
    eexists _, _. split; [reflexivity |]. simpl.
    split; [reflexivity |]. split; [reflexivity | discriminate].
  - simpl. rewrite Hh.
    eexists _, _. split; [reflexivity |]. simpl.
    split; [reflexivity |]. split; [reflexivity | reflexivity].
Qed.

(** *** Every event *)

Lemma animateTo_histories ex ey es maxDuration lost now p :
  histories (animateTo ex ey es maxDuration lost now p) = histories p
  /\ redoHistories (animateTo ex ey es maxDuration lost now p) = redoHistories p.
Proof.
  unfold animateTo.
  destruct (Num.leb _ 0); [split; reflexivity |].
  destruct (Num.ltb _ 16); split; reflexivity.
Qed.

Lemma touchEnd_histories (event : TouchEvent) (rect : DOMRect) (now : R)
  (p p' : Paper) :
  onTouchEndProxy event rect now p = Some p' ->
  (histories p' = histories p /\ redoHistories p' = redoHistories p)
  \/ (exists h, histories p' = histories p ++ [h] /\ redoHistories p' = []).
Proof.
  intros H. unfold onTouchEndProxy in H.
  destruct (workMode p =? 0)%nat; [injection H as <-; left; split; reflexivity |].
  destruct (workMode p =? 1)%nat.
  - inv_some H. unfold Brush.cleanHistory in *.
    match goal with E : (_, _) = (_, _) |- _ => injection E as <- <- end.
    destruct (Brush._history (fst _)) as [h |]; injection H as <-.
    + right. exists h. split; reflexivity.
    + left. split; reflexivity.
  - left. unfold overBound in H. inv_some H; try (injection H as <-; split; reflexivity).
    destruct p0 as [[ex ey] es]. injection H as <-.
    apply animateTo_histories.
Qed.

Lemma same_rest_refl p : same_rest p p.
Proof. repeat split. Qed.

Lemma touchMove_same (event : TouchEvent) (rect : DOMRect) (time : Z)
  (p p' : Paper) :
  onTouchMoveProxy event rect time p = Some p' ->
  same_rest p p' /\ workMode p' = workMode p.
Proof.
  intros H. unfold onTouchMoveProxy in H.
  destruct (workMode p =? 0)%nat;
    [injection H as <-; split; [apply same_rest_refl | reflexivity] |].
  destruct (workMode p =? 1)%nat.
  - inv_some H. injection H as <-. repeat split.
  - destruct (computeFocus event rect) as [focus |]; [| discriminate].
    match type of H with
    | match ?c with Some _ => _ | None => None end = Some _ =>
        destruct c as [[[updated delta] q] |] eqn:Es; [| discriminate]
    end.
    assert (Hq : same_rest p q /\ workMode q = workMode p).
    { inv_some Es; injection Es as <- <- <-; repeat split. }
    injection H as <-.
    destruct Hq as [(H1 & H2 & H3 & H4 & H5) H6].
    destruct (updated || _); simpl; repeat split; assumption.
Qed.

Lemma touchStart_same (event : TouchEvent) (rect : DOMRect) (time : Z)
  (p p' : Paper) :
  onTouchStartProxy event rect time p = Some p' -> same_rest p p'.
Proof.
  intros H. unfold onTouchStartProxy, cleanCurrentDraw, Brush.cleanHistory in H.
  inv_some H; injection H as <-; try (repeat split; fail);
    destruct (Brush._history (brush p)); repeat split.
Qed.

Lemma loadSizeAndPosition_same (p p' : Paper) :
  loadSizeAndPosition p = Some p' ->
  same_rest p p' /\ workMode p' = workMode p
  /\ Position.scale (position p') = Position.scale (position p).
Proof.
  intros H. unfold loadSizeAndPosition in H.
  destruct (Num.div (offsetWidth (root p)) _); [| discriminate].
  destruct (Num.div (width p) _); [| discriminate].
  match type of H with
  | match ?c with Some _ => _ | None => None end = Some _ =>
      destruct c as [[ow oh] |]; [| discriminate]
  end.
  inv_some H. injection H as <-. repeat split.
Qed.

Lemma step_change (ev : Event) (p p' : Paper) :
  step ev p = Some p' -> HistorySpec.change p p' ev.
Proof.
  destruct ev; simpl; intros H.
  - apply touchStart_same in H. destruct H as (? & ? & _).
    now apply HistorySpec.unchanged.
  - apply touchMove_same in H. destruct H as [(? & ? & _) _].
    now apply HistorySpec.unchanged.
  - destruct (touchEnd_histories _ _ _ _ _ H) as [[? ?] | (h & ? & ?)].
    + now apply HistorySpec.unchanged.
    + now apply (HistorySpec.committed_end _ _ _ _ _ h).
  - destruct (touchEnd_histories _ _ _ _ _ H) as [[? ?] | (h & ? & ?)].
    + now apply HistorySpec.unchanged.
    + now apply (HistorySpec.committed_cancel _ _ _ _ _ h).
  - unfold onResize in H. inv_some H. injection H as <-.
    match goal with E : loadSizeAndPosition _ = Some _ |- _ =>
      apply loadSizeAndPosition_same in E; destruct E as [(? & ? & _) _]
    end.
    now apply HistorySpec.unchanged.
  - apply HistorySpec.unchanged; unfold animationFrame in H;
      destruct (Animation.pending (animCtrl p)); inv_some H;
      injection H as <-; reflexivity.
  - injection H as <-. unfold undo.
    destruct (canUndo p); simpl negb; cbv iota;
      [| now apply HistorySpec.unchanged].
    destruct (rev (histories p)) as [| item rest] eqn:E; unfold pop; rewrite E.
    + now apply HistorySpec.unchanged.
    + apply (HistorySpec.undone _ _ item); simpl; [| reflexivity].
      rewrite <- (rev_involutive (histories p)), E. reflexivity.
  - injection H as <-. unfold redo.
    destruct (canRedo p); simpl negb; cbv iota;
      [| now apply HistorySpec.unchanged].
    destruct (rev (redoHistories p)) as [| item rest] eqn:E; unfold pop; rewrite E.
    + now apply HistorySpec.unchanged.
    + apply (HistorySpec.redone _ _ item); simpl; [reflexivity |].
      rewrite <- (rev_involutive (redoHistories p)), E. reflexivity.
  - injection H as <-. unfold fitCenter.
    apply HistorySpec.unchanged.
    + exact (proj1 (animateTo_histories 0 0 1 200 false now
                      (set_animCtrl (Animation.reset (animCtrl p)) p))).
    + exact (proj2 (animateTo_histories 0 0 1 200 false now
                      (set_animCtrl (Animation.reset (animCtrl p)) p))).
  - injection H as <-. now apply HistorySpec.unchanged.
Qed.

Lemma run_app (evs1 evs2 : list Event) : forall p,
  run (evs1 ++ evs2) p = (q <- run evs1 p ;; run evs2 q).
Proof.
  induction evs1 as [| ev evs1 IH]; intros p; simpl; [reflexivity |].
  destruct (step ev p); [apply IH | reflexivity].
Qed.

(** C5: an event other than a redo that pushes a stroke onto the committed
    stack leaves the redo stack empty; in particular, after a draw gesture
    (one finger down while no animation runs, any moves, finger up),
    whatever was undone before, [canRedo] is false. *)
Theorem commit_clears_redo :
  (forall ev p p' h,
     step ev p = Some p' -> ev <> Redo ->
     histories p' = histories p ++ [h] -> redoHistories p' = [])
  /\
  (forall down rect0 time0 moves up rect1 now p p',
     List.length (targetTouches down) = 1%nat ->
     Animation.animating (animCtrl p) = false ->
     run (TouchStart down rect0 time0
          :: map (fun m => TouchMove (fst (fst m)) (snd (fst m)) (snd m)) moves
          ++ [TouchEnd up rect1 now]) p = Some p' ->
     canRedo p' = false /\ exists h, histories p' = histories p ++ [h]).
Proof.
  split.
  - intros ev p p' h Hstep Hev Hpush.
    destruct (step_change _ _ _ Hstep) as [ev Hh Hr | | | h0 Hh Hr |].
    + rewrite Hh in Hpush. symmetry in Hpush. now apply app_last_neq in Hpush.
    + assumption.
    + assumption.
    + rewrite Hpush in Hh. apply (f_equal (@List.length _)) in Hh.
      rewrite !length_app in Hh. simpl in Hh. lia.
    + contradiction.
  - intros down rect0 time0 moves up rect1 now p p' Hlen Hanim Hrun.
    simpl in Hrun.
    destruct (onTouchStartProxy down rect0 time0 p) as [p1 |] eqn:E1;
      [| discriminate].
    rewrite run_app in Hrun.
    destruct (run (map _ moves) p1) as [p2 |] eqn:E2; [| discriminate].
    simpl in Hrun.
    destruct (onTouchEndProxy up rect1 now p2) as [p3 |] eqn:E3;
      [| discriminate].
    injection Hrun as <-.
    destruct (touchStart_draw _ _ _ _ _ Hlen Hanim E1)
      as (Hm1 & (h1 & Hh1 & _) & Hs1 & _).
    destruct (touchMoves_draw _ _ _ _ Hm1 Hh1 E2) as (Hm2 & (h2 & Hh2) & Hs2 & _).
    destruct (touchEnd_draw up rect1 now p2 h2 Hm2 Hh2)
      as (q & h' & Hq & Hs3 & Hr3 & _).
    rewrite Hq in E3. injection E3 as <-.
    split.
    + unfold canRedo. rewrite Hr3. reflexivity.
    + exists h'. congruence.
Qed.

End HistoryFacts.

(** ** The animation controller *)

Module AnimationFacts.

Import Animation Invariant.

Lemma wf_create (m : R) : wf_controller m create.
Proof. repeat split; simpl; constructor. Qed.

Lemma id_cancel i h : id (cancel i h) = id h.
Proof. unfold cancel. destruct (id h =? i)%nat; reflexivity. Qed.

Lemma map_id_cancel i l : map id (map (cancel i) l) = map id l.
Proof.
  induction l as [| h l IH]; simpl; [reflexivity |].
  now rewrite id_cancel, IH.
Qed.

Lemma canceled_cancel_mono i h : canceled h = true -> canceled (cancel i h) = true.
Proof. unfold cancel. destruct (id h =? i)%nat; auto. Qed.

Lemma wf_reset (m : R) (c : AnimationController) :
  wf_controller m c -> wf_controller m (reset c) /\ holder (reset c) = None.
Proof.
  intros (Hfresh & Hnodup & Hsched). unfold reset.
  destruct (holder c) as [i |] eqn:Eh.
  - split; [| reflexivity]. repeat split; simpl.
    + apply Forall_map. eapply Forall_impl; [| exact Hfresh].
      intros h Hh. now rewrite id_cancel.
    + now rewrite map_id_cancel.
    + unfold scheduled in *. rewrite Eh in Hsched. simpl.
      destruct Hsched as (old & h & Hp & Hid & _ & Hold).
      rewrite Hp, map_app. apply Forall_app. split.
      * apply Forall_map. eapply Forall_impl; [| exact Hold].
        intros h0. apply canceled_cancel_mono.
      * simpl. constructor; [| constructor].
        unfold cancel. rewrite Hid, Nat.eqb_refl. reflexivity.
  - split; [| assumption]. repeat split; assumption.
Qed.

Lemma wf_execute (m duration now : R) (fcb : AnimationCallback)
  (xcb : option AnimationCallback) (c : AnimationController) :
  wf_controller m c ->
  16 <= duration ->
  (forall pos, 1 <= Position.scale (fcb 1 pos) <= m) ->
  wf_controller m (execute duration fcb None xcb now c).
Proof.
  intros (Hfresh & Hnodup & Hsched) Hd Hlands. unfold execute, animating.
  destruct (holder c) as [i |] eqn:Eh; [repeat split; assumption |].
  unfold scheduled in Hsched. rewrite Eh in Hsched.
  repeat split; simpl.
  - apply Forall_app. split.
    + eapply Forall_impl; [| exact Hfresh]. intros h Hh. simpl in Hh. lia.
    + constructor; [simpl; lia | constructor].
  - rewrite map_app. simpl.
    apply NoDup_app; [assumption | constructor; [intros [] | constructor] |].
    intros a Ha [Hb | []]. subst a.
    apply in_map_iff in Ha. destruct Ha as (h & Hid & Hin).
    rewrite Forall_forall in Hfresh. specialize (Hfresh h Hin). lia.
  - unfold scheduled. simpl. eexists _, _. split; [reflexivity |].
    split; [reflexivity |]. split; [| assumption].
    split; [reflexivity |]. split; [assumption |].
    split; [reflexivity | exact Hlands].
Qed.

(** With an animation live, [execute] changes nothing. *)
Lemma execute_animating duration fcb ccb xcb now c :
  animating c = true -> execute duration fcb ccb xcb now c = c.
Proof. intros H. unfold execute. now rewrite H. Qed.

Lemma wf_frame (m now : R) (h : AnimationHolder) (rest : list AnimationHolder)
  (c : AnimationController) (pos pos' : Position.t) (c' : AnimationController) :
  wf_controller m c -> pending c = h :: rest ->
  frame now h (pos, mkController (holder c) rest (fresh c)) = Some (pos', c') ->
  wf_controller m c'.
Proof.
  intros (Hfresh & Hnodup & Hsched) Hp H.
  rewrite Hp in Hfresh, Hnodup. simpl in Hnodup.
  apply Forall_cons_iff in Hfresh. destruct Hfresh as [Hfh Hfrest].
  apply NoDup_cons_iff in Hnodup. destruct Hnodup as [Hnin Hnd].
  assert (Hclean :
    forall q, holder q = holder c -> pending q = rest -> fresh q = fresh c ->
      (canceled h = true \/ holder c = Some (id h)) -> 
      (holder c = Some (id h) -> rest = []) ->
      wf_controller m (cleanFinishAnimation h q)).
  { intros q Hq1 Hq2 Hq3 Hor Hlast. unfold cleanFinishAnimation. rewrite Hq1.
    unfold scheduled in Hsched.
    destruct (holder c) as [i |] eqn:Eh.
    - destruct (Nat.eqb_spec i (id h)) as [-> | Hne].
      + pose proof (Hlast eq_refl) as Hr. rewrite Hr in Hq2.
        repeat split; unfold scheduled; simpl; rewrite Hq2; constructor.
      + destruct Hor as [Hc | Hc]; [| congruence].
        repeat split; rewrite ?Hq2, ?Hq3; try assumption.
        unfold scheduled. rewrite Hq1, Hq2.
        destruct Hsched as (old & l & Hpl & Hid & Hlive & Hold).
        rewrite Hp in Hpl. destruct old as [| o old].
        * simpl in Hpl. injection Hpl as -> <-. congruence.
        * simpl in Hpl. injection Hpl as <- ->.
          apply Forall_cons_iff in Hold. destruct Hold as [_ Hold].
          exists old, l. repeat split; try assumption; apply Hlive.
    - repeat split; rewrite ?Hq2, ?Hq3; try assumption.
      unfold scheduled. rewrite Hq1, Hq2. rewrite Hp in Hsched.
      apply Forall_cons_iff in Hsched. apply Hsched. }
  assert (Hlive : holder c = Some (id h) ->
                  rest = [] /\ live m h).
  { intros Eh. unfold scheduled in Hsched. rewrite Eh in Hsched.
    destruct Hsched as (old & l & Hpl & Hid & Hlive & Hold).
    rewrite Hp in Hpl. destruct old as [| o old].
    - simpl in Hpl. injection Hpl as -> <-. split; [reflexivity | assumption].
    - simpl in Hpl. injection Hpl as <- ->. exfalso. apply Hnin.
      rewrite map_app. apply in_or_app. right. simpl. left. assumption. }
  assert (Hold : holder c <> Some (id h) -> canceled h = true).
  { intros Hne. unfold scheduled in Hsched.
    destruct (holder c) as [i |] eqn:Eh.
    - destruct Hsched as (old & l & Hpl & Hid & _ & Hold).
      rewrite Hp in Hpl. destruct old as [| o old].
      + simpl in Hpl. injection Hpl as E1 E2. subst l. congruence.
      + simpl in Hpl. injection Hpl as E1 E2. subst o.
        apply Forall_cons_iff in Hold. apply Hold.
    - rewrite Hp in Hsched. apply Forall_cons_iff in Hsched. apply Hsched. }
  unfold frame in H.
  destruct (Num.div (now - tick h) (duration h)) as [value |]; [| discriminate].
  destruct (Num.leb 1 value).
  - injection H as _ <-. apply Hclean; try reflexivity.
    + destruct (holder c) as [i |] eqn:Eh; [| left; apply Hold; discriminate].
      destruct (Nat.eq_dec i (id h)) as [-> | Hne]; [now right |].
      left. apply Hold. congruence.
    + intros Eh. apply Hlive. assumption.
  - destruct (canceled h) eqn:Ec.
    + injection H as _ <-. apply Hclean; try reflexivity; [now left |].
      intros Eh. apply Hlive. assumption.
    + injection H as _ <-.
      assert (Eh : holder c = Some (id h)).
      { destruct (holder c) as [i |] eqn:Eh.
        - destruct (Nat.eq_dec i (id h)) as [-> | Hne]; [reflexivity |].
          exfalso. assert (X : false = true) by (apply Hold; congruence).
          discriminate.
        - exfalso. assert (X : false = true) by (apply Hold; discriminate).
          discriminate. }
      destruct (Hlive Eh) as [-> Hl].
      repeat split; simpl.
      * constructor; [assumption | constructor].
      * constructor; [intros [] | constructor].
      * unfold scheduled. simpl. rewrite Eh.
        exists [], h. repeat split; try apply Hl. constructor.
Qed.

Lemma paced_create : paced create.
Proof. constructor. Qed.

Lemma duration_cancel i h : duration (cancel i h) = duration h.
Proof. unfold cancel. destruct (id h =? i)%nat; reflexivity. Qed.

Lemma paced_reset (c : AnimationController) : paced c -> paced (reset c).
Proof.
  unfold paced, reset. intros H. destruct (holder c); [| assumption]. simpl.
  apply Forall_map. eapply Forall_impl; [| exact H].
  intros h Hh. now rewrite duration_cancel.
Qed.

Lemma paced_execute duration fcb ccb xcb now c :
  paced c -> 16 <= duration -> paced (execute duration fcb ccb xcb now c).
Proof.
  unfold paced, execute. intros H Hd. destruct (animating c); [assumption |].
  simpl. apply Forall_app. split; [assumption |].
  constructor; [assumption | constructor].
Qed.

Lemma paced_frame (now : R) (h : AnimationHolder) (rest : list AnimationHolder)
  (c : AnimationController) (pos pos' : Position.t) (c' : AnimationController) :
  paced c -> pending c = h :: rest ->
  frame now h (pos, mkController (holder c) rest (fresh c)) = Some (pos', c') ->
  paced c'.
Proof.
  unfold paced. intros H Hp Hf. rewrite Hp in H.
  apply Forall_cons_iff in H. destruct H as [Hh Hrest].
  unfold frame in Hf.
  destruct (Num.div _ _) as [value |]; [| discriminate].
  assert (Hclean : forall q, pending q = rest ->
                     Forall (fun h => 16 <= duration h)
                       (pending (cleanFinishAnimation h q))).
  { intros q Hq. unfold cleanFinishAnimation.
    destruct (holder q) as [i |]; [| now rewrite Hq].
    destruct (i =? id h)%nat; simpl; now rewrite Hq. }
  destruct (Num.leb 1 value); [injection Hf as _ <-; now apply Hclean |].
  destruct (canceled h); injection Hf as _ <-; [now apply Hclean |].
  simpl. apply Forall_app. split; [assumption |].
  constructor; [assumption | constructor].
Qed.

End AnimationFacts.

(** ** The invariant of a Paper *)

Module InvFacts.

Import Dom Animation Paper HistorySpec Invariant.

Lemma clamp_maxScale (m : R) : 1.5 <= Num.clampNumber m 1.5 3 <= 3.
Proof. apply NumFacts.clampNumber_bounds. lra. Qed.

Lemma Inv_new root image maxScale brush history p :
  new root image maxScale brush history = Some p ->
  Inv p
  /\ Paper.maxScale p
     = Num.clampNumber (match maxScale with Some m => m | None => 2 end) 1.5 3.
Proof.
  intros H. unfold new in H.
  destruct (initImageAndCanvas image) as [[w h] |]; [| discriminate].
  match type of H with
  | match ?c with Some _ => _ | None => None end = Some _ =>
      destruct c as [q |] eqn:Eq; [| discriminate]
  end.
  apply HistoryFacts.loadSizeAndPosition_same in Eq.
  destruct Eq as [(_ & _ & Hc & Hm & _) _]. simpl in Hc, Hm.
  injection H as <-.
  assert (X : Inv q).
  { split; [rewrite Hm; apply clamp_maxScale |].
    rewrite Hc. split; [apply AnimationFacts.wf_create |].
    apply AnimationFacts.paced_create. }
  destruct history as [hs |]; [| split; [exact X | exact Hm]].
  destruct (negb _ || negb _); split; try exact X; exact Hm.
Qed.

Lemma lerp_lands sx sy ss ex ey es (pos : Position.t) :
  Position.scale (lerp sx sy ss ex ey es 1 pos) = es.
Proof. unfold lerp. simpl. ring. Qed.

Lemma Inv_animateTo ex ey es maxDuration lost now p :
  Inv p -> 1 <= es <= maxScale p ->
  Inv (animateTo ex ey es maxDuration lost now p)
  /\ maxScale (animateTo ex ey es maxDuration lost now p) = maxScale p.
Proof.
  intros HI Hes. pose proof HI as (Hm & Hwf & Hp). unfold animateTo.
  destruct (Num.leb _ 0); [split; [exact HI | reflexivity] |].
  destruct (Num.ltb _ 16) eqn:E16; [split; [exact HI | reflexivity] |].
  apply NumFacts.ltb_ge in E16.
  split; [| reflexivity]. split; [assumption |]. simpl. split.
  - apply AnimationFacts.wf_execute; [assumption | assumption |].
    intros pos. rewrite lerp_lands. assumption.
  - now apply AnimationFacts.paced_execute.
Qed.

Lemma overBoundTarget_range p ex ey es :
  1.5 <= maxScale p <= 3 ->
  overBoundTarget p = Some (ex, ey, es) -> 1 <= es <= maxScale p.
Proof.
  intros Hm H. unfold overBoundTarget in H.
  destruct (Num.leb _ 1); [injection H as _ _ <-; lra |].
  destruct (Num.div _ _); [| discriminate].
  injection H as _ _ <-. apply NumFacts.clampNumber_bounds. lra.
Qed.

Lemma Inv_overBound now p p' :
  Inv p -> overBound now p = Some p' -> Inv p' /\ maxScale p' = maxScale p.
Proof.
  intros HI H. unfold overBound in H.
  destruct (overBoundTarget p) as [[[ex ey] es] |] eqn:Et; [| discriminate].
  injection H as <-. apply Inv_animateTo; [assumption |].
  eapply overBoundTarget_range; [apply HI | exact Et].
Qed.

Lemma Inv_same p p' : Inv p -> same_rest p p' -> Inv p'.
Proof.
  intros (Hm & Hwf & Hp) (_ & _ & Hc & Hmax & _).
  unfold Inv. rewrite Hc, Hmax. exact (conj Hm (conj Hwf Hp)).
Qed.

Lemma Inv_touchEnd event rect now p p' :
  Inv p -> onTouchEndProxy event rect now p = Some p' ->
  Inv p' /\ maxScale p' = maxScale p.
Proof.
  intros HI H. unfold onTouchEndProxy in H.
  destruct (workMode p =? 0)%nat; [injection H as <-; now split |].
  destruct (workMode p =? 1)%nat.
  - inv_some H. unfold Brush.cleanHistory in *.
    match goal with E : (_, _) = (_, _) |- _ => injection E as <- <- end.
    destruct (Brush._history (fst _)); injection H as <-; now split.
  - destruct (1 <? _)%nat; [inv_some H; injection H as <-; now split |].
    destruct (0 <? _)%nat; [inv_some H; injection H as <-; now split |].
    now apply (Inv_overBound now).
Qed.

Lemma Inv_animationFrame now p p' :
  Inv p -> animationFrame now p = Some p' ->
  Inv p' /\ maxScale p' = maxScale p.
Proof.
  intros HI H. pose proof HI as (Hm & Hwf & Hp). unfold animationFrame in H.
  destruct (pending (animCtrl p)) as [| h rest] eqn:Ep;
    [injection H as <-; split; [exact HI | reflexivity] |].
  destruct (frame now h _) as [[pos' c'] |] eqn:Ef; [| discriminate].
  injection H as <-. split; [| reflexivity]. split; [assumption |]. simpl.
  split.
  - eapply AnimationFacts.wf_frame; [exact Hwf | exact Ep | exact Ef].
  - eapply AnimationFacts.paced_frame; [exact Hp | exact Ep | exact Ef].
Qed.

Lemma Inv_step ev p p' :
  Inv p -> step ev p = Some p' -> Inv p' /\ maxScale p' = maxScale p.
Proof.
  intros HI H. destruct ev; simpl in H.
  - apply HistoryFacts.touchStart_same in H.
    split; [now apply (Inv_same p) | apply H].
  - apply HistoryFacts.touchMove_same in H. destruct H as [H _].
    split; [now apply (Inv_same p) | apply H].
  - now apply (Inv_touchEnd event rect now).
  - now apply (Inv_touchEnd event rect now).
  - unfold onResize in H. inv_some H. injection H as <-.
    match goal with E : loadSizeAndPosition _ = Some _ |- _ =>
      apply HistoryFacts.loadSizeAndPosition_same in E;
      destruct E as [(_ & _ & Hc & Hm & _) _]
    end.
    simpl in *. destruct HI as (H1 & H2 & H3).
    split; [| exact Hm]. unfold Inv. simpl. rewrite Hc, Hm.
    exact (conj H1 (conj H2 H3)).
  - now apply (Inv_animationFrame now).
  - injection H as <-. unfold undo.
    destruct (negb (canUndo p)); [now split |].
    destruct (pop (histories p)) as [[item |] rest]; now split.
  - injection H as <-. unfold redo.
    destruct (negb (canRedo p)); [now split |].
    destruct (pop (redoHistories p)) as [[item |] rest]; now split.
  - injection H as <-. unfold fitCenter.
    destruct HI as (Hm & Hwf & Hp).
    destruct (Inv_animateTo 0 0 1 200 false now
                (set_animCtrl (reset (animCtrl p)) p)) as [A B].
    + split; [assumption |]. simpl.
      split; [now apply AnimationFacts.wf_reset
             | now apply AnimationFacts.paced_reset].
    + simpl. lra.
    + split; [exact A | exact B].
  - injection H as <-. now split.
Qed.

Lemma Inv_run evs : forall p p',
  Inv p -> run evs p = Some p' -> Inv p' /\ maxScale p' = maxScale p.
Proof.
  induction evs as [| ev evs IH]; intros p p' HI H; simpl in H.
  - injection H as <-. now split.
  - destruct (step ev p) as [q |] eqn:E; [| discriminate].
    destruct (Inv_step _ _ _ HI E) as [HI' Hm].
    destruct (IH _ _ HI' H) as [HI'' Hm']. split; [assumption | congruence].
Qed.

Lemma Inv_reachable p : reachable p -> Inv p.
Proof.
  induction 1 as [root image maxScale brush history p H | ev p p' _ IH H].
  - now apply Inv_new in H.
  - now apply (Inv_step ev p).
Qed.

End InvFacts.

(** ** The zoom after a gesture *)

Module ZoomFacts.

Import Dom Animation Paper HistorySpec Invariant.

#[local] Arguments frame : simpl never.

Lemma scheduled_live (p : Paper) :
  Inv p -> animating (animCtrl p) = true ->
  exists i old h,
    holder (animCtrl p) = Some i /\ pending (animCtrl p) = old ++ [h]
    /\ id h = i /\ live (maxScale p) h
    /\ Forall (fun o => canceled o = true /\ id o <> i /\ 16 <= duration o) old.
Proof.
  intros (_ & (_ & Hnodup & Hsched) & Hpaced) Ha.
  unfold animating in Ha. unfold scheduled in Hsched.
  destruct (holder (animCtrl p)) as [i |]; [| discriminate].
  destruct Hsched as (old & h & Hp & Hid & Hlive & Hold).
  exists i, old, h. repeat split; try assumption; try apply Hlive.
  unfold paced in Hpaced. rewrite Hp in Hnodup, Hpaced.
  apply Forall_app in Hpaced. destruct Hpaced as [Hpaced _].
  rewrite Forall_forall in *. intros o Ho. repeat split.
  - now apply Hold.
  - intros E. rewrite map_app in Hnodup. simpl in Hnodup.
    apply NoDup_remove_2 in Hnodup. apply Hnodup.
    rewrite app_nil_r. apply in_map_iff. exists o. split; [congruence | assumption].
  - now apply Hpaced.
Qed.

Lemma clamp_ge_1 value : 1 <= value -> Num.clampNumber value 0 1 = 1.
Proof. intros H. num_cases; lra. Qed.

(** The frame of a cancelled holder leaves the controller as it found it. *)
Lemma frame_old now o pos c :
  canceled o = true -> 16 <= duration o ->
  holder c <> Some (id o) ->
  exists pos', frame now o (pos, c) = Some (pos', c).
Proof.
  intros Hc Hd Hne. unfold frame.
  rewrite NumFacts.div_some by lra. rewrite Hc.
  assert (E : cleanFinishAnimation o c = c).
  { unfold cleanFinishAnimation. destruct (holder c) as [i |]; [| reflexivity].
    destruct (Nat.eqb_spec i (id o)); [congruence | reflexivity]. }
  rewrite E. destruct (Num.leb 1 _); eexists; reflexivity.
Qed.

(** The frame on which the live animation ends leaves the zoom within
    its bounds. *)
Lemma frame_lands (now : R) (p q : Paper) :
  Inv p -> animating (animCtrl p) = true ->
  animationFrame now p = Some q ->
  animating (animCtrl q) = false -> zoomBounded q.
Proof.
  intros HI Ha Hf Hq.
  destruct (scheduled_live p HI Ha) as (i & old & h & Hh & Hp & Hid & Hlive & Hold).
  unfold animationFrame in Hf. rewrite Hp, Hh in Hf.
  destruct old as [| o old]; simpl in Hf.
  - unfold frame in Hf.
    destruct (Num.div _ _) as [value |]; [| discriminate].
    destruct Hlive as (Hc & Hd & Hcc & Hl).
    destruct (Num.leb 1 value) eqn:Ev.
    + apply NumFacts.leb_le in Ev. rewrite (clamp_ge_1 _ Ev), Hcc in Hf.
      injection Hf as <-. unfold zoomBounded. simpl. apply Hl.
    + rewrite Hc in Hf. injection Hf as <-. simpl in Hq.
      unfold animating in Hq. simpl in Hq. discriminate.
  - apply Forall_cons_iff in Hold. destruct Hold as [(Hc & Hne & Hd) _].
    destruct (frame_old now o (position p)
                (mkController (Some i) (old ++ [h]) (fresh (animCtrl p))) Hc Hd)
      as [pos' E]; [simpl; congruence |].
    rewrite E in Hf. injection Hf as <-. discriminate.
Qed.

Lemma settle_bounded (times : list R) : forall p p',
  Inv p -> (animating (animCtrl p) = false -> zoomBounded p) ->
  settle times p = Some p' ->
  animating (animCtrl p') = false -> zoomBounded p'.
Proof.
  induction times as [| now times IH]; intros p p' HI Hidle H Hq; simpl in H.
  - injection H as <-. auto.
  - destruct (animating (animCtrl p)) eqn:Ha; [| injection H as <-; auto].
    destruct (animationFrame now p) as [q |] eqn:Ef; [| discriminate].
    apply (IH q p'); try assumption.
    + now apply (InvFacts.Inv_animationFrame now p).
    + now apply (frame_lands now p).
Qed.

(** Any live animation comes to its end. *)
Lemma settle_completes (p : Paper) :
  Inv p -> exists times p', settle times p = Some p' /\ animating (animCtrl p') = false.
Proof.
  intros HI. destruct (animating (animCtrl p)) eqn:Ha;
    [| exists [], p; split; [reflexivity | assumption]].
  destruct (scheduled_live p HI Ha) as (i & old & h & Hh & Hp & Hid & Hlive & Hold).
  clear HI. revert Hlive. generalize (maxScale p). intros m Hlive.
  revert p Ha Hh Hp.
  induction old as [| o old IH]; intros p Ha Hh Hp.
  - exists [tick h + duration h]. simpl. rewrite Ha. simpl in Hp.
    unfold animationFrame. rewrite Hp, Hh. unfold frame.
    destruct Hlive as (Hc & Hd & Hcc & Hl).
    rewrite NumFacts.div_some by lra.
    replace (tick h + duration h - tick h) with (duration h) by ring.
    replace (duration h / duration h) with 1 by (field; lra).
    rewrite (proj2 (NumFacts.leb_le 1 1)) by lra.
    eexists. split; [reflexivity |]. simpl.
    unfold cleanFinishAnimation, animating. simpl. rewrite Hid, Nat.eqb_refl.
    reflexivity.
  - apply Forall_cons_iff in Hold. destruct Hold as [(Hc & Hne & Hd) Hold].
    destruct (frame_old 0 o (position p)
                (mkController (Some i) (old ++ [h]) (fresh (animCtrl p))) Hc Hd)
      as [pos' E]; [simpl; congruence |].
    destruct (IH Hold
                (set_animCtrl
                   (mkController (Some i) (old ++ [h]) (fresh (animCtrl p)))
                   (set_position pos' p)))
      as (times & p' & Hs & Hq); try reflexivity.
    exists (0 :: times), p'. split; [| assumption].
    simpl. rewrite Ha. simpl in Hp.
    unfold animationFrame. rewrite Hp, Hh.
    rewrite E. exact Hs.
Qed.

Lemma overBound_total (now : R) (p : Paper) : exists p', overBound now p = Some p'.
Proof.
  unfold overBound, overBoundTarget.
  destruct (Num.leb _ 1) eqn:E; [eexists; reflexivity |].
  apply NumFacts.leb_gt in E.
  assert (Hs : Position.scale (position p) <> 0).
  { intros Hz. rewrite Hz in E. revert E. num_cases; lra. }
  rewrite NumFacts.div_some by assumption. eexists. reflexivity.
Qed.

Lemma animateDuration_zero ex ey es maxDuration p :
  0 < maxDuration -> animateDuration ex ey es maxDuration p <= 0 ->
  es = Position.scale (position p).
Proof.
  unfold animateDuration. intros Hm H.
  set (ds := Rabs (es - Position.scale (position p)) * 1000) in *.
  assert (Hds : ds <= 0).
  { pose proof (Rmax_r
                  (Num.clampNumber
                     (sqrt ((ex - Position.x (position p)) ^ 2
                            + (ey - Position.y (position p)) ^ 2) * 4)
                     0 maxDuration)
                  (Num.clampNumber ds 0 maxDuration)) as Hr.
    assert (Hc : Num.clampNumber ds 0 maxDuration <= 0) by lra.
    unfold Num.clampNumber in Hc.
    pose proof (Rmax_l ds 0) as Hl.
    unfold Rmin in Hc. destruct (Rle_dec (Rmax ds 0) maxDuration); lra. }
  unfold ds in Hds. pose proof (Rabs_pos (es - Position.scale (position p))).
  assert (Hz : Rabs (es - Position.scale (position p)) = 0) by lra.
  destruct (Req_dec (es - Position.scale (position p)) 0) as [E | E]; [lra |].
  apply Rabs_no_R0 in E. contradiction.
Qed.

(** An idle paper on which [animateTo] leaves no animation has the
    target zoom. *)
Lemma animateTo_idle ex ey es lost now p :
  animating (animCtrl (animateTo ex ey es 200 lost now p)) = false ->
  Position.scale (position (animateTo ex ey es 200 lost now p)) = es.
Proof.
  unfold animateTo.
  destruct (Num.leb _ 0) eqn:E0.
  - intros _. apply NumFacts.leb_le in E0. symmetry.
    eapply animateDuration_zero; [| exact E0]. lra.
  - destruct (Num.ltb _ 16); [reflexivity |].
    simpl. unfold execute.
    destruct (animating (animCtrl p)) eqn:Ha; [congruence |].
    unfold animating. simpl. discriminate.
Qed.

Lemma reachable_maxScale (p : Paper) :
  reachable p -> exists m, maxScale p = Num.clampNumber m 1.5 3.
Proof.
  induction 1 as [root image maxScale brush history p H | ev p p' Hr IH H].
  - apply InvFacts.Inv_new in H. destruct H as [_ H]. eexists. exact H.
  - destruct IH as [m Hm]. exists m.
    destruct (InvFacts.Inv_step ev p p' (InvFacts.Inv_reachable p Hr) H) as [_ E].
    congruence.
Qed.

Lemma moves_workMode (moves : list (TouchEvent * DOMRect * Z)) : forall p p',
  run (map (fun m => TouchMove (fst (fst m)) (snd (fst m)) (snd m)) moves) p
    = Some p' ->
  workMode p' = workMode p.
Proof.
  induction moves as [| m moves IH]; intros p p' H; simpl in H.
  - now injection H as <-.
  - destruct (onTouchMoveProxy _ _ _ p) as [q |] eqn:E; [| discriminate].
    apply HistoryFacts.touchMove_same in E. destruct E as [_ E].
    rewrite (IH _ _ H). exact E.
Qed.

Lemma filter_canceled (l : list AnimationHolder) :
  Forall (fun h => canceled h = true) l ->
  filter (fun h => negb (canceled h)) l = [].
Proof.
  induction 1 as [| h l Hh _ IH]; simpl; [reflexivity |].
  now rewrite Hh.
Qed.

Lemma liveHolders_holder (p : Paper) :
  Inv p ->
  match holder (animCtrl p) with
  | None => liveHolders (animCtrl p) = []
  | Some i => exists h, liveHolders (animCtrl p) = [h] /\ id h = i
  end.
Proof.
  intros (_ & (_ & _ & Hsched) & _). unfold scheduled in Hsched.
  unfold liveHolders.
  destruct (holder (animCtrl p)) as [i |].
  - destruct Hsched as (old & h & Hp & Hid & (Hc & _) & Hold).
    exists h. split; [| assumption].
    rewrite Hp, filter_app, (filter_canceled old Hold). simpl. now rewrite Hc.
  - now apply filter_canceled.
Qed.

(** C8: while an animation is live, [execute] returns the controller as
    it was: no new holder, the live holder, its callbacks, its tick and the
    scheduled frames unchanged; and on every Paper that can be reached, at
    most one scheduled holder is not cancelled. *)
Theorem execute_rejected_while_animating :
  (forall duration fcb ccb xcb now c,
     animating c = true -> execute duration fcb ccb xcb now c = c)
  /\
  (forall p, reachable p ->
     (List.length (liveHolders (animCtrl p)) <= 1)%nat).
Proof.
  split.
  - intros duration fcb ccb xcb now c. apply AnimationFacts.execute_animating.
  - intros p Hr.
    pose proof (liveHolders_holder p (InvFacts.Inv_reachable p Hr)) as H.
    destruct (holder (animCtrl p)) as [i |].
    + destruct H as (h & -> & _). simpl. lia.
    + rewrite H. simpl. lia.
Qed.

(** What the bounds correction achieves.  A gesture in the transform
    mode none of whose moves divides by zero, and that ends with no touch
    left, starts the bounds correction, which does not fail; the
    animation then live comes to its end; and on the frame on which it
    ends the zoom is in [[1, maxScale]], [maxScale] being the
    constructor's argument clamped into [[1.5, 3]].  Nothing is said of
    the frames that follow: one scheduled for a transition that
    [fitCenter] has cancelled may assign another zoom, as the concrete
    run with [fitCenter] shows. *)
Lemma zoom_bounded_after_gesture (p p1 : Paper)
  (moves : list (TouchEvent * DOMRect * Z)) (up : TouchEvent) (rect : DOMRect)
  (now : R) :
  reachable p -> workMode p = 2%nat ->
  run (map (fun m => TouchMove (fst (fst m)) (snd (fst m)) (snd m)) moves) p
    = Some p1 ->
  targetTouches up = [] ->
  exists p2,
    onTouchEndProxy up rect now p1 = Some p2
    /\ (exists m, maxScale p2 = Num.clampNumber m 1.5 3)
    /\ (exists times p3,
          settle times p2 = Some p3 /\ animating (animCtrl p3) = false)
    /\ (forall times p3,
          settle times p2 = Some p3 -> animating (animCtrl p3) = false ->
          zoomBounded p3).
Proof.
  intros Hr Hmode Hrun Hup.
  pose proof (InvFacts.Inv_reachable p Hr) as HI.
  destruct (InvFacts.Inv_run _ _ _ HI Hrun) as [HI1 Hm1].
  pose proof (moves_workMode _ _ _ Hrun) as Hmode1. rewrite Hmode in Hmode1.
  destruct (overBound_total now p1) as [p2 Hob].
  assert (Hend : onTouchEndProxy up rect now p1 = Some p2).
  { unfold onTouchEndProxy. rewrite Hmode1, Hup. simpl. exact Hob. }
  destruct (InvFacts.Inv_overBound now p1 p2 HI1 Hob) as [HI2 Hm2].
  exists p2. split; [exact Hend |]. split.
  { destruct (reachable_maxScale p Hr) as [m Hm]. exists m. congruence. }
  split; [now apply settle_completes |].
  intros times p3 Hs Hidle.
  apply (settle_bounded times p2 p3 HI2); try assumption.
  intros Hidle2. unfold overBound in Hob.
  destruct (overBoundTarget p1) as [[[ex ey] es] |] eqn:Et; [| discriminate].
  injection Hob as <-. unfold zoomBounded.
  rewrite (animateTo_idle ex ey es true now p1 Hidle2).
  destruct (InvFacts.Inv_animateTo ex ey es 200 true now p1 HI1) as [_ E].
  - eapply InvFacts.overBoundTarget_range; [apply HI1 | exact Et].
  - rewrite E. eapply InvFacts.overBoundTarget_range; [apply HI1 | exact Et].
Qed.

End ZoomFacts.

(** ** Bounds correction and its transition *)

Module BoundsFacts.

Import Dom Animation Paper ViewportSpec.



(** C9, as the code has it: the duration of a transition is
    [max(clamp(distance * 4, 0, maxDuration), clamp(|scale delta| * 1000, 0, maxDuration))],
    at most [maxDuration], which is 200 in both callers; when it is 0
    nothing happens; when it is positive and below 16 the target is
    assigned at once and no animation starts; when it is 16 or more and
    no animation is live, an animation of that duration starts whose
    frames interpolate linearly from the present position to the target,
    the position being untouched until the first frame; when an animation
    is live already, nothing happens. *)
Theorem animateTo_by_duration (ex ey es maxDuration : R) (lost : bool)
  (now : R) (p : Paper) :
  let sx := Position.x (position p) in
  let sy := Position.y (position p) in
  let ss := Position.scale (position p) in
  let d := animateDuration ex ey es maxDuration p in
  let p' := animateTo ex ey es maxDuration lost now p in
  d = Rmax (Num.clampNumber (sqrt ((ex - sx) ^ 2 + (ey - sy) ^ 2) * 4) 0 maxDuration)
           (Num.clampNumber (Rabs (es - ss) * 1000) 0 maxDuration)
  /\ (0 <= maxDuration -> 0 <= d <= maxDuration)
  /\ (d <= 0 -> p' = p)
  /\ (0 < d < 16 ->
      p' = set_position (Position.set_xys ex ey es (position p)) p)
  /\ (16 <= d -> animating (animCtrl p) = false ->
      exists h,
        p' = set_animCtrl
               (mkController (Some (id h)) (pending (animCtrl p) ++ [h])
                  (S (fresh (animCtrl p))))
               p
        /\ duration h = d /\ tick h = now /\ canceled h = false
        /\ forall value pos,
             frameCallback h value pos
             = Position.set_xys (sx + (ex - sx) * value)
                 (sy + (ey - sy) * value) (ss + (es - ss) * value) pos)
  /\ (16 <= d -> animating (animCtrl p) = true -> p' = p)
  /\ fitCenter now p
     = animateTo 0 0 1 200 false now (set_animCtrl (reset (animCtrl p)) p)
  /\ (forall q, overBound now p = Some q ->
      exists tx ty ts,
        overBoundTarget p = Some (tx, ty, ts)
        /\ q = animateTo tx ty ts 200 true now p).
Proof.
  intros sx sy ss d p'. split; [reflexivity |]. split.
  { intros Hm. unfold d, animateDuration.
    match goal with
    | |- _ <= Rmax ?a ?b <= _ =>
        assert (Ha : 0 <= a <= maxDuration)
          by (apply NumFacts.clampNumber_bounds; assumption);
        assert (Hb : 0 <= b <= maxDuration)
          by (apply NumFacts.clampNumber_bounds; assumption);
        unfold Rmax; destruct (Rle_dec a b); lra
    end. }
  unfold p', animateTo. fold d.
  split.
  { intros Hd. now rewrite (proj2 (NumFacts.leb_le d 0) Hd). }
  split.
  { intros [Hd1 Hd2]. rewrite (proj2 (NumFacts.leb_gt d 0) Hd1).
    now rewrite (proj2 (NumFacts.ltb_lt d 16) Hd2). }
  split.
  { intros Hd Ha.
    rewrite (proj2 (NumFacts.leb_gt d 0)) by lra.
    rewrite (proj2 (NumFacts.ltb_ge d 16) Hd).
    unfold execute. rewrite Ha.
    eexists (mkHolder _ _ _ _ _ _ _). split; [reflexivity |].
    simpl. repeat split; reflexivity. }
  split.
  { intros Hd Ha.
    rewrite (proj2 (NumFacts.leb_gt d 0)) by lra.
    rewrite (proj2 (NumFacts.ltb_ge d 16) Hd).
    unfold execute. rewrite Ha. now destruct p. }
  split; [reflexivity |].
  intros q Hq. unfold overBound in Hq.
  destruct (overBoundTarget p) as [[[tx ty] ts] |]; [| discriminate].
  injection Hq as <-. now exists tx, ty, ts.
Qed.

End BoundsFacts.

(** ** Export and re-import *)

Module ExportFacts.

Import Dom Paper Heap.

Lemma clone_id (v : Brush.BrushHistory) : Brush.clone v = v.
Proof. destruct v as [[ty co al si ca jo bl] ps]. reflexivity. Qed.

Lemma map_clone_id (vs : list Brush.BrushHistory) : map Brush.clone vs = vs.
Proof. induction vs as [| v vs IH]; simpl; [reflexivity |]. now rewrite clone_id, IH. Qed.

Lemma nth_error_extends (h ext : Heap.t) (a : nat) (o : Obj) :
  nth_error h a = Some o -> nth_error (h ++ ext) a = Some o.
Proof.
  intros H. rewrite nth_error_app1; [assumption |].
  apply nth_error_Some. congruence.
Qed.

Lemma readHistory_extends (h ext : Heap.t) (a : nat) (v : Brush.BrushHistory) :
  readHistory h a = Some v -> readHistory (h ++ ext) a = Some v.
Proof.
  unfold readHistory. intros H.
  destruct (nth_error h a) as [[| | c ps |] |] eqn:Ea; try discriminate.
  destruct (nth_error h c) as [[cv | | |] |] eqn:Ec; try discriminate.
  destruct (nth_error h ps) as [[| pv | |] |] eqn:Ep; try discriminate.
  rewrite (nth_error_extends _ ext _ _ Ea), (nth_error_extends _ ext _ _ Ec),
    (nth_error_extends _ ext _ _ Ep).
  assumption.
Qed.

Lemma readAll_extends (h ext : Heap.t) (items : list nat) :
  forall vs, readAll h items = Some vs -> readAll (h ++ ext) items = Some vs.
Proof.
  induction items as [| x items IH]; intros vs H; simpl in *; [assumption |].
  destruct (readHistory h x) as [v |] eqn:Ev; [| discriminate].
  destruct (readAll h items) as [vs' |]; [| discriminate].
  rewrite (readHistory_extends _ ext _ _ Ev), (IH vs' eq_refl). assumption.
Qed.

Lemma clone_spec (h : Heap.t) (a : nat) (v : Brush.BrushHistory) :
  readHistory h a = Some v ->
  clone a h = Some (S (S (List.length h)), h ++ cloned (List.length h) v).
Proof.
  unfold readHistory, clone. intros H.
  destruct (nth_error h a) as [[| | c ps |] |]; try discriminate.
  destruct (nth_error h c) as [[cv | | |] |]; try discriminate.
  destruct (nth_error h ps) as [[| pv | |] |]; try discriminate.
  injection H as <-. unfold alloc, cloned. simpl.
  rewrite !length_app. simpl. rewrite <- !app_assoc. simpl.
  replace (List.length h + 1)%nat with (S (List.length h)) by lia.
  replace (S (List.length h) + 1)%nat with (S (S (List.length h))) by lia.
  reflexivity.
Qed.

Lemma agree_from_mono (n m : nat) (h1 h2 : Heap.t) :
  (n <= m)%nat -> agree_from n h1 h2 -> agree_from m h1 h2.
Proof. intros Hnm H a Ha Hl. apply H; lia. Qed.

Lemma agree_from_prefix (n : nat) (h ext h2 : Heap.t) :
  agree_from n (h ++ ext) h2 -> agree_from n h h2.
Proof.
  intros H a Ha Hl. rewrite (H a Ha) by (rewrite length_app; lia).
  now apply nth_error_app1.
Qed.

Lemma agree_from_write (n a : nat) (o : Obj) (h : Heap.t) :
  (a < n)%nat -> agree_from n h (write a o h).
Proof.
  intros Han b Hb Hl. unfold write.
  destruct (Nat.ltb_spec a (List.length h)) as [Hal | Hal]; [| reflexivity].
  rewrite nth_error_app2 by (rewrite length_firstn; lia).
  rewrite length_firstn, Nat.min_l by lia.
  destruct (b - a)%nat as [| k] eqn:E; [lia |]. cbn [nth_error].
  rewrite nth_error_skipn. f_equal. lia.
Qed.

Lemma agree_from_alloc (n : nat) (o : Obj) (h : Heap.t) :
  agree_from n h (snd (alloc o h)).
Proof. intros a Ha Hl. simpl. now apply nth_error_app1. Qed.

Lemma agree_from_trans (n : nat) (h1 h2 h3 : Heap.t) :
  (List.length h1 <= List.length h2)%nat ->
  agree_from n h1 h2 -> agree_from n h2 h3 -> agree_from n h1 h3.
Proof.
  intros Hl H12 H23 a Ha Hal. rewrite (H23 a Ha) by lia. now apply H12.
Qed.

Lemma readHistory_cloned (h ext h2 : Heap.t) (v : Brush.BrushHistory) :
  agree_from (List.length h) ((h ++ cloned (List.length h) v) ++ ext) h2 ->
  readHistory h2 (S (S (List.length h))) = Some (Brush.clone v).
Proof.
  intros H. unfold readHistory.
  assert (Hn : forall k o,
             nth_error (cloned (List.length h) v) k = Some o ->
             nth_error h2 (List.length h + k) = Some o).
  { intros k o Hk.
    assert (Hlt : (k < 3)%nat).
    { assert (Hne : nth_error (cloned (List.length h) v) k <> None) by congruence.
      apply nth_error_Some in Hne. simpl in Hne. lia. }
    rewrite H by (rewrite ?length_app; simpl; lia).
    rewrite <- app_assoc. rewrite nth_error_app2 by lia.
    replace (List.length h + k - List.length h)%nat with k by lia.
    now apply nth_error_extends. }
  pose proof (Hn 0%nat _ eq_refl) as H0.
  pose proof (Hn 1%nat _ eq_refl) as H1.
  pose proof (Hn 2%nat _ eq_refl) as H2.
  replace (List.length h + 0)%nat with (List.length h) in H0 by lia.
  replace (List.length h + 1)%nat with (S (List.length h)) in H1 by lia.
  replace (List.length h + 2)%nat with (S (S (List.length h))) in H2 by lia.
  rewrite H2, H0, H1. reflexivity.
Qed.

Lemma cloneAll_spec (items : list nat) : forall (h : Heap.t) vs,
  readAll h items = Some vs ->
  exists items' ext,
    cloneAll items h = Some (items', h ++ ext)
    /\ forall ext' h2,
         agree_from (List.length h) ((h ++ ext) ++ ext') h2 ->
         readAll h2 items' = Some (map Brush.clone vs).
Proof.
  induction items as [| x items IH]; intros h vs H; simpl in H.
  - injection H as <-. exists [], []. split; [simpl; now rewrite app_nil_r |].
    reflexivity.
  - destruct (readHistory h x) as [v |] eqn:Ev; [| discriminate].
    destruct (readAll h items) as [vs' |] eqn:Evs; [| discriminate].
    injection H as <-.
    pose proof (readAll_extends h (cloned (List.length h) v) items vs' Evs) as Hex.
    destruct (IH _ _ Hex) as (items' & ext & Hc & Hr).
    exists (S (S (List.length h)) :: items'), (cloned (List.length h) v ++ ext).
    split.
    + cbn [cloneAll]. rewrite (clone_spec h x v Ev). cbn [fst snd].
      rewrite Hc. cbn [fst snd]. now rewrite app_assoc.
    + intros ext' h2 Hag. cbn [readAll map].
      rewrite app_assoc in Hag.
      rewrite (readHistory_cloned h (ext ++ ext') h2 v)
        by (now rewrite app_assoc).
      rewrite (Hr ext' h2); [reflexivity |].
      eapply agree_from_mono; [| exact Hag].
      rewrite length_app. lia.
Qed.

(** An export succeeds on a heap where the live array reads as strokes;
    what it returns reads as their clones, and goes on reading so in any
    later heap that has left the objects made by the export alone. *)
Lemma exportHistories_spec (h : Heap.t) (hs : nat) (vs : list Brush.BrushHistory) :
  readHistories h hs = Some vs ->
  exists e h',
    exportHistories hs h = Some (e, h')
    /\ (List.length h <= e)%nat
    /\ firstn (List.length h) h' = h
    /\ forall h2, agree_from (List.length h) h' h2 ->
                  readHistories h2 e = Some (map Brush.clone vs).
Proof.
  unfold readHistories, exportHistories. intros H.
  destruct (nth_error h hs) as [[| | | items] |]; try discriminate.
  destruct (cloneAll_spec items h vs H) as (items' & ext & Hc & Hr).
  rewrite Hc. simpl. eexists _, _. split; [reflexivity |].
  split; [rewrite length_app; lia |]. split.
  { rewrite <- app_assoc. rewrite firstn_app, Nat.sub_diag, firstn_all. simpl.
    now rewrite app_nil_r. }
  intros h2 Hag.
  rewrite (Hag (List.length (h ++ ext)))
    by (rewrite ?length_app; simpl; lia).
  rewrite nth_error_app2, Nat.sub_diag by lia. simpl.
  now apply (Hr [OArray items'] h2).
Qed.

Lemma loadSizeAndPosition_size (p p' : Paper) :
  loadSizeAndPosition p = Some p' -> width p' = width p /\ height p' = height p.
Proof.
  intros H. unfold loadSizeAndPosition in H.
  destruct (Num.div (offsetWidth (root p)) _); [| discriminate].
  destruct (Num.div (width p) _); [| discriminate].
  match type of H with
  | match ?c with Some _ => _ | None => None end = Some _ =>
      destruct c as [[ow oh] |]; [| discriminate]
  end.
  inv_some H. injection H as <-. split; reflexivity.
Qed.

(** C7: a Paper made from an export and an image of the exported width
    and height keeps every exported stroke, and its canvas after the
    constructor's redraw is the canvas that replaying the committed
    history of the exporting Paper gives.  On the objects: when the live
    array reads as the committed strokes of [p], the export succeeds,
    makes only new objects and leaves the old ones as they were; what it
    returns reads as the [histories] of [exportHistory p], and still does
    after any change of objects that existed before the export and any
    later allocation. *)
Theorem export_reimport :
  (forall p root image maxScale brush q,
     initImageAndCanvas image = Some (width p, height p) ->
     new root image maxScale brush (Some (exportHistory p)) = Some q ->
     histories q = histories p /\ canvas q = canvas (redraw p))
  /\
  (forall p h hs,
     readHistories h hs = Some (histories p) ->
     exists e h',
       exportHistories hs h = Some (e, h')
       /\ (List.length h <= e)%nat
       /\ firstn (List.length h) h' = h
       /\ readHistories h' e = Some (PaperHistory.histories (exportHistory p))
       /\ PaperHistory.histories (exportHistory p) = histories p
       /\ forall h2,
            agree_from (List.length h) h' h2 ->
            readHistories h2 e
            = Some (PaperHistory.histories (exportHistory p))).
Proof.
  split.
  - intros p root image maxScale brush q Hi H. unfold new in H.
    rewrite Hi in H.
    match type of H with
    | match ?c with Some _ => _ | None => None end = Some _ =>
        destruct c as [q0 |] eqn:Eq; [| discriminate]
    end.
    destruct (loadSizeAndPosition_size _ _ Eq) as [Hw Hh].
    apply HistoryFacts.loadSizeAndPosition_same in Eq.
    destruct Eq as [(Hhist & _) _]. simpl in Hw, Hh, Hhist.
    rewrite map_clone_id in Hhist.
    unfold exportHistory in H. simpl in H. rewrite Hw, Hh in H.
    rewrite (proj2 (NumFacts.eqb_eq (width p) (width p)) eq_refl) in H.
    rewrite (proj2 (NumFacts.eqb_eq (height p) (height p)) eq_refl) in H.
    simpl in H. injection H as <-. unfold redraw, updateState. simpl.
    rewrite Hhist. split; reflexivity.
  - intros p h hs H.
    destruct (exportHistories_spec h hs _ H) as (e & h' & He & Hle & Hfirst & Hr).
    exists e, h'. simpl PaperHistory.histories.
    repeat split; try assumption.
    + apply Hr. intros a _ _. reflexivity.
    + apply map_clone_id.
Qed.

End ExportFacts.

(** ** Concrete runs *)

(** Evaluates the comparisons and divisions of a goal on concrete reals. *)
Ltac num_eval :=
  repeat match goal with
    | |- context [Num.clampNumber _ _ _] => unfold Num.clampNumber
    | |- context [Num.div ?a ?b] =>
        rewrite (NumFacts.div_some a b) by lra
    | |- context [Rabs ?a] =>
        first [ rewrite (Rabs_pos_eq a) by lra | rewrite (Rabs_left1 a) by lra ]
    | |- context [Rmin ?a ?b] =>
        first [ rewrite (Rmin_left a b) by lra | rewrite (Rmin_right a b) by lra ]
    | |- context [Rmax ?a ?b] =>
        first [ rewrite (Rmax_left a b) by lra | rewrite (Rmax_right a b) by lra ]
    | |- context [Num.leb ?a ?b] =>
        first [ rewrite (proj2 (NumFacts.leb_le a b)) by lra
              | rewrite (proj2 (NumFacts.leb_gt a b)) by lra ]
    | |- context [Num.ltb ?a ?b] =>
        first [ rewrite (proj2 (NumFacts.ltb_lt a b)) by lra
              | rewrite (proj2 (NumFacts.ltb_ge a b)) by lra ]
    | |- context [Num.eqb ?a ?b] =>
        first [ rewrite (proj2 (NumFacts.eqb_eq a b)) by lra
              | rewrite (proj2 (NumFacts.eqb_neq a b)) by lra ]
    end.

Lemma sqrt_is (x v : R) : 0 <= v -> x = v * v -> sqrt x = v.
Proof. intros Hv ->. now apply sqrt_square. Qed.

(** Replaces the square root of the goal by its value. *)
Tactic Notation "sqrt_eval" constr(v) :=
  match goal with
  | |- context [sqrt ?x] => rewrite (sqrt_is x v) by (lra || ring)
  end.

Lemma paper_ext (p q : Paper.Paper) :
  Paper.root p = Paper.root q -> Paper.canvas p = Paper.canvas q ->
  Paper.image p = Paper.image q -> Paper.position p = Paper.position q ->
  Paper.histories p = Paper.histories q ->
  Paper.redoHistories p = Paper.redoHistories q ->
  Paper.animCtrl p = Paper.animCtrl q -> Paper.maxScale p = Paper.maxScale q ->
  Paper.width p = Paper.width q -> Paper.height p = Paper.height q ->
  Paper.brush p = Paper.brush q -> Paper.lastFocus p = Paper.lastFocus q ->
  Paper.lastLength p = Paper.lastLength q ->
  Paper.lastScaleFocus p = Paper.lastScaleFocus q ->
  Paper.workMode p = Paper.workMode q -> p = q.
Proof. destruct p, q. simpl. intros. subst. reflexivity. Qed.

Ltac real_eq := match goal with |- @eq R _ _ => (lra || (field; lra)) end.

Ltac leaf_eq :=
  repeat progress
    (simpl;
     unfold Position.set_xys, Position.set_xy, Position.set_scale, Paper.lerp,
       Brush.MarkingBrush_default, Animation.cleanFinishAnimation);
  repeat match goal with
    | |- @eq R _ _ => real_eq
    | |- ?a = ?a => reflexivity
    | |- _ => progress f_equal
    end.

(** Two papers, given field by field, are equal. *)
Ltac paper_eq :=
  match goal with |- Some _ = Some _ => f_equal | _ => idtac end;
  apply paper_ext; simpl; leaf_eq.

Module ExampleFacts.

Import Dom Paper Examples.

Lemma clampNumber_2 : Num.clampNumber 2 1.5 3 = 2.
Proof. num_cases; lra. Qed.

Lemma new_paper0 :
  new (mkElement 300 300) (ImageBitmap 1000 800) None None None = Some paper0.
Proof.
  unfold new, initImageAndCanvas. num_eval. simpl orb. cbv iota.
  unfold loadSizeAndPosition. simpl. num_eval. cbv iota. num_eval.
  unfold redraw, updateState, set_canvas, set_position. simpl.
  unfold paper0.
  do 2 f_equal. f_equal; lra.
Qed.


(** Unfolds the handlers of a run on a concrete paper and evaluates them. *)
Ltac run_eval :=
  unfold run, step, onTouchStartProxy, onTouchMoveProxy, onTouchEndProxy,
    computeFocus, computeLength, getTouch, sumTouches, cleanCurrentDraw,
    relativePositionToTimePoint, computeScaleOffset;
  repeat (simpl; num_eval).

Lemma undo_redo_restores_witness :
  histories (set_histories [stroke3] paper0) <> []
  /\ (let (r1, p1) := undo (set_histories [stroke3] paper0) in
      let (r2, p2) := redo p1 in
      r1 = true /\ r2 = true
      /\ histories p2 = histories (set_histories [stroke3] paper0)
      /\ redoHistories p2 = redoHistories (set_histories [stroke3] paper0)).
Proof.
  split; [discriminate |].
  apply (HistoryFacts.undo_redo_restores (set_histories [stroke3] paper0)).
  discriminate.
Defined.

(** C1, what the code does: on the Paper that the constructor makes of a
    1000 x 800 bitmap in a 300 x 300 root, a tap (one finger down, and up)
    commits its single point as a stroke, which is not valid, and makes
    [canUndo] true. *)
Theorem tap_commits_invalid_stroke :
  new (mkElement 300 300) (ImageBitmap 1000 800) None None None = Some paper0
  /\ canUndo paper0 = false
  /\ exists p' h,
       run tap paper0 = Some p'
       /\ histories p' = [h]
       /\ List.length (Brush.points h) = 1%nat
       /\ Brush.valid h = false
       /\ canUndo p' = true.
Proof.
  split; [exact new_paper0 |]. split; [reflexivity |].
  unfold tap. eexists _, _. split.
  - run_eval. reflexivity.
  - simpl. repeat split; reflexivity.
Qed.

Lemma shortDrag_run : exists p', run shortDrag undone0 = Some p'.
Proof. unfold shortDrag, undone0. eexists. run_eval. reflexivity. Qed.

Lemma commit_clears_redo_witness :
  canRedo undone0 = true
  /\ (exists p', run shortDrag undone0 = Some p' /\ canRedo p' = false)
  /\ (exists q',
        step (TouchEnd (touches []) rect0 0)
          (set_workMode 1
             (set_brush
                (Brush.drawDown (Brush.mkTimePoint 10 10 0)
                   (Brush.MarkingBrush_default None))
                undone0)) = Some q'
        /\ redoHistories q' = []).
Proof.
  split; [reflexivity |]. split.
  - destruct shortDrag_run as [p' Hrun]. exists p'. split; [exact Hrun |].
    apply (proj2 HistoryFacts.commit_clears_redo
             (touches [(150, 150)]) rect0 0%Z
             [(touches [(160, 150)], rect0, 1%Z)]
             (touches []) rect0 0 undone0 p');
      [reflexivity | reflexivity | exact Hrun].
  - match goal with |- exists q', ?s = Some q' /\ _ =>
      assert (Hstep : exists q', s = Some q') by (eexists; reflexivity)
    end.
    destruct Hstep as [q' Hstep]. exists q'. split; [exact Hstep |].
    apply (proj1 HistoryFacts.commit_clears_redo _ _ _
             (Brush.addPoint
                (Brush.mkHistory
                   (Brush.toConfigs (Brush.MarkingBrush_default None)) [])
                (Brush.mkTimePoint 10 10 0))
             Hstep); [discriminate |].
    simpl in Hstep. injection Hstep as <-. reflexivity.
Defined.

(** *** A pinch from 100 to 260 apart at the middle of the root *)

Lemma pinch_down : step pinchStart paper0 = Some drawing0.
Proof. unfold pinchStart. run_eval. unfold drawing0, paper0. paper_eq. Qed.

Lemma pinch_second : step pinchSecond drawing0 = Some pinching0.
Proof.
  unfold pinchSecond, drawing0. run_eval. sqrt_eval 100.
  unfold pinching0. paper_eq.
Qed.

Lemma pinch_move :
  step (TouchMove (fst (fst pinchMove)) (snd (fst pinchMove)) (snd pinchMove))
    pinching0 = Some zoomed0.
Proof.
  unfold pinchMove, pinching0. run_eval. sqrt_eval 260. run_eval.
  unfold zoomed0. paper_eq.
Qed.

Lemma pinch_target : overBoundTarget zoomed0 = Some (-150, -120, 2).
Proof.
  unfold overBoundTarget, computeScaleOffset. repeat (simpl; num_eval).
  leaf_eq.
Qed.

Lemma pinch_duration : animateDuration (-150) (-120) 2 200 zoomed0 = 200.
Proof.
  unfold animateDuration. simpl.
  match goal with
  | |- Rmax ?a ?b = _ =>
      assert (Hb : b = 200) by (num_eval; reflexivity);
      assert (Ha : a <= 200)
        by (apply (NumFacts.clampNumber_bounds _ 0 200); lra)
  end.
  rewrite Hb. apply Rmax_right. exact Ha.
Qed.

Lemma pinch_up :
  onTouchEndProxy (touches []) rect0 1000 zoomed0 = Some snapping0.
Proof.
  unfold onTouchEndProxy. simpl. unfold overBound. rewrite pinch_target.
  unfold animateTo. rewrite pinch_duration. num_eval.
  unfold snapping0, snapBack. paper_eq.
Qed.

Lemma pinch_frame : animationFrame 1200 snapping0 = Some snapped0.
Proof.
  unfold animationFrame, Animation.frame. simpl. num_eval. simpl. num_eval.
  unfold snapped0. paper_eq.
Qed.

Lemma pinch_settle : Invariant.settle [1200] snapping0 = Some snapped0.
Proof.
  change (Invariant.settle [1200] snapping0)
    with (p <- animationFrame 1200 snapping0 ;; Some p).
  now rewrite pinch_frame.
Qed.

Lemma reachable_pinching0 : reachable pinching0.
Proof.
  eapply reachable_step; [| exact pinch_second].
  eapply reachable_step; [| exact pinch_down].
  eapply reachable_new. exact new_paper0.
Qed.

Lemma reachable_snapping0 : reachable snapping0.
Proof.
  apply (reachable_step (TouchEnd (touches []) rect0 1000) zoomed0);
    [| exact pinch_up].
  eapply reachable_step; [exact reachable_pinching0 | exact pinch_move].
Qed.

Lemma zoom_bounded_after_gesture_witness :
  reachable pinching0 /\ workMode pinching0 = 2%nat
  /\ run [TouchMove (fst (fst pinchMove)) (snd (fst pinchMove)) (snd pinchMove)]
       pinching0 = Some zoomed0
  /\ maxScale zoomed0 < Position.scale (position zoomed0)
  /\ onTouchEndProxy (touches []) rect0 1000 zoomed0 = Some snapping0
  /\ Invariant.settle [1200] snapping0 = Some snapped0
  /\ Invariant.zoomBounded snapped0.
Proof.
  assert (Hrun : run [TouchMove (fst (fst pinchMove)) (snd (fst pinchMove))
                        (snd pinchMove)] pinching0 = Some zoomed0).
  { change (run [TouchMove (fst (fst pinchMove)) (snd (fst pinchMove))
                   (snd pinchMove)] pinching0)
      with (p <- step (TouchMove (fst (fst pinchMove)) (snd (fst pinchMove))
                         (snd pinchMove)) pinching0 ;; Some p).
    now rewrite pinch_move. }
  split; [exact reachable_pinching0 |]. split; [reflexivity |].
  split; [exact Hrun |]. split; [simpl; lra |].
  split; [exact pinch_up |]. split; [exact pinch_settle |].
  destruct (ZoomFacts.zoom_bounded_after_gesture pinching0 zoomed0 [pinchMove]
              (touches []) rect0 1000 reachable_pinching0 eq_refl Hrun eq_refl)
    as (p2 & Hend & _ & _ & Hb).
  rewrite pinch_up in Hend. injection Hend as <-.
  exact (Hb [1200] snapped0 pinch_settle eq_refl).
Defined.

Lemma execute_rejected_while_animating_witness :
  Animation.animating (animCtrl snapping0) = true
  /\ Animation.execute 200 (lerp 0 0 1 0 0 1) None None 1100 (animCtrl snapping0)
     = animCtrl snapping0
  /\ reachable snapping0
  /\ (List.length (Invariant.liveHolders (animCtrl snapping0)) <= 1)%nat.
Proof.
  split; [reflexivity |].
  split; [apply (proj1 ZoomFacts.execute_rejected_while_animating); reflexivity |].
  split; [exact reachable_snapping0 |].
  apply (proj2 ZoomFacts.execute_rejected_while_animating).
  exact reachable_snapping0.
Defined.

(** *** A pinch that shrinks the view by a hundredth *)

Lemma shrink_down : step shrinkStart paper0 = Some shrinkDrawing0.
Proof.
  unfold shrinkStart. run_eval. unfold shrinkDrawing0, paper0. paper_eq.
Qed.

Lemma shrink_second : step shrinkSecond shrinkDrawing0 = Some shrinking0.
Proof.
  unfold shrinkSecond, shrinkDrawing0. run_eval. sqrt_eval 60.
  unfold shrinking0. paper_eq.
Qed.

Lemma shrink_move : step shrinkMove shrinking0 = Some shrunk0.
Proof.
  unfold shrinkMove, shrinking0. run_eval. sqrt_eval (594 / 10). run_eval.
  unfold shrunk0. paper_eq.
Qed.

Lemma reachable_shrunk0 : reachable shrunk0.
Proof.
  eapply reachable_step; [| exact shrink_move].
  eapply reachable_step; [| exact shrink_second].
  eapply reachable_step; [| exact shrink_down].
  eapply reachable_new. exact new_paper0.
Qed.

Lemma shrunk_duration : animateDuration 0 0 1 200 shrunk0 = 10.
Proof.
  unfold animateDuration. simpl. sqrt_eval 0. num_eval. lra.
Qed.

Lemma shrunk_up :
  onTouchEndProxy (touches []) rect0 1000 shrunk0 = Some fitted0.
Proof.
  unfold onTouchEndProxy. simpl. unfold overBound, overBoundTarget. simpl.
  num_eval. unfold animateTo. rewrite shrunk_duration. num_eval.
  unfold fitted0. paper_eq.
Qed.

(** *** A pinch that shrinks the view by a fifth, and [fitCenter] *)

Lemma fifth_move : step fifthMove shrinking0 = Some fifth0.
Proof.
  unfold fifthMove, shrinking0. run_eval. sqrt_eval 48. run_eval.
  unfold fifth0. paper_eq.
Qed.

Lemma fifth_duration : animateDuration 0 0 1 200 fifth0 = 200.
Proof.
  unfold animateDuration. simpl. sqrt_eval 0. num_eval. lra.
Qed.

Lemma fifth_up :
  step (TouchEnd (touches []) rect0 1000) fifth0 = Some returning0.
Proof.
  unfold step, onTouchEndProxy. simpl. unfold overBound, overBoundTarget. simpl.
  num_eval. unfold animateTo. rewrite fifth_duration. num_eval.
  unfold returning0, fitBack. paper_eq.
Qed.

Lemma fifth_frame : step (AnimationFrame 1187) returning0 = Some nearly0.
Proof.
  unfold step, animationFrame, Animation.frame. simpl. num_eval. simpl.
  num_eval. unfold nearly0. paper_eq.
Qed.

Lemma nearly_duration :
  animateDuration 0 0 1 200
    (set_animCtrl (Animation.reset (animCtrl nearly0)) nearly0) = 13.
Proof.
  unfold animateDuration. simpl. sqrt_eval 0. num_eval. lra.
Qed.

Lemma fifth_fitCenter : step (FitCenter 1190) nearly0 = Some centred0.
Proof.
  unfold step, fitCenter, animateTo. rewrite nearly_duration. num_eval.
  unfold centred0, fitBackCanceled. paper_eq.
Qed.

Lemma fifth_stale : step (AnimationFrame 1195) centred0 = Some stale0.
Proof.
  unfold step, animationFrame, Animation.frame. simpl. num_eval. simpl.
  num_eval. unfold stale0. paper_eq.
Qed.

Lemma run_cons (ev : Event) (evs : list Event) (p q : Paper) :
  step ev p = Some q -> run (ev :: evs) p = run evs q.
Proof. intros H. simpl. now rewrite H. Qed.

Lemma frames_at_rest (times : list R) (p : Paper) :
  Animation.pending (animCtrl p) = [] ->
  run (map AnimationFrame times) p = Some p.
Proof.
  intros H. induction times as [| now times IH]; [reflexivity |].
  simpl. unfold animationFrame. rewrite H. exact IH.
Qed.

Lemma coincident_move : step coincidentMove shrinking0 = Some collapsed0.
Proof.
  unfold coincidentMove, shrinking0. run_eval. sqrt_eval 0. run_eval.
  unfold collapsed0. paper_eq.
Qed.

Lemma reachable_shrinking0 : reachable shrinking0.
Proof.
  eapply reachable_step; [| exact shrink_second].
  eapply reachable_step; [| exact shrink_down].
  eapply reachable_new. exact new_paper0.
Qed.

(** Two fingers at the same point set the zoom and the remembered
    distance to 0, and the pinch that follows divides by that distance:
    the code goes on with [Infinity] and a zoom of [NaN]; here the run
    ends. *)
Lemma pinch_after_coincident_fingers :
  reachable shrinking0
  /\ step coincidentMove shrinking0 = Some collapsed0
  /\ Position.scale (position collapsed0) = 0
  /\ lastLength collapsed0 = 0
  /\ step shrinkMove collapsed0 = None.
Proof.
  split; [exact reachable_shrinking0 |]. split; [exact coincident_move |].
  split; [reflexivity |]. split; [reflexivity |].
  unfold shrinkMove, collapsed0. run_eval.
  unfold Num.div. destruct (Req_dec_T 0 0) as [_ | H]; [reflexivity | lra].
Qed.

(** C4, what the code does: on the Paper that the constructor makes of a
    1000 x 800 bitmap in a 300 x 300 root, a pinch shrinks the view to
    4/5 and both fingers are lifted at time 1000, which starts the
    transition of the bounds correction towards the zoom 1; the frame of
    time 1187 brings the zoom to 0.987; [fitCenter] then cancels that
    transition and, 13 ms from its target, assigns the zoom 1 at once,
    so that no animation is live; the frame of time 1195, scheduled for
    the cancelled transition, assigns the zoom 0.995 all the same.  No
    gesture is under way, no animation is live and no frame is
    scheduled, and the zoom is below 1, where it stays whatever frames
    follow. *)
Theorem stale_frame_leaves_zoom_below_one :
  new (mkElement 300 300) (ImageBitmap 1000 800) None None None = Some paper0
  /\ run [shrinkStart; shrinkSecond; fifthMove;
          TouchEnd (touches []) rect0 1000] paper0 = Some returning0
  /\ Animation.animating (animCtrl returning0) = true
  /\ run [AnimationFrame 1187; FitCenter 1190] returning0 = Some centred0
  /\ Animation.animating (animCtrl centred0) = false
  /\ Position.scale (position centred0) = 1
  /\ step (AnimationFrame 1195) centred0 = Some stale0
  /\ Animation.animating (animCtrl stale0) = false
  /\ Animation.pending (animCtrl stale0) = []
  /\ Position.scale (position stale0) = 199 / 200
  /\ maxScale stale0 = Num.clampNumber 2 1.5 3
  /\ ~ Invariant.zoomBounded stale0
  /\ (forall times, run (map AnimationFrame times) stale0 = Some stale0).
Proof.
  split; [exact new_paper0 |].
  split.
  { rewrite (run_cons _ _ _ _ shrink_down), (run_cons _ _ _ _ shrink_second),
      (run_cons _ _ _ _ fifth_move), (run_cons _ _ _ _ fifth_up).
    reflexivity. }
  split; [reflexivity |].
  split.
  { rewrite (run_cons _ _ _ _ fifth_frame), (run_cons _ _ _ _ fifth_fitCenter).
    reflexivity. }
  split; [reflexivity |]. split; [reflexivity |].
  split; [exact fifth_stale |].
  split; [reflexivity |]. split; [reflexivity |]. split; [reflexivity |].
  split; [simpl; now rewrite clampNumber_2 |].
  split.
  - unfold Invariant.zoomBounded. simpl. lra.
  - intros times. now apply frames_at_rest.
Qed.

(** *** The narrow image pinched to twice its size *)










(** C9, where the specification fails: with the zoom at 0.99 the transition to
    the fit has a duration of 10, which is positive; the target is
    assigned at once and no animation is started. *)
Lemma snap_is_not_animated :
  reachable shrunk0
  /\ 0 < animateDuration 0 0 1 200 shrunk0
  /\ overBoundTarget shrunk0 = Some (0, 0, 1)
  /\ onTouchEndProxy (touches []) rect0 1000 shrunk0 = Some fitted0
  /\ Position.scale (position shrunk0) <> 1
  /\ Position.scale (position fitted0) = 1
  /\ Animation.animating (animCtrl fitted0) = false
  /\ Animation.pending (animCtrl fitted0) = [].
Proof.
  split; [exact reachable_shrunk0 |].
  split; [rewrite shrunk_duration; lra |].
  split; [unfold overBoundTarget; simpl; num_eval; reflexivity |].
  split; [exact shrunk_up |].
  simpl. repeat split; try reflexivity. lra.
Qed.

Lemma animateTo_by_duration_witness :
  Animation.animating
    (animCtrl (animateTo (-150) (-120) 2 200 true 1000 zoomed0)) = true
  /\ position (animateTo (-150) (-120) 2 200 true 1000 zoomed0)
     = position zoomed0
  /\ animateTo 0 0 1 200 true 1000 shrunk0
     = set_position (Position.set_xys 0 0 1 (position shrunk0)) shrunk0.
Proof.
  pose proof (BoundsFacts.animateTo_by_duration (-150) (-120) 2 200 true 1000
                zoomed0) as H.
  cbv zeta in H. destruct H as (_ & _ & _ & _ & H & _).
  destruct H as (h & -> & _); [rewrite pinch_duration; lra | reflexivity |].
  split; [reflexivity |]. split; [reflexivity |].
  pose proof (BoundsFacts.animateTo_by_duration 0 0 1 200 true 1000 shrunk0)
    as H.
  cbv zeta in H. destruct H as (_ & _ & _ & H & _).
  apply H. rewrite shrunk_duration. lra.
Defined.

(** *** Export *)

Lemma reimport_drawn0 :
  exists q,
    new (mkElement 300 300) (ImageBitmap 1000 800) None None
      (Some (exportHistory drawn0)) = Some q.
Proof.
  eexists. unfold new, initImageAndCanvas. num_eval. simpl orb. cbv iota.
  unfold loadSizeAndPosition. simpl. num_eval. cbv iota. num_eval.
  simpl. num_eval. reflexivity.
Qed.

Lemma init_1000_800 :
  initImageAndCanvas (ImageBitmap 1000 800) = Some (1000, 800).
Proof. unfold initImageAndCanvas. num_eval. reflexivity. Qed.

Lemma export_reimport_witness :
  (exists q,
     new (mkElement 300 300) (ImageBitmap 1000 800) None None
       (Some (exportHistory drawn0)) = Some q
     /\ histories q = [stroke3]
     /\ canvas q = canvas drawn0
     /\ List.length (canvas q) = 1%nat)
  /\
  (Heap.readHistories heap0 3 = Some [stroke3]
   /\ exists e h',
        Heap.exportHistories 3 heap0 = Some (e, h')
        /\ Heap.readHistories (mutate0 h') 3 = Some []
        /\ Heap.readHistories (mutate0 h') e = Some [stroke3]).
Proof.
  split.
  - destruct reimport_drawn0 as [q Hq]. exists q. split; [exact Hq |].
    destruct (proj1 ExportFacts.export_reimport drawn0 (mkElement 300 300)
                (ImageBitmap 1000 800) None None q init_1000_800 Hq)
      as [Hh Hc].
    split; [exact Hh |]. split; [exact Hc |]. rewrite Hc. reflexivity.
  - split; [reflexivity |].
    destruct (proj2 ExportFacts.export_reimport drawn0 heap0 3%nat eq_refl)
      as (e & h' & He & Hle & Hfirst & _ & _ & Hr).
    exists e, h'. split; [exact He |].
    unfold Heap.exportHistories, heap0 in He. simpl in He.
    injection He as <- <-.
    split; [reflexivity |].
    apply Hr. intros a Ha Hl. unfold mutate0, Heap.write. simpl in *.
    do 8 (destruct a as [| a]; [try lia; try reflexivity |]). lia.
Defined.

End ExampleFacts.

(** ** Points, colours and configurations *)

Module BrushApiFacts.

Import Brush BrushApi ColorSpec.

Lemma sum_sqr_nonneg (a b : R) : 0 <= a * a + b * b.
Proof.
  pose proof (Rle_0_sqr a). pose proof (Rle_0_sqr b). unfold Rsqr in *. lra.
Qed.

Lemma sqrt_half (X : R) : 0 <= X -> sqrt (X / 4) = sqrt X / 2.
Proof.
  intros HX. apply sqrt_is.
  - pose proof (sqrt_pos X). lra.
  - pose proof (sqrt_sqrt X HX). nra.
Qed.

Lemma sqrt_sum_le (u1 u2 v1 v2 : R) :
  sqrt ((u1 + v1) * (u1 + v1) + (u2 + v2) * (u2 + v2))
  <= sqrt (u1 * u1 + u2 * u2) + sqrt (v1 * v1 + v2 * v2).
Proof.
  set (A := sqrt (u1 * u1 + u2 * u2)). set (B := sqrt (v1 * v1 + v2 * v2)).
  assert (HA : 0 <= A) by apply sqrt_pos.
  assert (HB : 0 <= B) by apply sqrt_pos.
  assert (HA2 : A * A = u1 * u1 + u2 * u2)
    by (apply sqrt_sqrt, sum_sqr_nonneg).
  assert (HB2 : B * B = v1 * v1 + v2 * v2)
    by (apply sqrt_sqrt, sum_sqr_nonneg).
  assert (HAB : u1 * v1 + u2 * v2 <= A * B).
  { destruct (Rle_dec (u1 * v1 + u2 * v2) (A * B)) as [| N]; [assumption |].
    exfalso. apply Rnot_le_lt in N.
    assert (H0 : 0 <= A * B) by nra.
    assert (H1 : (A * B) * (A * B) < (u1 * v1 + u2 * v2) * (u1 * v1 + u2 * v2))
      by nra.
    assert (H2 : (A * B) * (A * B)
                 = (u1 * u1 + u2 * u2) * (v1 * v1 + v2 * v2))
      by (rewrite <- HA2, <- HB2; ring).
    assert (H3 : 0 <= (u1 * v2 - u2 * v1) * (u1 * v2 - u2 * v1))
      by exact (Rle_0_sqr _).
    assert (H4 : (u1 * u1 + u2 * u2) * (v1 * v1 + v2 * v2)
                 = (u1 * v1 + u2 * v2) * (u1 * v1 + u2 * v2)
                   + (u1 * v2 - u2 * v1) * (u1 * v2 - u2 * v1)) by ring.
    lra. }
  rewrite <- (sqrt_square (A + B)) by lra.
  apply sqrt_le_1_alt. nra.
Qed.

(** X1: [TimePoint.distance] is a distance: it is never negative, the
    same in both directions, zero exactly between points of the same
    coordinates (whatever their times), and no longer than a detour
    through a third point. *)
Theorem distance_metric (p o q : TimePoint) :
  0 <= distance p o
  /\ distance p o = distance o p
  /\ (distance p o = 0 <-> x p = x o /\ y p = y o)
  /\ distance p q <= distance p o + distance o q.
Proof.
  split; [apply sqrt_pos |].
  split; [unfold distance; f_equal; ring |].
  split.
  - unfold distance. split.
    + intros H. apply sqrt_eq_0 in H; [| apply sum_sqr_nonneg].
      apply Rplus_sqr_eq_0 in H. lra.
    + intros [Hx Hy]. rewrite Hx, Hy.
      replace ((x o - x o) * (x o - x o) + (y o - y o) * (y o - y o)) with 0
        by ring.
      apply sqrt_0.
  - unfold distance.
    replace (x q - x p) with ((x o - x p) + (x q - x o)) by ring.
    replace (y q - y p) with ((y o - y p) + (y q - y o)) by ring.
    apply sqrt_sum_le.
Qed.

(** X2: [TimePoint.middle] is half way between its two points, in place
    and in time: it is at half their distance from each, and its time
    lies between theirs. *)
Theorem middle_halfway (p0 p1 : TimePoint) :
  distance p0 (middle p0 p1) = distance p0 p1 / 2
  /\ distance (middle p0 p1) p1 = distance p0 p1 / 2
  /\ (Z.min (time p0) (time p1) <= time (middle p0 p1)
      <= Z.max (time p0) (time p1))%Z.
Proof.
  unfold distance, middle. simpl.
  assert (H0 : 0 <= (x p1 - x p0) * (x p1 - x p0) + (y p1 - y p0) * (y p1 - y p0))
    by apply sum_sqr_nonneg.
  split; [| split].
  - rewrite <- (sqrt_half _ H0). f_equal. field.
  - rewrite <- (sqrt_half _ H0). f_equal. field.
  - split.
    + apply Z.div_le_lower_bound; lia.
    + apply Z.div_le_upper_bound; lia.
Qed.

Lemma sqr_le (a b : R) : 0 <= b -> a * a <= b * b -> a <= b.
Proof.
  intros Hb H. destruct (Rle_dec a b) as [| N]; [assumption |].
  exfalso. apply Rnot_le_lt in N.
  assert (b * b < a * a) by (apply Rmult_le_0_lt_compat; lra). lra.
Qed.

(** X30: [TimePoint.len] is the distance of the point from the origin,
    never negative and zero only at the origin.  [TimePoint.cross] changes
    its sign when the two points change places, is zero of a point with
    itself, and is at most the product of the two lengths in absolute
    value (the sine of the angle being at most 1). *)
Theorem len_cross (p o : TimePoint) :
  len p = distance (mkTimePoint 0 0 (time p)) p
  /\ 0 <= len p
  /\ (len p = 0 <-> x p = 0 /\ y p = 0)
  /\ cross p o = - cross o p
  /\ cross p p = 0
  /\ Rabs (cross p o) <= len p * len o.
Proof.
  unfold len, cross, distance. simpl.
  split; [f_equal; ring |]. split; [apply sqrt_pos |]. split; [| split; [ring |
    split; [ring |]]].
  - split.
    + intros H. apply sqrt_eq_0 in H; [| apply sum_sqr_nonneg].
      apply Rplus_sqr_eq_0 in H. exact H.
    + intros [-> ->]. replace (0 * 0 + 0 * 0) with 0 by ring. apply sqrt_0.
  - set (A := sqrt (x p * x p + y p * y p)).
    set (B := sqrt (x o * x o + y o * y o)).
    assert (HA : 0 <= A) by apply sqrt_pos.
    assert (HB : 0 <= B) by apply sqrt_pos.
    assert (HA2 : A * A = x p * x p + y p * y p)
      by (apply sqrt_sqrt, sum_sqr_nonneg).
    assert (HB2 : B * B = x o * x o + y o * y o)
      by (apply sqrt_sqrt, sum_sqr_nonneg).
    assert (HAB : 0 <= A * B) by (apply Rmult_le_pos; assumption).
    assert (Hsq : (x p * y o - y p * x o) * (x p * y o - y p * x o)
                  <= (A * B) * (A * B)).
    { replace ((A * B) * (A * B)) with ((A * A) * (B * B)) by ring.
      rewrite HA2, HB2.
      pose proof (Rle_0_sqr (x p * x o + y p * y o)) as Hd. unfold Rsqr in Hd.
      replace ((x p * x p + y p * y p) * (x o * x o + y o * y o))
        with ((x p * y o - y p * x o) * (x p * y o - y p * x o)
              + (x p * x o + y p * y o) * (x p * x o + y p * y o)) by ring.
      lra. }
    apply Rabs_le. split.
    + assert (H : - (x p * y o - y p * x o) <= A * B).
      { apply sqr_le; [exact HAB |].
        replace (- (x p * y o - y p * x o) * - (x p * y o - y p * x o))
          with ((x p * y o - y p * x o) * (x p * y o - y p * x o)) by ring.
        exact Hsq. }
      lra.
    + apply sqr_le; assumption.
Qed.

(** X4: The setter of [color] stores the colour clamped into
    [[0, 0xFFFFFF]] and nothing else; with an alpha of 16/255 or more the
    [strokeStyle] read afterwards is ["#"], the six digits of the clamped
    colour and the two digits of the alpha. *)
Theorem set_color_strokeStyle (c : Z) (b : Brush) :
  let c' := Z.max 0 (Z.min c 0xFFFFFF) in
  let a := Num.floor (alpha (bconfigs b) * 255) in
  set_color c b = mkBrush (with_color c' (bconfigs b)) (_history b)
  /\ set_color c' b = set_color c b
  /\ ((16 <= a <= 255)%Z ->
      strokeStyle (set_color c b)
      = String "#" (hexFixed 6 c' ++ hexFixed 2 a)).
Proof.
  intros c' a.
  assert (E : set_color c b = mkBrush (with_color c' (bconfigs b)) (_history b)).
  { unfold set_color, c'.
    destruct (Z.ltb_spec c 0); [f_equal; f_equal; lia |].
    destruct (Z.ltb_spec 0xFFFFFF c); f_equal; f_equal; lia. }
  split; [exact E |]. split.
  - rewrite E. unfold set_color, c'.
    destruct (Z.ltb_spec (Z.max 0 (Z.min c 0xFFFFFF)) 0); [lia |].
    destruct (Z.ltb_spec 0xFFFFFF (Z.max 0 (Z.min c 0xFFFFFF))); [lia |].
    reflexivity.
  - intros Ha. rewrite E. unfold strokeStyle, strokeStyle_of, with_color.
    cbn [bconfigs color alpha]. fold a.
    rewrite StrokeStyleFacts.padColor_toString16 by (unfold c'; lia).
    rewrite (StrokeStyleFacts.toString16_two_digits a Ha).
    reflexivity.
Qed.

Lemma set_color_strokeStyle_witness :
  strokeStyle (set_color 0x1000000 (MarkingBrush_default None)) = "#ffffffff"%string.
Proof.
  assert (Ha : (16 <= Num.floor
                        (alpha (bconfigs (MarkingBrush_default None)) * 255)
                <= 255)%Z)
    by (simpl; rewrite StrokeStyleFacts.floor_255; lia).
  pose proof (proj2 (proj2
    (set_color_strokeStyle 0x1000000 (MarkingBrush_default None))) Ha) as H.
  simpl in H. rewrite StrokeStyleFacts.floor_255 in H. exact H.
Defined.

(** X5: The method [fromConfig] of a brush takes everything from the
    configuration but the type: the brush keeps its type and its stroke,
    reads back the configuration it was given when that is of its own
    type, is unchanged by its own configuration, and keeps the travel
    rule of its own class, at the size it was given. *)
Theorem fromConfig'_restores (c : BrushConfigs) (b : Brush) :
  type (bconfigs (fromConfig' c b)) = type (bconfigs b)
  /\ _history (fromConfig' c b) = _history b
  /\ (type c = type (bconfigs b) -> toConfigs (fromConfig' c b) = c)
  /\ fromConfig' (toConfigs b) b = b
  /\ (forall prev current,
        canDraw (fromConfig' c b) prev current
        = canDraw (mkBrush (bconfigs (set_strokeSize (size c) b)) None)
            prev current).
Proof.
  split; [reflexivity |]. split; [reflexivity |]. split; [| split].
  - intros Ht. unfold toConfigs, fromConfig'. simpl. rewrite <- Ht.
    destruct c; reflexivity.
  - unfold fromConfig', toConfigs. destruct b as [[] ?]; reflexivity.
  - intros prev current. reflexivity.
Qed.

Lemma fromConfig'_restores_witness :
  toConfigs
    (fromConfig' (toConfigs (MarkingBrush_default (Some 20)))
       (MarkingBrush_default None))
  = toConfigs (MarkingBrush_default (Some 20)).
Proof.
  apply (proj1 (proj2 (proj2
    (fromConfig'_restores (toConfigs (MarkingBrush_default (Some 20)))
       (MarkingBrush_default None))))).
  reflexivity.
Defined.

(** X6: The static [Brush.fromConfig] never throws: the constructor it
    picks by the type of the configuration accepts it, ignores the size
    argument and makes a brush with that configuration and no stroke; each
    constructor throws on a configuration of the other type. *)
Theorem fromConfig_constructs (c : BrushConfigs) (size : option R) :
  fromConfig_switch c = Some (fromConfig c)
  /\ toConfigs (fromConfig c) = c
  /\ _history (fromConfig c) = None
  /\ (MarkingBrush size (Some c) = None <-> type c = eraser)
  /\ (EraserBrush size (Some c) = None <-> type c = marking)
  /\ (type c = marking -> MarkingBrush size (Some c) = Some (fromConfig c))
  /\ (type c = eraser -> EraserBrush size (Some c) = Some (fromConfig c)).
Proof.
  unfold fromConfig_switch, MarkingBrush, EraserBrush, fromConfig, toConfigs.
  destruct (type c) eqn:E; simpl; repeat split;
    try reflexivity; try discriminate; try congruence.
Qed.

End BrushApiFacts.

(** ** Numbers and the opacity of the canvas *)

Module StyleFacts.

Import CanvasStyle.

(** X7: [clampNumber] with its bounds in order gives a value within
    them, the value itself when that is within them, the nearer bound
    otherwise; it does not change a value it has clamped, and it keeps
    the order of the values.  With the bounds out of order it gives the
    upper one. *)
Theorem clampNumber_contract (v lo hi : R) :
  (lo <= hi ->
   lo <= Num.clampNumber v lo hi <= hi
   /\ (lo <= v <= hi -> Num.clampNumber v lo hi = v)
   /\ (v <= lo -> Num.clampNumber v lo hi = lo)
   /\ (hi <= v -> Num.clampNumber v lo hi = hi))
  /\ (hi < lo -> Num.clampNumber v lo hi = hi)
  /\ Num.clampNumber (Num.clampNumber v lo hi) lo hi = Num.clampNumber v lo hi
  /\ (forall w, v <= w -> Num.clampNumber v lo hi <= Num.clampNumber w lo hi).
Proof.
  repeat split; intros; num_cases; lra.
Qed.

Lemma clampNumber_contract_witness :
  1.5 <= Num.clampNumber 7 1.5 3 <= 3 /\ Num.clampNumber 7 3 1.5 = 1.5.
Proof.
  split.
  - apply (proj1 (clampNumber_contract 7 1.5 3)). lra.
  - apply (proj1 (proj2 (clampNumber_contract 7 3 1.5))). lra.
Defined.

(** X8: The opacity read after an assignment is the assigned value
    clamped into [[0, 1]], but for a value of 0 or less, which reads back
    as 1; an opacity that was never assigned reads as 1; what is read is
    always above 0 and at most 1 after an assignment. *)
Theorem canvasOpacity_after_set (v : R) :
  canvasOpacity (set_canvasOpacity v) = (if Num.leb v 0 then 1 else Rmin v 1)
  /\ 0 < canvasOpacity (set_canvasOpacity v) <= 1
  /\ canvasOpacity None = 1.
Proof.
  unfold canvasOpacity, set_canvasOpacity.
  repeat split; num_cases; lra.
Qed.

End StyleFacts.

(** ** A stroke from the first touch to its place in the history *)

Module CaptureFacts.

Import Brush StrokeSpec GestureSpec Paper.

Lemma draw_configs (b b' : Brush) canvas e p c :
  bconfigs b = bconfigs b' -> draw b canvas e p c = draw b' canvas e p c.
Proof. intros E. unfold draw, strokeStyle. rewrite E. reflexivity. Qed.

Lemma drawPoints_short (b : Brush) canvas pts :
  (List.length pts <= 2)%nat -> drawPoints b canvas pts = canvas.
Proof.
  destruct pts as [| e [| p [| c rest]]]; simpl; intros H; try reflexivity; lia.
Qed.

Lemma drawPoints_snoc (b : Brush) : forall l canvas e p d,
  drawPoints b canvas (l ++ [e; p; d])
  = draw b (drawPoints b canvas (l ++ [e; p])) e p d.
Proof.
  induction l as [| a l IH]; intros canvas e p d; [reflexivity |].
  destruct l as [| a1 [| a2 l]].
  - reflexivity.
  - reflexivity.
  - change (drawPoints b canvas ((a :: a1 :: a2 :: l) ++ [e; p; d]))
      with (drawPoints b (draw b canvas a a1 a2) ((a1 :: a2 :: l) ++ [e; p; d])).
    change (drawPoints b canvas ((a :: a1 :: a2 :: l) ++ [e; p]))
      with (drawPoints b (draw b canvas a a1 a2) ((a1 :: a2 :: l) ++ [e; p])).
    apply IH.
Qed.

Lemma length_drawPoints (b : Brush) : forall pts canvas,
  List.length (drawPoints b canvas pts)
  = (List.length canvas + (List.length pts - 2))%nat.
Proof.
  induction pts as [| e rest IH]; intros canvas; [simpl; lia |].
  destruct rest as [| p [| c rest']]; [simpl; lia | simpl; lia |].
  change (drawPoints b canvas (e :: p :: c :: rest'))
    with (drawPoints b (draw b canvas e p c) (p :: c :: rest')).
  rewrite IH. unfold draw. rewrite length_app. simpl. lia.
Qed.

Lemma split_last_two {A : Type} (l : list A) :
  (2 <= List.length l)%nat -> exists l' e p, l = l' ++ [e; p].
Proof.
  intros H.
  destruct (HistoryFacts.nonempty_last l) as (l1 & p & ->);
    [destruct l; [simpl in H; lia | discriminate] |].
  rewrite length_app in H. simpl in H.
  destruct (HistoryFacts.nonempty_last l1) as (l2 & e & ->);
    [destruct l1; [simpl in H; lia | discriminate] |].
  exists l2, e, p. rewrite <- app_assoc. reflexivity.
Qed.

Lemma at_index_app (l : list TimePoint) (tail : list TimePoint) (k : nat) :
  (k < List.length tail)%nat ->
  at_index (l ++ tail)
    (Z.of_nat (List.length (l ++ tail)) - Z.of_nat (List.length tail - k))
  = nth_error tail k.
Proof.
  intros Hk. unfold at_index. rewrite length_app.
  destruct (Z.ltb_spec
              (Z.of_nat (List.length l + List.length tail)
               - Z.of_nat (List.length tail - k)) 0); [lia |].
  rewrite nth_error_app2 by lia. f_equal. lia.
Qed.

Lemma last_three (c : BrushConfigs) (l : list TimePoint) (e p d : TimePoint) :
  early (mkHistory c (l ++ [e; p; d])) = Some e
  /\ prev (mkHistory c (l ++ [e; p; d])) = Some p
  /\ current (mkHistory c (l ++ [e; p; d])) = Some d.
Proof.
  unfold early, prev, current, count. cbn [points].
  split; [| split].
  - apply (at_index_app l [e; p; d] 0). simpl. lia.
  - apply (at_index_app l [e; p; d] 1). simpl. lia.
  - apply (at_index_app l [e; p; d] 2). simpl. lia.
Qed.

Lemma last_one (c : BrushConfigs) (l : list TimePoint) (d : TimePoint) :
  current (mkHistory c (l ++ [d])) = Some d.
Proof.
  unfold current, count. cbn [points].
  apply (at_index_app l [d] 0). simpl. lia.
Qed.

Lemma spaced_snoc (d : R) : forall l a p,
  spaced d (l ++ [a]) -> d <= distance a p -> spaced d ((l ++ [a]) ++ [p]).
Proof.
  induction l as [| x l IH]; intros a p Hs Hd.
  - simpl. auto.
  - destruct l as [| y l].
    + simpl in *. tauto.
    + change (spaced d (x :: (y :: l) ++ [a])) in Hs.
      change (spaced d (x :: ((y :: l) ++ [a]) ++ [p])).
      simpl in Hs. destruct Hs as [Hxy Hs]. simpl. split; [exact Hxy |].
      apply (IH a p); assumption.
Qed.

(** One [drawMove] on a stroke under way, the canvas showing what has
    been captured of it on top of [c0]. *)
Lemma drawMove_step (b : Brush) (h : BrushHistory) (c0 : Canvas)
  (p : TimePoint) :
  _history b = Some h -> (1 <= count h)%nat ->
  spaced (minTravel b) (tl (points h)) ->
  exists h',
    drawMove p b (drawPoints (fromConfig (bconfigs b)) c0 (points h))
    = Some (mkBrush (bconfigs b) (Some h'),
            drawPoints (fromConfig (bconfigs b)) c0 (points h'))
    /\ configs h' = configs h
    /\ (points h' = points h ++ [p] \/ points h' = points h)
    /\ (count h = 1%nat -> points h' = points h ++ [p])
    /\ spaced (minTravel b) (tl (points h')).
Proof.
  intros Hh Hc Hs. unfold drawMove. rewrite Hh.
  assert (Hadd :
    ((1 <? count h)%nat = true ->
     exists cur, current h = Some cur /\ minTravel b <= distance cur p) \/
    count h = 1%nat ->
    exists h',
      (let history := addPoint h p in
       let b0 := mkBrush (bconfigs b) (Some history) in
       if negb (valid history)
       then Some (b0, drawPoints (fromConfig (bconfigs b)) c0 (points h))
       else
         e <- early history ;;
         q <- prev history ;;
         c <- current history ;;
         Some (b0, draw b0 (drawPoints (fromConfig (bconfigs b)) c0 (points h))
                     e q c))
      = Some (mkBrush (bconfigs b) (Some h'),
              drawPoints (fromConfig (bconfigs b)) c0 (points h'))
      /\ configs h' = configs h
      /\ (points h' = points h ++ [p] \/ points h' = points h)
      /\ (count h = 1%nat -> points h' = points h ++ [p])
      /\ spaced (minTravel b) (tl (points h'))).
  { intros Hcase. exists (addPoint h p). cbv zeta.
    destruct (Nat.eq_dec (count h) 1) as [H1 | H1].
    - (* the second point: recorded, nothing stroked yet *)
      assert (V : valid (addPoint h p) = false).
      { unfold valid. rewrite StrokeFacts.count_addPoint, H1. reflexivity. }
      rewrite V. simpl negb. cbv iota.
      split.
      { f_equal. f_equal.
        rewrite (drawPoints_short _ c0 (points h))
          by (unfold count in H1; lia).
        symmetry. apply drawPoints_short.
        unfold addPoint. simpl. rewrite length_app. unfold count in H1.
        rewrite H1. simpl. lia. }
      split; [reflexivity |]. split; [left; reflexivity |].
      split; [reflexivity |].
      unfold addPoint. simpl. unfold count in H1.
      destruct (points h) as [| a [| a' l]]; simpl in H1; try lia.
      simpl. exact I.
    - (* a later point *)
      destruct Hcase as [Hcase | Hcase]; [| contradiction].
      assert (H2 : (2 <= List.length (points h))%nat)
        by (unfold count in *; lia).
      destruct (split_last_two (points h) H2) as (l & e & q & Hl).
      assert (V : valid (addPoint h p) = true).
      { apply StrokeFacts.valid_count. rewrite StrokeFacts.count_addPoint.
        unfold count. lia. }
      rewrite V. simpl negb. cbv iota.
      assert (Hp : points (addPoint h p) = l ++ [e; q; p]).
      { unfold addPoint. simpl. rewrite Hl, <- app_assoc. reflexivity. }
      assert (Hh' : addPoint h p = mkHistory (configs h) (l ++ [e; q; p])).
      { unfold addPoint. f_equal. rewrite Hl, <- app_assoc. reflexivity. }
      destruct (last_three (configs h) l e q p) as (He & Hq & Hcur).
      rewrite Hh', He, Hq, Hcur. cbn [points].
      split.
      { f_equal. f_equal. rewrite drawPoints_snoc, Hl.
        apply draw_configs. reflexivity. }
      split; [reflexivity |].
      split; [left; rewrite Hl, <- app_assoc; reflexivity |].
      split; [intros; rewrite Hl, <- app_assoc; reflexivity |].
      assert (Hlt : (1 <? count h)%nat = true)
        by (apply Nat.ltb_lt; unfold count; lia).
      destruct (Hcase Hlt) as (cur & Hcur' & Hd).
      assert (cur = q).
      { replace h with (mkHistory (configs h) ((l ++ [e]) ++ [q])) in Hcur'
          by (destruct h; simpl in *; rewrite Hl, <- app_assoc; reflexivity).
        rewrite last_one in Hcur'. congruence. }
      subst cur.
      rewrite Hl in Hs.
      destruct l as [| a l].
      + simpl in *. split; [exact Hd | exact I].
      + change (tl ((a :: l) ++ [e; q; p])) with (l ++ [e; q; p]).
        change (tl ((a :: l) ++ [e; q])) with (l ++ [e; q]) in Hs.
        replace (l ++ [e; q; p]) with (((l ++ [e]) ++ [q]) ++ [p])
          by (rewrite <- !app_assoc; reflexivity).
        apply spaced_snoc; [| exact Hd].
        rewrite <- app_assoc. exact Hs. }
  destruct (1 <? count h)%nat eqn:Hlt.
  - apply Nat.ltb_lt in Hlt.
    destruct (StrokeFacts.current_some h) as [cur Hcur]; [lia |].
    rewrite Hcur. cbv beta iota.
    destruct (canDraw b cur p) eqn:Hcan; simpl negb; cbv iota.
    + apply Hadd. left. intros _. exists cur. split; [exact Hcur |].
      apply StrokeFacts.canDraw_minTravel. exact Hcan.
    + exists h. split; [| split; [reflexivity | split; [right; reflexivity |
        split; [intros; lia | exact Hs]]]].
      destruct b as [cfg hist]. simpl in *. rewrite Hh. reflexivity.
  - apply Nat.ltb_ge in Hlt. cbv beta iota.
    apply Hadd. right. lia.
Qed.

(** The moves of a stroke under way. *)
Lemma drawMoves_spec (pts : list TimePoint) :
  forall (b : Brush) (h : BrushHistory) (c0 : Canvas),
  _history b = Some h -> (1 <= count h)%nat ->
  spaced (minTravel b) (tl (points h)) ->
  exists h' kept,
    drawMoves pts b (drawPoints (fromConfig (bconfigs b)) c0 (points h))
    = Some (mkBrush (bconfigs b) (Some h'),
            drawPoints (fromConfig (bconfigs b)) c0 (points h'))
    /\ configs h' = configs h
    /\ points h' = points h ++ kept
    /\ subseq kept pts
    /\ spaced (minTravel b) (tl (points h'))
    /\ (count h = 1%nat ->
        forall q rest, pts = q :: rest -> exists k, kept = q :: k).
Proof.
  induction pts as [| p pts IH]; intros b h c0 Hh Hc Hs.
  - exists h, []. simpl. rewrite app_nil_r.
    split; [| split; [reflexivity | split; [reflexivity |
      split; [constructor | split; [exact Hs | discriminate]]]]].
    destruct b as [cfg hist]. simpl in *. rewrite Hh. reflexivity.
  - destruct (drawMove_step b h c0 p Hh Hc Hs)
      as (h1 & Hrun & Hcfg & Hpts & Hfirst & Hs1).
    simpl. rewrite Hrun. cbn [fst snd].
    assert (Hc1 : (1 <= count h1)%nat).
    { unfold count in *. destruct Hpts as [-> | ->];
        [rewrite length_app; simpl; lia | exact Hc]. }
    destruct (IH (mkBrush (bconfigs b) (Some h1)) h1 c0 eq_refl Hc1 Hs1)
      as (h' & kept & Hrun' & Hcfg' & Hpts' & Hsub & Hs' & _).
    cbn [bconfigs] in Hrun'. rewrite Hrun'.
    destruct Hpts as [Hadd | Hsame].
    + exists h', (p :: kept).
      split; [reflexivity |]. split; [congruence |].
      split; [rewrite Hpts', Hadd, <- app_assoc; reflexivity |].
      split; [constructor; exact Hsub |]. split; [exact Hs' |].
      intros _ q rest E. injection E as <- <-. now exists kept.
    + exists h', kept.
      split; [reflexivity |]. split; [congruence |].
      split; [rewrite Hpts', Hsame; reflexivity |].
      split; [constructor; exact Hsub |]. split; [exact Hs' |].
      intros H1 q rest E. specialize (Hfirst H1). rewrite Hsame in Hfirst.
      exfalso. apply (HistoryFacts.app_last_neq (points h) p).
      symmetry. exact Hfirst.
Qed.

(** X9: From [drawDown] on, the moves of a stroke never throw.  The
    brush keeps its configuration, of which the stroke holds a copy; the
    stroke holds the point of [drawDown] followed by some of the points
    moved to, in their order; the first of these is always kept, and any
    two neighbours among those kept are at least the travel of the brush
    apart (2 units or more). *)
Theorem stroke_points_spaced (b : Brush) (p0 : TimePoint)
  (pts : list TimePoint) (canvas : Canvas) :
  exists h kept canvas',
    drawMoves pts (drawDown p0 b) canvas
    = Some (mkBrush (bconfigs b) (Some h), canvas')
    /\ configs h = bconfigs b
    /\ points h = p0 :: kept
    /\ subseq kept pts
    /\ spaced (minTravel b) kept
    /\ 2 <= minTravel b
    /\ (forall q rest, pts = q :: rest -> exists k, kept = q :: k).
Proof.
  destruct (drawMoves_spec pts (drawDown p0 b)
              (addPoint (mkHistory (toConfigs b) []) p0) canvas eq_refl)
    as (h & kept & Hrun & Hcfg & Hpts & Hsub & Hs & Hfirst);
    [unfold count; simpl; lia | exact I |].
  exists h, kept. eexists. split; [exact Hrun |].
  split; [exact Hcfg |]. split; [exact Hpts |]. split; [exact Hsub |].
  split; [| split].
  - rewrite Hpts in Hs. exact Hs.
  - unfold minTravel. destruct (type (bconfigs b)); apply Rmax_r.
  - apply Hfirst. reflexivity.
Qed.

(** X10: What the moves of a stroke put on the canvas is what [redraw]
    strokes for the points captured so far, with the configuration of the
    brush: one curve for every three points in a row. *)
Theorem stroke_live_is_redraw (b : Brush) (p0 : TimePoint)
  (pts : list TimePoint) (canvas : Canvas) :
  exists h,
    drawMoves pts (drawDown p0 b) canvas
    = Some (mkBrush (bconfigs b) (Some h),
            drawPoints (fromConfig (configs h)) canvas (points h))
    /\ List.length (drawPoints (fromConfig (configs h)) canvas (points h))
       = (List.length canvas + curves h)%nat.
Proof.
  destruct (drawMoves_spec pts (drawDown p0 b)
              (addPoint (mkHistory (toConfigs b) []) p0) canvas eq_refl)
    as (h & kept & Hrun & Hcfg & _); [unfold count; simpl; lia | exact I |].
  exists h. rewrite Hcfg. split; [exact Hrun |].
  apply length_drawPoints.
Qed.

(** [drawUp] on a stroke under way. *)
Lemma drawUp_spec (b : Brush) (h : BrushHistory) (c0 : Canvas) :
  _history b = Some h ->
  exists h',
    drawUp b (drawPoints (fromConfig (bconfigs b)) c0 (points h))
    = Some (mkBrush (bconfigs b) (Some h'),
            drawPoints (fromConfig (bconfigs b)) c0 (points h'))
    /\ configs h' = configs h
    /\ (valid h = true ->
        exists cur, current h = Some cur /\ points h' = points h ++ [cur])
    /\ (valid h = false -> h' = h).
Proof.
  intros Hh. unfold drawUp. rewrite Hh.
  destruct (valid h) eqn:V; simpl negb; cbv iota.
  - pose proof (proj1 (StrokeFacts.valid_count h) V) as Hc.
    assert (H2 : (2 <= List.length (points h))%nat)
      by (unfold count in Hc; lia).
    destruct (split_last_two (points h) H2) as (l & e & q & Hl).
    assert (Hcur : current h = Some q).
    { replace h with (mkHistory (configs h) ((l ++ [e]) ++ [q]))
        by (destruct h; simpl in *; rewrite Hl, <- app_assoc; reflexivity).
      apply last_one. }
    rewrite Hcur.
    assert (Hh' : addPoint h q = mkHistory (configs h) (l ++ [e; q; q])).
    { unfold addPoint. f_equal. rewrite Hl, <- app_assoc. reflexivity. }
    destruct (last_three (configs h) l e q q) as (He & Hq & Hcur').
    rewrite Hh', He, Hq, Hcur'.
    exists (mkHistory (configs h) (l ++ [e; q; q])). cbn [points configs].
    split.
    { f_equal. f_equal. rewrite drawPoints_snoc, Hl.
      apply draw_configs. reflexivity. }
    split; [reflexivity |]. split; [| discriminate].
    intros _. exists q. split; [reflexivity |].
    rewrite Hl, <- app_assoc. reflexivity.
  - exists h. split; [| split; [reflexivity | split; [discriminate | reflexivity]]].
    destruct b as [cfg hist]. simpl in *. rewrite Hh. reflexivity.
Qed.

End CaptureFacts.

(** ** Gestures on a Paper *)

Module GestureFacts.

Import Dom Paper GestureSpec.

Lemma run_moves_cons m moves p :
  run (touchMoves (m :: moves)) p
  = (q <- onTouchMoveProxy (fst (fst m)) (snd (fst m)) (snd m) p ;;
     run (touchMoves moves) q).
Proof. reflexivity. Qed.

Lemma run_gesture (first last : Event) moves p :
  run (first :: touchMoves moves ++ [last]) p
  = (p1 <- step first p ;; p2 <- run (touchMoves moves) p1 ;; step last p2).
Proof.
  change (first :: touchMoves moves ++ [last])
    with ([first] ++ touchMoves moves ++ [last]).
  rewrite HistoryFacts.run_app. simpl.
  destruct (step first p) as [p1 |]; [| reflexivity].
  rewrite HistoryFacts.run_app.
  destruct (run (touchMoves moves) p1) as [p2 |]; [| reflexivity].
  simpl. destruct (step last p2); reflexivity.
Qed.

(** The first touch of one finger on a Paper at rest starts a stroke. *)
Lemma touchStart_drawing (event : TouchEvent) (rect : DOMRect) (time : Z)
  (p p' : Paper) :
  List.length (targetTouches event) = 1%nat ->
  Animation.animating (animCtrl p) = false ->
  onTouchStartProxy event rect time p = Some p' ->
  drawing (Brush.bconfigs (brush p)) (canvas p) p p'.
Proof.
  intros Hlen Hanim H. unfold onTouchStartProxy in H.
  rewrite Hlen, Hanim in H. simpl in H.
  inv_some H. injection H as <-. unfold drawing. simpl.
  split; [reflexivity |]. split; [| repeat split; reflexivity].
  eexists. split; [reflexivity |]. simpl.
  split; [unfold Brush.count; simpl; lia |].
  split; [reflexivity |]. split; [exact I | reflexivity].
Qed.

(** A move of the finger keeps the stroke under way. *)
Lemma touchMove_drawing cfg c0 p0 (event : TouchEvent) (rect : DOMRect)
  (time : Z) (p p' : Paper) :
  drawing cfg c0 p0 p ->
  onTouchMoveProxy event rect time p = Some p' ->
  drawing cfg c0 p0 p'.
Proof.
  intros (Hmode & (h & Hb & Hc & Hcfg & Hs & Hcan) & Hhs & Hrs & Hpos) H.
  unfold onTouchMoveProxy in H. rewrite Hmode in H. simpl in H.
  inv_some H. injection H as <-.
  match goal with E : Brush.drawMove ?pt _ _ = Some _ |- _ =>
    destruct (CaptureFacts.drawMove_step (brush p) h c0 pt)
      as (h' & Hrun & Hcfg' & Hpts & _ & Hs');
      [ rewrite Hb; reflexivity | exact Hc | rewrite Hb; exact Hs | ];
    rewrite Hb in Hrun; cbn [Brush.bconfigs] in Hrun;
    rewrite Hb, Hcan, Hrun in E; injection E as <-
  end.
  unfold drawing. simpl.
  split; [exact Hmode |]. split; [| repeat split; assumption].
  exists h'. split; [reflexivity |].
  split.
  { unfold Brush.count in *. destruct Hpts as [-> | ->];
      [rewrite length_app; simpl; lia | exact Hc]. }
  split; [congruence |]. split; [| reflexivity].
  rewrite Hb in Hs'. exact Hs'.
Qed.

Lemma touchMoves_drawing cfg c0 p0 moves : forall p p',
  drawing cfg c0 p0 p ->
  run (touchMoves moves) p = Some p' ->
  drawing cfg c0 p0 p'.
Proof.
  induction moves as [| m moves IH]; intros p p' Hd H.
  - injection H as <-. exact Hd.
  - rewrite run_moves_cons in H. inv_some H.
    eapply IH; [| exact H]. eapply touchMove_drawing; eassumption.
Qed.

Lemma redraw_snoc (hs : list Brush.BrushHistory) (h : Brush.BrushHistory) :
  fold_left redrawItem (hs ++ [h]) [] = redrawItem (fold_left redrawItem hs []) h.
Proof. rewrite fold_left_app. reflexivity. Qed.

Lemma redrawItem_drawPoints (c0 : Brush.Canvas) (h : Brush.BrushHistory) :
  redrawItem c0 h
  = drawPoints (Brush.fromConfig (Brush.configs h)) c0 (Brush.points h).
Proof.
  unfold redrawItem. destruct (Brush.valid h) eqn:V; [reflexivity |].
  simpl. symmetry. apply CaptureFacts.drawPoints_short.
  unfold Brush.valid in V. apply Nat.ltb_ge in V. exact V.
Qed.

(** X11: A draw gesture (one finger down on a Paper with no animation
    live, any moves, finger up) that runs through commits one stroke, with
    the configuration the brush had, and leaves the brush without a
    stroke and the view where it was.  What the gesture has put on the
    canvas is what [redraw] strokes for the committed stroke, so that a
    canvas that showed the committed strokes still does.  A committed
    stroke of three points or more ends with its last point twice. *)
Theorem draw_gesture_commits (down : TouchEvent) (rect0 : DOMRect) (time0 : Z)
  (moves : list (TouchEvent * DOMRect * Z)) (up : TouchEvent)
  (rect1 : DOMRect) (now : R) (p p' : Paper) :
  List.length (targetTouches down) = 1%nat ->
  Animation.animating (animCtrl p) = false ->
  run (TouchStart down rect0 time0 :: touchMoves moves
       ++ [TouchEnd up rect1 now]) p = Some p' ->
  exists h,
    histories p' = histories p ++ [h]
    /\ redoHistories p' = []
    /\ Brush.configs h = Brush.bconfigs (brush p)
    /\ brush p' = Brush.mkBrush (Brush.bconfigs (brush p)) None
    /\ canvas p' = redrawItem (canvas p) h
    /\ (inSync p -> inSync p')
    /\ position p' = position p
    /\ (Brush.valid h = true ->
        exists l q, Brush.points h = l ++ [q; q]).
Proof.
  intros Hlen Hanim H. rewrite run_gesture in H. simpl step in H.
  destruct (onTouchStartProxy down rect0 time0 p) as [p1 |] eqn:H1;
    [| discriminate].
  destruct (run (touchMoves moves) p1) as [p2 |] eqn:H2; [| discriminate].
  pose proof (touchStart_drawing _ _ _ _ _ Hlen Hanim H1) as Hd1.
  pose proof (touchMoves_drawing _ _ _ _ _ _ Hd1 H2) as Hd2.
  destruct Hd2 as (Hmode & (h & Hb & Hc & Hcfg & Hs & Hcan) & Hhs & Hrs & Hpos).
  unfold onTouchEndProxy in H. rewrite Hmode in H. simpl in H.
  destruct (CaptureFacts.drawUp_spec (brush p2) h (canvas p))
    as (h' & Hup & Hcfg' & Hvalid & Hinvalid); [rewrite Hb; reflexivity |].
  rewrite Hb in Hup. cbn [Brush.bconfigs] in Hup.
  rewrite Hb, Hcan, Hup in H. simpl in H. injection H as <-. simpl.
  exists h'.
  assert (Hcanvas :
    drawPoints (Brush.fromConfig (Brush.bconfigs (brush p))) (canvas p)
      (Brush.points h') = redrawItem (canvas p) h').
  { rewrite redrawItem_drawPoints, Hcfg', Hcfg. reflexivity. }
  split; [rewrite Hhs; reflexivity |]. split; [reflexivity |].
  split; [congruence |]. split; [reflexivity |].
  split; [exact Hcanvas |]. split; [| split; [exact Hpos |]].
  - unfold inSync, redraw. simpl. intros Hsync.
    rewrite Hhs, redraw_snoc, <- Hsync. exact Hcanvas.
  - intros V. destruct (Brush.valid h) eqn:Vh.
    + destruct (Hvalid eq_refl) as (cur & Hcur & Hpts).
      assert (H2' : (2 <= List.length (Brush.points h))%nat).
      { apply StrokeFacts.valid_count in Vh. unfold Brush.count in Vh. lia. }
      destruct (CaptureFacts.split_last_two _ H2') as (l & e & q & Hl).
      assert (cur = q).
      { replace h with (Brush.mkHistory (Brush.configs h) ((l ++ [e]) ++ [q]))
          in Hcur
          by (destruct h; simpl in *; rewrite Hl, <- app_assoc; reflexivity).
        rewrite CaptureFacts.last_one in Hcur. congruence. }
      subst cur. exists (l ++ [e]), q.
      rewrite Hpts, Hl, <- !app_assoc. reflexivity.
    + rewrite (Hinvalid eq_refl) in V. congruence.
Qed.

Lemma draw_gesture_commits_witness :
  exists p' h,
    run Examples.shortDrag Examples.undone0 = Some p'
    /\ histories p' = histories Examples.undone0 ++ [h]
    /\ canRedo p' = false.
Proof.
  destruct ExampleFacts.shortDrag_run as [p' Hrun]. exists p'.
  destruct (draw_gesture_commits
              (Examples.touches [(150, 150)]) Examples.rect0 0
              [(Examples.touches [(160, 150)], Examples.rect0, 1%Z)]
              (Examples.touches []) Examples.rect0 0 Examples.undone0 p'
              eq_refl eq_refl Hrun)
    as (h & Hh & Hr & _).
  exists h. split; [exact Hrun |]. split; [exact Hh |].
  unfold canRedo. rewrite Hr. reflexivity.
Defined.

(** X12: A second finger put down during a stroke discards the stroke:
    the Paper goes to move mode, nothing is committed, the brush holds no
    stroke any longer, and the canvas is redrawn from the committed
    strokes alone. *)
Theorem second_finger_discards_stroke (down : TouchEvent) (rect0 : DOMRect)
  (time0 : Z) (moves : list (TouchEvent * DOMRect * Z)) (two : TouchEvent)
  (rect1 : DOMRect) (time1 : Z) (p p' : Paper) :
  List.length (targetTouches down) = 1%nat ->
  Animation.animating (animCtrl p) = false ->
  (2 <= List.length (targetTouches two))%nat ->
  run (TouchStart down rect0 time0 :: touchMoves moves
       ++ [TouchStart two rect1 time1]) p = Some p' ->
  workMode p' = 2%nat
  /\ histories p' = histories p
  /\ redoHistories p' = redoHistories p
  /\ Brush._history (brush p') = None
  /\ canvas p' = canvas (redraw p)
  /\ position p' = position p.
Proof.
  intros Hlen Hanim Htwo H. rewrite run_gesture in H. simpl step in H.
  destruct (onTouchStartProxy down rect0 time0 p) as [p1 |] eqn:H1;
    [| discriminate].
  destruct (run (touchMoves moves) p1) as [p2 |] eqn:H2; [| discriminate].
  pose proof (touchStart_drawing _ _ _ _ _ Hlen Hanim H1) as Hd1.
  pose proof (touchMoves_drawing _ _ _ _ _ _ Hd1 H2) as Hd2.
  destruct Hd2 as (Hmode & (h & Hb & Hc & Hcfg & Hs & Hcan) & Hhs & Hrs & Hpos).
  unfold onTouchStartProxy in H.
  destruct (List.length (targetTouches two)) as [| [| n]] eqn:Hn;
    [lia | lia |].
  rewrite Hmode in H. simpl in H.
  destruct (computeFocus two rect1) as [focus |]; [| discriminate].
  unfold cleanCurrentDraw, Brush.cleanHistory in H. simpl in H.
  rewrite Hb in H. simpl in H.
  destruct (computeLength two rect1) as [len |]; [| discriminate].
  injection H as <-. simpl.
  repeat split; try assumption. rewrite Hhs. reflexivity.
Qed.

Lemma second_finger_discards_stroke_witness :
  run [Examples.pinchStart; Examples.pinchSecond] Examples.paper0
  = Some Examples.pinching0
  /\ workMode Examples.pinching0 = 2%nat
  /\ Brush._history (brush Examples.pinching0) = None.
Proof.
  assert (Hrun : run [Examples.pinchStart; Examples.pinchSecond] Examples.paper0
                 = Some Examples.pinching0).
  { change (run [Examples.pinchStart; Examples.pinchSecond] Examples.paper0)
      with (q <- step Examples.pinchStart Examples.paper0 ;;
            q' <- step Examples.pinchSecond q ;; Some q').
    rewrite ExampleFacts.pinch_down, ExampleFacts.pinch_second. reflexivity. }
  split; [exact Hrun |].
  destruct (second_finger_discards_stroke
              (Examples.touches [(150, 150)]) Examples.rect0 0 []
              (Examples.touches [(100, 150); (200, 150)]) Examples.rect0 0
              Examples.paper0 Examples.pinching0 eq_refl eq_refl
              (le_n 2) Hrun)
    as (Hm & _ & _ & Hb & _).
  split; assumption.
Defined.

Lemma idle_moves moves : forall p,
  workMode p = 0%nat -> run (touchMoves moves) p = Some p.
Proof.
  induction moves as [| m moves IH]; intros p Hmode; [reflexivity |].
  rewrite run_moves_cons. unfold onTouchMoveProxy. rewrite Hmode. simpl.
  apply IH. exact Hmode.
Qed.

(** X13: Two kinds of gesture are ignored from the touch down to the
    touch up, whatever the moves: one finger put down while an animation
    is live, which only puts the Paper at rest (work mode 0); and a touch
    down of any other number of fingers on a Paper at rest, which changes
    nothing at all. *)
Theorem gesture_ignored (down : TouchEvent) (rect0 : DOMRect) (time0 : Z)
  (moves : list (TouchEvent * DOMRect * Z)) (up : TouchEvent)
  (rect1 : DOMRect) (now : R) (p : Paper) :
  (List.length (targetTouches down) = 1%nat ->
   Animation.animating (animCtrl p) = true ->
   run (TouchStart down rect0 time0 :: touchMoves moves
        ++ [TouchEnd up rect1 now]) p = Some (set_workMode 0 p))
  /\
  (List.length (targetTouches down) <> 1%nat ->
   workMode p = 0%nat ->
   run (TouchStart down rect0 time0 :: touchMoves moves
        ++ [TouchEnd up rect1 now]) p = Some p).
Proof.
  split.
  - intros Hlen Hanim. rewrite run_gesture. simpl step.
    unfold onTouchStartProxy. rewrite Hlen, Hanim. simpl.
    rewrite idle_moves by reflexivity. reflexivity.
  - intros Hlen Hmode. rewrite run_gesture. simpl step.
    unfold onTouchStartProxy.
    apply Nat.eqb_neq in Hlen. rewrite Hlen, Hmode. simpl.
    rewrite idle_moves by exact Hmode.
    unfold onTouchEndProxy. rewrite Hmode. reflexivity.
Qed.

Lemma gesture_ignored_witness :
  run [TouchStart (Examples.touches [(150, 150)]) Examples.rect0 0;
       TouchMove (Examples.touches [(160, 150)]) Examples.rect0 1;
       TouchEnd (Examples.touches []) Examples.rect0 0] Examples.snapping0
  = Some (set_workMode 0 Examples.snapping0)
  /\
  run [TouchStart (Examples.touches [(100, 150); (200, 150)]) Examples.rect0 0;
       TouchEnd (Examples.touches []) Examples.rect0 0] Examples.paper0
  = Some Examples.paper0.
Proof.
  split.
  - apply (proj1 (gesture_ignored
                    (Examples.touches [(150, 150)]) Examples.rect0 0
                    [(Examples.touches [(160, 150)], Examples.rect0, 1%Z)]
                    (Examples.touches []) Examples.rect0 0 Examples.snapping0));
      reflexivity.
  - apply (proj2 (gesture_ignored
                    (Examples.touches [(100, 150); (200, 150)]) Examples.rect0 0
                    [] (Examples.touches []) Examples.rect0 0 Examples.paper0));
      [simpl; lia | reflexivity].
Defined.

(** X14: A brush that holds no stroke, made the current brush in the
    middle of a stroke, loses the stroke: the next move of the finger
    throws, and the touch up commits nothing and leaves the Paper as it
    is. *)
Theorem brush_swap_loses_stroke (b : Brush.Brush) (p : Paper) :
  workMode p = 1%nat -> Brush._history b = None ->
  (forall event rect time,
     step (TouchMove event rect time) (set_currentBrush b p) = None)
  /\
  (forall event rect now,
     step (TouchEnd event rect now) (set_currentBrush b p)
     = Some (set_currentBrush b p)).
Proof.
  intros Hmode Hb. split.
  - intros event rect time. simpl. unfold onTouchMoveProxy. simpl.
    rewrite Hmode. simpl.
    destruct (computeFocus event rect) as [focus |]; [| reflexivity].
    destruct (relativePositionToTimePoint _ _ _ _); [| reflexivity].
    unfold Brush.drawMove. rewrite Hb. reflexivity.
  - intros event rect now. simpl. unfold onTouchEndProxy. simpl.
    rewrite Hmode. simpl. unfold Brush.drawUp. rewrite Hb. simpl.
    rewrite Hb. f_equal. apply paper_ext; try reflexivity.
    simpl. destruct b as [cfg hist]. simpl in *. rewrite Hb. reflexivity.
Qed.

Lemma brush_swap_loses_stroke_witness :
  step (TouchMove (Examples.touches [(160, 150)]) Examples.rect0 1)
    (set_currentBrush (Brush.EraserBrush_default None) Examples.drawing0)
  = None.
Proof.
  apply (proj1 (brush_swap_loses_stroke (Brush.EraserBrush_default None)
                  Examples.drawing0 eq_refl eq_refl)).
Defined.

(** *** Undo and redo *)

Lemma undo_timeline (p : Paper) :
  fst (undo p) = canUndo p
  /\ (canUndo p = false -> snd (undo p) = p)
  /\ timeline (snd (undo p)) = timeline p
  /\ (canUndo p = true ->
      S (List.length (histories (snd (undo p)))) = List.length (histories p)
      /\ canRedo (snd (undo p)) = true /\ inSync (snd (undo p))).
Proof.
  unfold undo, canUndo, timeline.
  destruct (histories p) as [| a l] eqn:E.
  - simpl. rewrite ?E. repeat split; intros; try reflexivity; discriminate.
  - destruct (HistoryFacts.nonempty_last (a :: l)) as (l' & z & Hl);
      [discriminate |].
    rewrite Hl, HistoryFacts.pop_app.
    assert (Hpos : (0 <? List.length (l' ++ [z]))%nat = true)
      by (apply Nat.ltb_lt; rewrite length_app; simpl; lia).
    rewrite Hpos. simpl.
    split; [reflexivity |]. split; [discriminate |]. split.
    + rewrite rev_app_distr, <- app_assoc. reflexivity.
    + intros _. rewrite !length_app. simpl. split; [lia |].
      split; [| reflexivity].
      unfold canRedo. simpl. rewrite length_app. simpl.
      apply Nat.ltb_lt. lia.
Qed.

Lemma redo_timeline (p : Paper) :
  fst (redo p) = canRedo p
  /\ (canRedo p = false -> snd (redo p) = p)
  /\ timeline (snd (redo p)) = timeline p
  /\ (canRedo p = true ->
      S (List.length (redoHistories (snd (redo p))))
      = List.length (redoHistories p)
      /\ canUndo (snd (redo p)) = true /\ inSync (snd (redo p))).
Proof.
  unfold redo, canRedo, timeline.
  destruct (redoHistories p) as [| a l] eqn:E.
  - simpl. rewrite ?E. repeat split; intros; try reflexivity; discriminate.
  - destruct (HistoryFacts.nonempty_last (a :: l)) as (l' & z & Hl);
      [discriminate |].
    rewrite Hl, HistoryFacts.pop_app.
    assert (Hpos : (0 <? List.length (l' ++ [z]))%nat = true)
      by (apply Nat.ltb_lt; rewrite length_app; simpl; lia).
    rewrite Hpos. simpl.
    split; [reflexivity |]. split; [discriminate |]. split.
    + rewrite rev_app_distr, <- app_assoc. reflexivity.
    + intros _. rewrite !length_app. simpl. split; [lia |].
      split; [| reflexivity].
      unfold canUndo. simpl. rewrite length_app. simpl.
      apply Nat.ltb_lt. lia.
Qed.

(** X15: [undo] and [redo] return whether there was something to undo
    or to redo, and change nothing when there was not.  Neither loses,
    adds or reorders a stroke: the committed strokes followed by the
    undone ones, latest undone first, stay the same list through any
    sequence of the two, none of which throws; and each leaves the canvas
    showing the committed strokes when it returns true. *)
Theorem undo_redo_keep_timeline :
  (forall p,
     fst (undo p) = canUndo p /\ (canUndo p = false -> snd (undo p) = p)
     /\ fst (redo p) = canRedo p /\ (canRedo p = false -> snd (redo p) = p)
     /\ (canUndo p = true -> inSync (snd (undo p)))
     /\ (canRedo p = true -> inSync (snd (redo p))))
  /\
  (forall evs p,
     Forall (fun ev => ev = Undo \/ ev = Redo) evs ->
     exists p', run evs p = Some p' /\ timeline p' = timeline p
                /\ position p' = position p /\ brush p' = brush p).
Proof.
  split.
  - intros p.
    destruct (undo_timeline p) as (Hu1 & Hu2 & _ & Hu3).
    destruct (redo_timeline p) as (Hr1 & Hr2 & _ & Hr3).
    repeat split; try assumption.
    + intros H. apply (Hu3 H).
    + intros H. apply (Hr3 H).
  - induction evs as [| ev evs IH]; intros p Hall.
    + exists p. repeat split; reflexivity.
    + inversion Hall as [| ? ? Hev Hrest]; subst.
      assert (Hstep : exists q, step ev p = Some q /\ timeline q = timeline p
                                /\ position q = position p
                                /\ brush q = brush p).
      { destruct Hev as [-> | ->]; simpl; eexists; (split; [reflexivity |]).
        - split; [apply undo_timeline |].
          unfold undo. destruct (negb (canUndo p)); [split; reflexivity |].
          destruct (pop (histories p)) as [[item |] rest]; split; reflexivity.
        - split; [apply redo_timeline |].
          unfold redo. destruct (negb (canRedo p)); [split; reflexivity |].
          destruct (pop (redoHistories p)) as [[item |] rest]; split; reflexivity. }
      destruct Hstep as (q & Hq & Ht & Hp & Hb).
      destruct (IH q Hrest) as (p' & Hrun & Ht' & Hp' & Hb').
      exists p'. simpl. rewrite Hq.
      repeat split; [exact Hrun | congruence | congruence | congruence].
Qed.

Lemma undo_redo_keep_timeline_witness :
  exists p',
    run [Undo; Undo; Redo; Redo; Redo]
      (set_histories [Examples.stroke3] Examples.paper0) = Some p'
    /\ timeline p' = [Examples.stroke3].
Proof.
  destruct (proj2 undo_redo_keep_timeline [Undo; Undo; Redo; Redo; Redo]
              (set_histories [Examples.stroke3] Examples.paper0))
    as (p' & Hrun & Ht & _).
  { repeat (apply Forall_cons;
              [first [left; reflexivity | right; reflexivity] |]).
    apply Forall_nil. }
  exists p'. split; [exact Hrun | exact Ht].
Defined.

Lemma length_redraw (hs : list Brush.BrushHistory) : forall canvas,
  List.length (fold_left redrawItem hs canvas)
  = (List.length canvas + list_sum (map curves hs))%nat.
Proof.
  induction hs as [| h hs IH]; intros canvas; [simpl; lia |].
  simpl. rewrite IH, redrawItem_drawPoints, CaptureFacts.length_drawPoints.
  unfold curves, Brush.count. lia.
Qed.

(** X16: [redraw] clears the canvas and strokes, for every committed
    stroke in order, one curve for every three points in a row: as many
    curves as the stroke has points, less two, and none for a stroke of
    two points or fewer.  It changes nothing but the canvas, and a second
    [redraw] changes nothing. *)
Theorem redraw_curve_count (p : Paper) :
  List.length (canvas (redraw p)) = list_sum (map curves (histories p))
  /\ (forall h, Brush.valid h = false -> redrawItem (canvas p) h = canvas p)
  /\ redraw p = set_canvas (canvas (redraw p)) p
  /\ redraw (redraw p) = redraw p.
Proof.
  split; [| split; [| split]].
  - unfold redraw. simpl. rewrite length_redraw. reflexivity.
  - intros h V. unfold redrawItem. rewrite V. reflexivity.
  - reflexivity.
  - reflexivity.
Qed.

End GestureFacts.

(** ** The layout of the image in its root *)

Module LayoutFacts.

Import Dom Paper Animation LayoutSpec.

Lemma quotient (a b : R) : b <> 0 -> exists q, a / b = q /\ q * b = a.
Proof. intros Hb. exists (a / b). split; [reflexivity | field; exact Hb]. Qed.

Lemma set_position_id (p : Paper) : set_position (position p) p = p.
Proof. destruct p; reflexivity. Qed.

(** What [loadSizeAndPosition] computes, the divisions done. *)
Lemma loadSizeAndPosition_eq (p : Paper) :
  offsetHeight (root p) <> 0 -> width p <> 0 -> height p <> 0 ->
  let rw := offsetWidth (root p) in
  let rh := offsetHeight (root p) in
  let ow := if Num.ltb (width p / height p) (rw / rh)
            then width p * rh / height p else rw in
  let oh := if Num.ltb (width p / height p) (rw / rh)
            then rh else height p * rw / width p in
  loadSizeAndPosition p
  = Some (set_position
            (Position.mk ((rw - ow) / 2) ((rh - oh) / 2) (ow / width p)
               (Position.x (position p)) (Position.y (position p))
               (Position.scale (position p)) ow oh)
            p).
Proof.
  intros Hrh Hw Hh. cbv zeta. unfold loadSizeAndPosition.
  rewrite (NumFacts.div_some _ _ Hrh), (NumFacts.div_some _ _ Hh).
  destruct (Num.ltb (width p / height p)
              (offsetWidth (root p) / offsetHeight (root p))).
  - rewrite (NumFacts.div_some _ _ Hh), (NumFacts.div_some _ _ Hw). reflexivity.
  - rewrite !(NumFacts.div_some _ _ Hw). reflexivity.
Qed.

Lemma loadSizeAndPosition_inv (p p' : Paper) :
  loadSizeAndPosition p = Some p' ->
  offsetHeight (root p) <> 0 /\ width p <> 0 /\ height p <> 0.
Proof.
  unfold loadSizeAndPosition. intros H.
  destruct (Num.div (offsetWidth (root p)) (offsetHeight (root p))) eqn:E1;
    [| discriminate].
  destruct (Num.div (width p) (height p)) eqn:E2; [| discriminate].
  apply NumFacts.div_inv in E1, E2.
  split; [tauto |]. split; [| tauto].
  destruct (Num.ltb r0 r).
  - destruct (Num.div (width p * offsetHeight (root p)) (height p));
      [| discriminate].
    destruct (Num.div r1 (width p)) eqn:E3; [| discriminate].
    apply NumFacts.div_inv in E3. tauto.
  - destruct (Num.div (height p * offsetWidth (root p)) (width p)) eqn:E3;
      [| discriminate].
    apply NumFacts.div_inv in E3. tauto.
Qed.

(** What [loadSizeAndPosition] makes of a root and an image of positive
    sizes. *)
Lemma loadSizeAndPosition_fit (p : Paper) :
  0 < offsetWidth (root p) -> 0 < offsetHeight (root p) ->
  0 < width p -> 0 < height p ->
  exists pos,
    loadSizeAndPosition p = Some (set_position pos p)
    /\ 0 < Position.width pos <= offsetWidth (root p)
    /\ 0 < Position.height pos <= offsetHeight (root p)
    /\ (Position.width pos = offsetWidth (root p)
        \/ Position.height pos = offsetHeight (root p))
    /\ 0 <= Position.ox pos
    /\ Position.ox pos + Position.width pos + Position.ox pos
       = offsetWidth (root p)
    /\ 0 <= Position.oy pos
    /\ Position.oy pos + Position.height pos + Position.oy pos
       = offsetHeight (root p)
    /\ 0 < Position.oScale pos
    /\ Position.width pos = Position.oScale pos * width p
    /\ Position.height pos = Position.oScale pos * height p.
Proof.
  intros Hrw Hrh Hw Hh.
  rewrite loadSizeAndPosition_eq by lra. cbv zeta.
  eexists. split; [reflexivity |]. cbn [Position.x Position.y Position.scale
    Position.width Position.height Position.ox Position.oy Position.oScale].
  set (rw := offsetWidth (root p)) in *. set (rh := offsetHeight (root p)) in *.
  set (iw := width p) in *. set (ih := height p) in *.
  destruct (quotient iw ih) as (a & Ea & Ha); [lra |].
  destruct (quotient rw rh) as (b & Eb & Hb); [lra |].
  rewrite Ea, Eb.
  destruct (Num.ltb a b) eqn:E.
  - apply NumFacts.ltb_lt in E.
    destruct (quotient (iw * rh) ih) as (ow & Eow & How); [lra |].
    rewrite Eow.
    destruct (quotient ow iw) as (s & Es & Hs); [lra |].
    rewrite Es.
    assert (Hihrh : 0 < ih * rh) by (apply Rmult_lt_0_compat; lra).
    assert (Hc : iw * rh < rw * ih).
    { assert (0 < (b - a) * (ih * rh)) by (apply Rmult_lt_0_compat; lra).
      rewrite <- Ha, <- Hb. lra. }
    assert (Hpos : 0 < ow) by nra.
    assert (Hle : ow < rw) by nra.
    assert (Hspos : 0 < s) by nra.
    assert (Hsh : s * ih = rh) by nra.
    repeat split; try lra; nra.
  - apply NumFacts.ltb_ge in E.
    destruct (quotient (ih * rw) iw) as (oh & Eoh & Hoh); [lra |].
    rewrite Eoh.
    destruct (quotient rw iw) as (s & Es & Hs); [lra |].
    rewrite Es.
    assert (Hihrh : 0 < ih * rh) by (apply Rmult_lt_0_compat; lra).
    assert (Hc : rw * ih <= iw * rh).
    { assert (0 <= (a - b) * (ih * rh)) by (apply Rmult_le_pos; lra).
      rewrite <- Ha, <- Hb. lra. }
    assert (Hpos : 0 < oh) by nra.
    assert (Hle : oh <= rh) by nra.
    assert (Hspos : 0 < s) by nra.
    assert (Hsh : s * ih = oh) by nra.
    repeat split; try lra; nra.
Qed.

(** X17: In a root and for an image of positive sizes,
    [loadSizeAndPosition] fits the image into the root: the box it
    assigns has the proportions of the image, is no wider and no higher
    than the root and as wide or as high as it, and is centred in it; the
    base scale is the width of the box over that of the image, which is
    also the ratio of the heights.  The pan and the zoom of the user are
    left as they were, and so is everything else. *)
Theorem loadSizeAndPosition_fits (p : Paper) :
  0 < offsetWidth (root p) -> 0 < offsetHeight (root p) ->
  0 < width p -> 0 < height p ->
  exists pos,
    loadSizeAndPosition p = Some (set_position pos p)
    /\ Position.x pos = Position.x (position p)
    /\ Position.y pos = Position.y (position p)
    /\ Position.scale pos = Position.scale (position p)
    /\ 0 < Position.width pos <= offsetWidth (root p)
    /\ 0 < Position.height pos <= offsetHeight (root p)
    /\ (Position.width pos = offsetWidth (root p)
        \/ Position.height pos = offsetHeight (root p))
    /\ Position.width pos * height p = Position.height pos * width p
    /\ 0 <= Position.ox pos
    /\ Position.ox pos + Position.width pos + Position.ox pos
       = offsetWidth (root p)
    /\ 0 <= Position.oy pos
    /\ Position.oy pos + Position.height pos + Position.oy pos
       = offsetHeight (root p)
    /\ 0 < Position.oScale pos
    /\ Position.width pos = Position.oScale pos * width p
    /\ Position.height pos = Position.oScale pos * height p.
Proof.
  intros Hrw Hrh Hw Hh.
  destruct (loadSizeAndPosition_fit p Hrw Hrh Hw Hh)
    as (pos & Hload & Hpw & Hph & Hd & Hox & Hox' & Hoy & Hoy' & HoS
        & Hws & Hhs).
  exists pos. split; [exact Hload |].
  assert (Hpos : Position.x pos = Position.x (position p)
                 /\ Position.y pos = Position.y (position p)
                 /\ Position.scale pos = Position.scale (position p)).
  { rewrite loadSizeAndPosition_eq in Hload by lra. cbv zeta in Hload.
    injection Hload as Hload. rewrite <- Hload. repeat split. }
  destruct Hpos as (Hx & Hy & Hs).
  repeat (split; [assumption |]).
  split; [rewrite Hws, Hhs; ring |].
  repeat (split; [assumption |]). assumption.
Qed.

Lemma loadSizeAndPosition_fits_witness :
  loadSizeAndPosition Examples.paper0 = Some Examples.paper0.
Proof.
  destruct (loadSizeAndPosition_fits Examples.paper0)
    as (pos & Hload & Hx & Hy & Hs & Hw & Hh & Hd & Hr & Hox & Hox' & Hoy
        & Hoy' & HoS & Hws & Hhs);
    [simpl; lra | simpl; lra | simpl; lra | simpl; lra |].
  rewrite Hload. f_equal. simpl in *.
  destruct pos as [ox oy oScale x y scale w h]. simpl in *.
  apply paper_ext; try reflexivity. simpl.
  assert (Ew : w = 300) by (destruct Hd; lra).
  assert (Eh : h = 240) by lra.
  f_equal; lra.
Defined.

(** *** The frame of the view through the events *)

Lemma sameBase_refl pos : sameBase pos pos.
Proof. repeat split. Qed.

Lemma sameBase_trans a b c : sameBase a b -> sameBase b c -> sameBase a c.
Proof.
  intros (A1 & A2 & A3 & A4 & A5) (B1 & B2 & B3 & B4 & B5).
  repeat split; congruence.
Qed.

Lemma sameBase_set_xys x y s pos : sameBase (Position.set_xys x y s pos) pos.
Proof. repeat split. Qed.

Lemma keeps_lerp sx sy ss ex ey es : keeps (lerp sx sy ss ex ey es).
Proof. intros value pos. apply sameBase_set_xys. Qed.

Lemma keeps_jump ex ey es : keeps (jump ex ey es).
Proof. intros value pos. apply sameBase_set_xys. Qed.

Lemma keeps_cancel i h : keeps_holder h -> keeps_holder (cancel i h).
Proof. unfold cancel. destruct (id h =? i)%nat; intros H; exact H. Qed.

Lemma keeps_reset (c : AnimationController) :
  Forall keeps_holder (pending c) -> Forall keeps_holder (pending (reset c)).
Proof.
  intros H. unfold reset. destruct (holder c); [| exact H]. simpl.
  apply Forall_map. eapply Forall_impl; [| exact H].
  intros h. apply keeps_cancel.
Qed.

Lemma animateTo_frame ex ey es maxDuration lost now p :
  sameImage p (animateTo ex ey es maxDuration lost now p)
  /\ sameFrame p (animateTo ex ey es maxDuration lost now p)
  /\ (Forall keeps_holder (pending (animCtrl p)) ->
      Forall keeps_holder
        (pending (animCtrl (animateTo ex ey es maxDuration lost now p)))).
Proof.
  unfold animateTo.
  destruct (Num.leb _ 0);
    [split; [repeat split | split; [repeat split | auto]] |].
  destruct (Num.ltb _ 16).
  - split; [repeat split |]. split; [| auto].
    split; [reflexivity | apply sameBase_set_xys].
  - split; [repeat split |]. split; [repeat split |].
    simpl. intros H. unfold execute.
    destruct (animating (animCtrl p)); [exact H |]. simpl.
    apply Forall_app. split; [exact H |]. constructor; [| constructor].
    split; [apply keeps_lerp |]. split; [exact I |].
    destruct lost; [exact I | apply keeps_jump].
Qed.

Lemma touchStart_frame (event : TouchEvent) (rect : DOMRect) (time : Z)
  (p p' : Paper) :
  onTouchStartProxy event rect time p = Some p' ->
  sameImage p p' /\ position p' = position p /\ root p' = root p
  /\ animCtrl p' = animCtrl p.
Proof.
  intros H. unfold onTouchStartProxy, cleanCurrentDraw, Brush.cleanHistory in H.
  inv_some H; injection H as <-; try (repeat split; fail);
    destruct (Brush._history (brush p)); repeat split.
Qed.

Lemma touchMove_frame (event : TouchEvent) (rect : DOMRect) (time : Z)
  (p p' : Paper) :
  onTouchMoveProxy event rect time p = Some p' ->
  sameImage p p' /\ sameFrame p p' /\ animCtrl p' = animCtrl p.
Proof.
  intros H. unfold onTouchMoveProxy in H.
  destruct (workMode p =? 0)%nat;
    [injection H as <-; split; [repeat split |
       split; [repeat split | reflexivity]] |].
  destruct (workMode p =? 1)%nat.
  - inv_some H. injection H as <-. repeat split.
  - destruct (computeFocus event rect) as [focus |]; [| discriminate].
    match type of H with
    | match ?c with Some _ => _ | None => None end = Some _ =>
        destruct c as [[[updated delta] q] |] eqn:Es; [| discriminate]
    end.
    assert (Hq : sameImage p q /\ sameFrame p q /\ animCtrl q = animCtrl p).
    { inv_some Es; injection Es as <- <- <-; repeat split. }
    injection H as <-.
    destruct Hq as ((H1 & H2 & H3 & H4) & (H5 & H6) & H7).
    destruct (updated || _); simpl.
    + split; [repeat split; assumption |]. split; [| assumption].
      split; [assumption |].
      apply (sameBase_trans _ (position q)); [repeat split | exact H6].
    + split; [repeat split; assumption |]. split; [| assumption].
      split; assumption.
Qed.

Lemma touchEnd_frame (event : TouchEvent) (rect : DOMRect) (now : R)
  (p p' : Paper) :
  onTouchEndProxy event rect now p = Some p' ->
  sameImage p p' /\ sameFrame p p'
  /\ (Forall keeps_holder (pending (animCtrl p)) ->
      Forall keeps_holder (pending (animCtrl p'))).
Proof.
  intros H. unfold onTouchEndProxy in H.
  destruct (workMode p =? 0)%nat;
    [injection H as <-; split; [repeat split |
       split; [repeat split | auto]] |].
  destruct (workMode p =? 1)%nat.
  - inv_some H. unfold Brush.cleanHistory in *.
    match goal with E : (_, _) = (_, _) |- _ => injection E as <- <- end.
    destruct (Brush._history (fst _)); injection H as <-;
      (split; [repeat split | split; [repeat split | auto]]).
  - destruct (1 <? _)%nat;
      [inv_some H; injection H as <-;
       split; [repeat split | split; [repeat split | auto]] |].
    destruct (0 <? _)%nat;
      [inv_some H; injection H as <-;
       split; [repeat split | split; [repeat split | auto]] |].
    unfold overBound in H.
    destruct (overBoundTarget p) as [[[ex ey] es] |]; [| discriminate].
    injection H as <-. apply animateTo_frame.
Qed.

Lemma frame_keeps now h pos c pos' c' :
  keeps_holder h -> Forall keeps_holder (pending c) ->
  frame now h (pos, c) = Some (pos', c') ->
  sameBase pos' pos /\ Forall keeps_holder (pending c').
Proof.
  intros (Kf & Kc & Kx) Hall H. unfold frame in H.
  destruct (Num.div _ _) as [value |]; [| discriminate].
  assert (Hcall : forall cb v q, keeps_opt cb -> sameBase (call cb v q) q).
  { intros [f |] v q K; simpl; [apply K | apply sameBase_refl]. }
  assert (Hclean : pending (cleanFinishAnimation h c) = pending c).
  { unfold cleanFinishAnimation. destruct (holder c) as [i |]; [| reflexivity].
    destruct (i =? id h)%nat; reflexivity. }
  destruct (Num.leb 1 value).
  - injection H as <- <-. rewrite Hclean. split; [| exact Hall].
    eapply sameBase_trans; [apply Hcall; exact Kc | apply Kf].
  - destruct (canceled h).
    + injection H as <- <-. rewrite Hclean. split; [| exact Hall].
      eapply sameBase_trans; [apply Hcall; exact Kx | apply Kf].
    + injection H as <- <-. simpl. split; [apply Kf |].
      apply Forall_app. split; [exact Hall |].
      constructor; [exact (conj Kf (conj Kc Kx)) | constructor].
Qed.

Lemma animationFrame_frame now p p' :
  Forall keeps_holder (pending (animCtrl p)) ->
  animationFrame now p = Some p' ->
  sameImage p p' /\ sameFrame p p'
  /\ Forall keeps_holder (pending (animCtrl p')).
Proof.
  intros Hall H. unfold animationFrame in H.
  destruct (pending (animCtrl p)) as [| h rest] eqn:Ep.
  - injection H as <-. rewrite Ep.
    split; [repeat split | split; [repeat split | constructor]].
  - destruct (frame now h _) as [[pos' c'] |] eqn:Ef; [| discriminate].
    injection H as <-. inversion Hall as [| ? ? Kh Krest]; subst.
    destruct (frame_keeps now h (position p)
                (mkController (holder (animCtrl p)) rest (fresh (animCtrl p)))
                pos' c' Kh Krest Ef) as [Hb Hk].
    split; [repeat split |]. split; [| exact Hk].
    split; [reflexivity | exact Hb].
Qed.

Lemma Fitted_transfer (p p' : Paper) :
  Fitted p -> sameImage p p' -> sameFrame p p' ->
  Forall keeps_holder (pending (animCtrl p')) -> Fitted p'.
Proof.
  intros (Hload & Hw & Hh & _) (_ & Ew & Eh & _) (Er & B1 & B2 & B3 & B4 & B5) Hk.
  destruct (loadSizeAndPosition_inv _ _ Hload) as (Nrh & Nw & Nh).
  pose proof Hload as Hpos.
  rewrite (loadSizeAndPosition_eq p Nrh Nw Nh) in Hpos. cbv zeta in Hpos.
  apply (f_equal (option_map position)) in Hpos. simpl in Hpos.
  injection Hpos as Hpos.
  split; [| split; [lra | split; [lra | exact Hk]]].
  rewrite loadSizeAndPosition_eq by (rewrite ?Er, ?Ew, ?Eh; assumption).
  cbv zeta. rewrite Er, Ew, Eh. f_equal.
  transitivity (set_position (position p') p'); [| apply set_position_id].
  f_equal. rewrite <- Hpos in B1, B2, B3, B4, B5.
  cbn [Position.ox Position.oy Position.oScale Position.width Position.height]
    in B1, B2, B3, B4, B5.
  destruct (position p') as [ox oy oScale x y scale w h].
  cbn [Position.ox Position.oy Position.oScale Position.width Position.height
       Position.x Position.y Position.scale] in *.
  rewrite <- B1, <- B2, <- B3, <- B4, <- B5. reflexivity.
Qed.

Lemma Fitted_load (p q : Paper) :
  0 < width p -> 0 < height p ->
  loadSizeAndPosition p = Some q -> loadSizeAndPosition q = Some q.
Proof.
  intros Hw Hh H.
  destruct (loadSizeAndPosition_inv _ _ H) as (Nrh & Nw & Nh).
  rewrite (loadSizeAndPosition_eq p Nrh Nw Nh) in H. cbv zeta in H.
  injection H as <-.
  rewrite loadSizeAndPosition_eq by assumption. reflexivity.
Qed.

Lemma initImageAndCanvas_pos image w h :
  initImageAndCanvas image = Some (w, h) -> 0 < w /\ 0 < h.
Proof.
  unfold initImageAndCanvas.
  destruct image as [complete nw nh | bw bh]; intros H.
  - destruct complete; simpl in H; [| discriminate].
    destruct (Num.leb nw 0) eqn:E1; [discriminate |].
    destruct (Num.leb nh 0) eqn:E2; [discriminate |].
    injection H as <- <-. apply NumFacts.leb_gt in E1, E2. split; assumption.
  - destruct (Num.leb bw 0) eqn:E1; [discriminate |].
    destruct (Num.leb bh 0) eqn:E2; [discriminate |].
    injection H as <- <-. apply NumFacts.leb_gt in E1, E2. split; assumption.
Qed.

Lemma Fitted_new root image maxScale brush history p :
  new root image maxScale brush history = Some p ->
  Fitted p /\ initImageAndCanvas image = Some (width p, height p)
  /\ Paper.image p = image /\ Paper.root p = root.
Proof.
  intros H. unfold new in H.
  destruct (initImageAndCanvas image) as [[w h] |] eqn:Ei; [| discriminate].
  destruct (initImageAndCanvas_pos _ _ _ Ei) as [Hw Hh].
  match type of H with
  | match loadSizeAndPosition ?q with Some _ => _ | None => None end = Some _ =>
      destruct (loadSizeAndPosition q) as [p1 |] eqn:El; [| discriminate];
      pose proof (Fitted_load q p1 Hw Hh El) as Hfit;
      destruct (HistoryFacts.loadSizeAndPosition_same _ _ El)
        as [(_ & _ & Hc & _ & Hr) _];
      destruct (ExportFacts.loadSizeAndPosition_size _ _ El) as [Ew Eh];
      assert (Eimg : Paper.image p1 = image)
        by (destruct (loadSizeAndPosition_inv _ _ El) as (Nrh & Nw & Nh);
            rewrite (loadSizeAndPosition_eq q Nrh Nw Nh) in El;
            injection El as <-; reflexivity)
  end.
  simpl in Ew, Eh, Hc, Hr.
  injection H as <-.
  assert (Hgoal : forall q, sameImage p1 q -> sameFrame p1 q ->
                            animCtrl q = animCtrl p1 ->
                            Fitted q
                            /\ Some (w, h) = Some (width q, height q)
                            /\ Paper.image q = image /\ Paper.root q = root).
  { intros q Hi Hf Ha. split.
    - apply (Fitted_transfer p1); try assumption.
      + split; [exact Hfit |]. rewrite Ew, Eh.
        split; [exact Hw |]. split; [exact Hh |]. rewrite Hc. constructor.
      + rewrite Ha, Hc. constructor.
    - destruct Hi as (Hi1 & Hi2 & Hi3 & _). destruct Hf as [Hf _].
      rewrite Hi2, Hi3, Ew, Eh, Hi1, Hf, Hr. repeat split. exact Eimg. }
  destruct history as [hs |]; [| apply Hgoal; repeat split].
  destruct (negb _ || negb _); apply Hgoal; repeat split.
Qed.

Lemma Fitted_step ev p p' :
  Fitted p -> step ev p = Some p' -> Fitted p' /\ sameImage p p'.
Proof.
  intros HF H. pose proof HF as (Hload & Hw & Hh & Hk).
  destruct ev; simpl in H.
  - apply touchStart_frame in H. destruct H as (Hi & Hp & Hr & Ha).
    split; [| exact Hi]. apply (Fitted_transfer p); try assumption.
    + split; [exact Hr |]. rewrite Hp. apply sameBase_refl.
    + rewrite Ha. exact Hk.
  - apply touchMove_frame in H. destruct H as (Hi & Hf & Ha).
    split; [| exact Hi]. apply (Fitted_transfer p); try assumption.
    rewrite Ha. exact Hk.
  - apply touchEnd_frame in H. destruct H as (Hi & Hf & Ha).
    split; [| exact Hi]. apply (Fitted_transfer p); auto.
  - apply touchEnd_frame in H. destruct H as (Hi & Hf & Ha).
    split; [| exact Hi]. apply (Fitted_transfer p); auto.
  - unfold onResize in H.
    match type of H with
    | match loadSizeAndPosition ?q0 with Some _ => _ | None => None end = _ =>
        destruct (loadSizeAndPosition q0) as [q |] eqn:El; [| discriminate];
        pose proof (Fitted_load q0 q Hw Hh El) as Hq
    end.
    injection H as <-.
    destruct (HistoryFacts.loadSizeAndPosition_same _ _ El)
      as [(_ & _ & Hc & Hm & Hr) _].
    destruct (ExportFacts.loadSizeAndPosition_size _ _ El) as [Ew Eh].
    assert (Eimg : Paper.image q = image p).
    { destruct (loadSizeAndPosition_inv _ _ El) as (Nrh & Nw & Nh).
      rewrite (loadSizeAndPosition_eq _ Nrh Nw Nh) in El.
      injection El as <-. reflexivity. }
    simpl in Ew, Eh, Hc, Hm, Hr.
    split; [| repeat split; simpl; assumption].
    apply (Fitted_transfer q).
    + split; [exact Hq |]. rewrite Ew, Eh.
      split; [exact Hw |]. split; [exact Hh |]. rewrite Hc. exact Hk.
    + repeat split.
    + split; [reflexivity | apply sameBase_set_xys].
    + simpl. rewrite Hc. exact Hk.
  - destruct (animationFrame_frame _ _ _ Hk H) as (Hi & Hf & Ha).
    split; [| exact Hi]. apply (Fitted_transfer p); assumption.
  - injection H as <-. unfold undo.
    destruct (negb (canUndo p)); [split; [exact HF | repeat split] |].
    destruct (pop (histories p)) as [[item |] rest];
      [| split; [exact HF | repeat split]].
    split; [| repeat split]. apply (Fitted_transfer p); try assumption;
      [repeat split | repeat split].
  - injection H as <-. unfold redo.
    destruct (negb (canRedo p)); [split; [exact HF | repeat split] |].
    destruct (pop (redoHistories p)) as [[item |] rest];
      [| split; [exact HF | repeat split]].
    split; [| repeat split]. apply (Fitted_transfer p); try assumption;
      [repeat split | repeat split].
  - injection H as <-. unfold fitCenter.
    destruct (animateTo_frame 0 0 1 200 false now
                (set_animCtrl (reset (animCtrl p)) p)) as (Hi & Hf & Ha).
    split; [| exact Hi]. apply (Fitted_transfer p); try assumption.
    apply Ha. simpl. apply keeps_reset. exact Hk.
  - injection H as <-. split; [| repeat split].
    apply (Fitted_transfer p); try assumption;
      [repeat split | repeat split].
Qed.

Lemma sameImage_trans p q r : sameImage p q -> sameImage q r -> sameImage p r.
Proof.
  intros (A1 & A2 & A3 & A4) (B1 & B2 & B3 & B4). repeat split; congruence.
Qed.

Lemma Fitted_run evs : forall p p',
  Fitted p -> run evs p = Some p' -> Fitted p' /\ sameImage p p'.
Proof.
  induction evs as [| ev evs IH]; intros p p' HF H; simpl in H.
  - injection H as <-. split; [exact HF | repeat split].
  - destruct (step ev p) as [q |] eqn:E; [| discriminate].
    destruct (Fitted_step _ _ _ HF E) as [HF' Hi].
    destruct (IH _ _ HF' H) as [HF'' Hi'].
    split; [exact HF'' | eapply sameImage_trans; eassumption].
Qed.

Lemma Fitted_reachable p :
  reachable p ->
  Fitted p /\ initImageAndCanvas (image p) = Some (width p, height p).
Proof.
  induction 1 as [root image maxScale brush history p H | ev p p' _ IH H].
  - destruct (Fitted_new _ _ _ _ _ _ H) as (HF & Hi & Himg & _).
    split; [exact HF |]. rewrite Himg. exact Hi.
  - destruct IH as [HF Hi].
    destruct (Fitted_step _ _ _ HF H) as [HF' (E1 & E2 & E3 & _)].
    split; [exact HF' |]. rewrite E1, E2, E3. exact Hi.
Qed.

(** X18: In a root of positive sizes the constructor throws exactly when
    the image is not usable: an image element that is not complete or has
    a natural size that is not positive, a bitmap with a size that is not
    positive.  The Paper it makes otherwise is at rest, with no animation,
    nothing to redo, no pan and a zoom of 1; it takes the strokes of the
    history it is given when that has the sizes of the image, and no
    stroke at all when it has other sizes (or when there is no history);
    and its canvas shows exactly the strokes it took. *)
Theorem new_constructs (root : Element) (image : InputImage)
  (maxScale : option R) (brush : option Brush.Brush)
  (history : option PaperHistory.t) :
  0 < offsetWidth root -> 0 < offsetHeight root ->
  (new root image maxScale brush history = None
   <-> match image with
       | HTMLImageElement complete w h => complete = false \/ w <= 0 \/ h <= 0
       | ImageBitmap w h => w <= 0 \/ h <= 0
       end)
  /\
  (forall p, new root image maxScale brush history = Some p ->
     workMode p = 0%nat
     /\ animCtrl p = Animation.create
     /\ redoHistories p = []
     /\ Position.x (position p) = 0 /\ Position.y (position p) = 0
     /\ Position.scale (position p) = 1
     /\ Paper.brush p
        = match brush with
          | Some b => b
          | None => Brush.MarkingBrush_default None
          end
     /\ GestureSpec.inSync p
     /\ match history with
        | None => histories p = []
        | Some hs =>
            (PaperHistory.width hs = width p
             /\ PaperHistory.height hs = height p ->
             histories p = PaperHistory.histories hs)
            /\ (PaperHistory.width hs <> width p
                \/ PaperHistory.height hs <> height p ->
                histories p = [] /\ canvas p = [])
        end).
Proof.
  intros Hrw Hrh.
  assert (Himg : initImageAndCanvas image = None
                 <-> match image with
                     | HTMLImageElement complete w h =>
                         complete = false \/ w <= 0 \/ h <= 0
                     | ImageBitmap w h => w <= 0 \/ h <= 0
                     end).
  { unfold initImageAndCanvas. destruct image as [complete w h | w h].
    - destruct complete; simpl.
      + destruct (Num.leb w 0) eqn:E1; simpl.
        * apply NumFacts.leb_le in E1. split; [tauto | reflexivity].
        * apply NumFacts.leb_gt in E1.
          destruct (Num.leb h 0) eqn:E2.
          -- apply NumFacts.leb_le in E2. split; [tauto | reflexivity].
          -- apply NumFacts.leb_gt in E2. split; [discriminate |].
             intros [? | [? | ?]]; [discriminate | lra | lra].
      + split; [tauto | reflexivity].
    - destruct (Num.leb w 0) eqn:E1; simpl.
      + apply NumFacts.leb_le in E1. split; [tauto | reflexivity].
      + apply NumFacts.leb_gt in E1.
        destruct (Num.leb h 0) eqn:E2.
        * apply NumFacts.leb_le in E2. split; [tauto | reflexivity].
        * apply NumFacts.leb_gt in E2. split; [discriminate |].
          intros [? | ?]; lra. }
  rewrite <- Himg. clear Himg. unfold new.
  destruct (initImageAndCanvas image) as [[w h] |] eqn:Ei;
    [| split; [tauto | discriminate]].
  destruct (initImageAndCanvas_pos _ _ _ Ei) as [Hw Hh].
  match goal with
  | |- context [loadSizeAndPosition ?q] =>
      rewrite (loadSizeAndPosition_eq q) by (simpl; lra)
  end.
  cbv zeta.
  split.
  { split; [| discriminate]. destruct history as [hs |]; [| discriminate].
    simpl. destruct (negb _ || negb _); discriminate. }
  intros p H.
  destruct history as [hs |].
  - simpl in H.
    destruct (Num.eqb (PaperHistory.width hs) w) eqn:E1;
      [apply NumFacts.eqb_eq in E1 | apply NumFacts.eqb_neq in E1];
      (destruct (Num.eqb (PaperHistory.height hs) h) eqn:E2;
       [apply NumFacts.eqb_eq in E2 | apply NumFacts.eqb_neq in E2]);
      simpl in H; injection H as <-; simpl;
      repeat (split; [reflexivity |]); repeat split; intros;
      first [reflexivity | exfalso; tauto].
  - injection H as <-. simpl. repeat (split; [reflexivity |]).
    split; reflexivity.
Qed.

Lemma new_constructs_witness :
  new (mkElement 300 300) (ImageBitmap 0 800) None None None = None
  /\ new (mkElement 300 300) (HTMLImageElement false 1000 800) None None None
     = None.
Proof.
  split.
  - apply (proj1 (new_constructs (mkElement 300 300) (ImageBitmap 0 800)
                    None None None ltac:(simpl; lra) ltac:(simpl; lra))).
    left. lra.
  - apply (proj1 (new_constructs (mkElement 300 300)
                    (HTMLImageElement false 1000 800)
                    None None None ltac:(simpl; lra) ltac:(simpl; lra))).
    left. reflexivity.
Defined.

(** X19: What the constructor takes from the image and its arguments is
    never assigned again: through any events, the image, the sizes of the
    drawing, which are those of the image, and the largest zoom, which is
    the argument clamped into [[1.5, 3]] (2 without one), stay what they
    were made. *)
Theorem constructed_once (root : Element) (image : InputImage)
  (maxScale : option R) (brush : option Brush.Brush)
  (history : option PaperHistory.t) (evs : list Event) (p p' : Paper) :
  new root image maxScale brush history = Some p ->
  run evs p = Some p' ->
  Paper.image p' = image
  /\ initImageAndCanvas image = Some (width p', height p')
  /\ 0 < width p' /\ 0 < height p'
  /\ Paper.maxScale p'
     = Num.clampNumber (match maxScale with Some m => m | None => 2 end) 1.5 3
  /\ 1.5 <= Paper.maxScale p' <= 3.
Proof.
  intros Hnew Hrun.
  destruct (Fitted_new _ _ _ _ _ _ Hnew) as (HF & Hi & Himg & _).
  destruct (Fitted_run _ _ _ HF Hrun) as [HF' (E1 & E2 & E3 & E4)].
  destruct (InvFacts.Inv_new _ _ _ _ _ _ Hnew) as [_ Hm].
  destruct HF' as (_ & Hw & Hh & _).
  rewrite E1, E2, E3, E4, Hm.
  split; [exact Himg |]. split; [exact Hi |].
  split; [rewrite <- E2; exact Hw |]. split; [rewrite <- E3; exact Hh |].
  split; [reflexivity | apply InvFacts.clamp_maxScale].
Qed.

Lemma constructed_once_witness :
  Paper.maxScale Examples.zoomed0 = Num.clampNumber 2 1.5 3
  /\ width Examples.zoomed0 = 1000.
Proof.
  assert (Hrun : run [Examples.pinchStart; Examples.pinchSecond;
                      TouchMove (fst (fst Examples.pinchMove))
                        (snd (fst Examples.pinchMove))
                        (snd Examples.pinchMove)] Examples.paper0
                 = Some Examples.zoomed0).
  { change (run [Examples.pinchStart; Examples.pinchSecond;
                 TouchMove (fst (fst Examples.pinchMove))
                   (snd (fst Examples.pinchMove)) (snd Examples.pinchMove)]
              Examples.paper0)
      with (q <- step Examples.pinchStart Examples.paper0 ;;
            q' <- step Examples.pinchSecond q ;;
            q'' <- step (TouchMove (fst (fst Examples.pinchMove))
                           (snd (fst Examples.pinchMove))
                           (snd Examples.pinchMove)) q' ;;
            Some q'').
    rewrite ExampleFacts.pinch_down, ExampleFacts.pinch_second,
      ExampleFacts.pinch_move. reflexivity. }
  destruct (constructed_once _ _ _ _ _ _ _ _ ExampleFacts.new_paper0 Hrun)
    as (_ & Hi & _ & _ & Hm & _).
  split; [exact Hm |]. reflexivity.
Defined.

(** X20: On every Paper that the constructor and the events can make,
    the layout is up to date: [loadSizeAndPosition] would assign what the
    position already holds, so that the box of the drawing is the fit of
    the image in the root as it was at the last resize, whatever pans,
    zooms and animations came since. *)
Theorem layout_stays_current (p : Paper) :
  reachable p ->
  loadSizeAndPosition p = Some p
  /\ Position.width (position p) = Position.oScale (position p) * width p
  /\ Position.height (position p) = Position.oScale (position p) * height p
  /\ Position.ox (position p) + Position.width (position p)
     + Position.ox (position p) = offsetWidth (root p)
  /\ Position.oy (position p) + Position.height (position p)
     + Position.oy (position p) = offsetHeight (root p).
Proof.
  intros Hr. destruct (Fitted_reachable p Hr) as [(Hload & Hw & Hh & _) _].
  split; [exact Hload |].
  destruct (loadSizeAndPosition_inv _ _ Hload) as (Nrh & Nw & Nh).
  pose proof Hload as Hpos.
  rewrite (loadSizeAndPosition_eq p Nrh Nw Nh) in Hpos. cbv zeta in Hpos.
  apply (f_equal (option_map position)) in Hpos. simpl in Hpos.
  injection Hpos as Hpos. rewrite <- Hpos. simpl.
  destruct (Num.ltb _ _); repeat split; field; repeat split; assumption.
Qed.

Lemma layout_stays_current_witness :
  loadSizeAndPosition Examples.zoomed0 = Some Examples.zoomed0.
Proof.
  apply (layout_stays_current Examples.zoomed0).
  apply (reachable_step
           (TouchMove (fst (fst Examples.pinchMove))
              (snd (fst Examples.pinchMove)) (snd Examples.pinchMove))
           Examples.pinching0);
    [exact ExampleFacts.reachable_pinching0 | exact ExampleFacts.pinch_move].
Defined.

(** X21: A touch is told in the pixels of the drawing: on a Paper that
    the constructor and the events can make, in a root of positive sizes
    and at a zoom that is not 0, the point of the root where the parent
    element shows the fraction [(u, v)] of its box is turned by
    [relativePositionToTimePoint] into the same fraction of the sizes of
    the drawing; its top left corner into [(0, 0)], its bottom right
    corner into [(width, height)]. *)
Theorem touch_maps_to_pixel (p : Paper) (u v : R) (time : Z) :
  reachable p ->
  0 < offsetWidth (root p) -> 0 < offsetHeight (root p) ->
  Position.scale (position p) <> 0 ->
  relativePositionToTimePoint (shownX p u) (shownY p v) time p
  = Some (Brush.mkTimePoint (u * width p) (v * height p) time).
Proof.
  intros Hr Hrw Hrh Hs.
  destruct (Fitted_reachable p Hr) as [(Hload & Hw & Hh & _) _].
  destruct (loadSizeAndPosition_fit p Hrw Hrh Hw Hh)
    as (pos & Hload' & _ & _ & _ & _ & _ & _ & _ & HoS & Hws & Hhs).
  rewrite Hload in Hload'. injection Hload' as Hp.
  apply (f_equal position) in Hp. simpl in Hp. rewrite <- Hp in HoS, Hws, Hhs.
  unfold relativePositionToTimePoint, shownX, shownY, parentStyle. simpl.
  rewrite !NumFacts.div_some by (apply Rmult_integral_contrapositive; lra).
  f_equal. rewrite Hws, Hhs. f_equal; field; lra.
Qed.

Lemma touch_maps_to_pixel_witness :
  relativePositionToTimePoint 150 150 0 Examples.paper0
  = Some (Brush.mkTimePoint 500 400 0).
Proof.
  assert (Hr : reachable Examples.paper0)
    by exact (reachable_new _ _ _ _ _ _ ExampleFacts.new_paper0).
  pose proof (touch_maps_to_pixel Examples.paper0 (1 / 2) (1 / 2) 0 Hr) as H.
  unfold shownX, shownY in H. simpl in H.
  replace (0 + 0 + 1 / 2 * (300 * 1)) with 150 in H by lra.
  replace (30 + 0 + 1 / 2 * (240 * 1)) with 150 in H by lra.
  replace (1 / 2 * 1000) with 500 in H by lra.
  replace (1 / 2 * 800) with 400 in H by lra.
  apply H; lra.
Defined.

End LayoutFacts.

(** ** Panning and pinching *)

Module TransformFacts.

Import Dom Paper GestureSpec TransitionSpec.

(** A zoom by [s] with the pan that [computeScaleOffset] gives for a
    focus keeps under the focus the point of the drawing that was there. *)
Lemma computeScaleOffset_fixes (focus : Offset.t) (s : R) (time : Z)
  (p : Paper) :
  s <> 0 ->
  Position.oScale (position p) * Position.scale (position p) <> 0 ->
  relativePositionToTimePoint (Offset.x focus) (Offset.y focus) time
    (moved (Offset.x (computeScaleOffset focus s p))
       (Offset.y (computeScaleOffset focus s p)) s p)
  = relativePositionToTimePoint (Offset.x focus) (Offset.y focus) time p.
Proof.
  intros Hs Hp.
  unfold relativePositionToTimePoint, moved, computeScaleOffset. simpl.
  assert (Hp' : Position.oScale (position p)
                * (Position.scale (position p) * s) <> 0).
  { rewrite <- Rmult_assoc. apply Rmult_integral_contrapositive.
    split; assumption. }
  rewrite !(NumFacts.div_some _ _ Hp), !(NumFacts.div_some _ _ Hp').
  assert (Hc : Position.scale (position p) <> 0
               /\ Position.oScale (position p) <> 0 /\ s <> 0).
  { repeat split; try assumption; intros E; apply Hp; rewrite E; ring. }
  f_equal. f_equal; field; exact Hc.
Qed.

Lemma relativePositionToTimePoint_position x y time (p q : Paper) :
  position p = position q ->
  relativePositionToTimePoint x y time p
  = relativePositionToTimePoint x y time q.
Proof. intros E. unfold relativePositionToTimePoint. rewrite E. reflexivity. Qed.

(** X22: A pinch whose middle stays where it was, in move mode, with
    the fingers more than half a hundredth closer or farther apart than
    at the last zoom, where the distance remembered at the last zoom,
    the distance of the fingers now and the scale on display
    ([oScale * scale]) are not zero: the zoom is multiplied by the ratio
    of the two distances, the new distance is remembered, and the point
    of the drawing under the middle of the fingers stays under it.
    (With the two fingers at one point the zoom becomes 0, and no point
    of the drawing is under the middle any longer.) *)
Theorem pinch_zooms_about_focus (event : TouchEvent) (rect : DOMRect)
  (time : Z) (p : Paper) (focus : Offset.t) (cur : R) :
  workMode p = 2%nat ->
  (2 <= List.length (targetTouches event))%nat ->
  computeFocus event rect = Some focus -> focus = lastFocus p ->
  computeLength event rect = Some cur ->
  lastLength p <> 0 -> cur <> 0 ->
  0.005 < Rabs (cur / lastLength p - 1) ->
  Position.oScale (position p) * Position.scale (position p) <> 0 ->
  exists p',
    onTouchMoveProxy event rect time p = Some p'
    /\ Position.scale (position p')
       = Position.scale (position p) * (cur / lastLength p)
    /\ lastLength p' = cur
    /\ lastScaleFocus p' = focus /\ lastFocus p' = focus
    /\ relativePositionToTimePoint (Offset.x focus) (Offset.y focus) time p'
       = relativePositionToTimePoint (Offset.x focus) (Offset.y focus) time p.
Proof.
  intros Hmode Hlen Hfocus Hsame Hcur Hlast Hcur0 Hratio Hp.
  assert (Hs : cur / lastLength p <> 0).
  { unfold Rdiv. apply Rmult_integral_contrapositive.
    split; [assumption | apply Rinv_neq_0_compat; assumption]. }
  pose proof (computeScaleOffset_fixes focus (cur / lastLength p) time p Hs Hp)
    as Hfix.
  unfold onTouchMoveProxy. rewrite Hmode, Hfocus. simpl.
  assert (Hl : (1 <? List.length (targetTouches event))%nat = true)
    by (apply Nat.ltb_lt; lia).
  rewrite Hl, Hcur, (NumFacts.div_some _ _ Hlast).
  replace (cur / lastLength p - 1.0) with (cur / lastLength p - 1) by lra.
  rewrite (proj2 (NumFacts.ltb_lt _ _) Hratio). simpl.
  eexists. split; [reflexivity |]. simpl.
  split; [reflexivity |]. split; [reflexivity |]. split; [reflexivity |].
  split; [reflexivity |].
  rewrite <- Hfix. apply relativePositionToTimePoint_position.
  unfold moved, computeScaleOffset. simpl. rewrite <- Hsame.
  unfold Position.set_xy, Position.set_scale, Position.set_xys. simpl.
  f_equal; ring.
Qed.

Lemma pinch_zooms_about_focus_witness :
  exists p',
    onTouchMoveProxy (fst (fst Examples.pinchMove))
      (snd (fst Examples.pinchMove)) (snd Examples.pinchMove)
      Examples.pinching0 = Some p'
    /\ Position.scale (position p') = 1 * (260 / 100)
    /\ relativePositionToTimePoint 150 150 1 p'
       = relativePositionToTimePoint 150 150 1 Examples.pinching0.
Proof.
  destruct (pinch_zooms_about_focus (fst (fst Examples.pinchMove))
              (snd (fst Examples.pinchMove)) (snd Examples.pinchMove)
              Examples.pinching0 (Offset.mk 150 150) 260)
    as (p' & Hrun & Hs & _ & _ & _ & Hfix).
  - reflexivity.
  - simpl. lia.
  - unfold computeFocus, sumTouches. simpl. num_eval. f_equal. f_equal; lra.
  - reflexivity.
  - unfold computeLength, getTouch. simpl. f_equal.
    apply sqrt_is; [lra | ring].
  - simpl. lra.
  - lra.
  - simpl. rewrite Rabs_pos_eq; lra.
  - simpl. lra.
  - exists p'. split; [exact Hrun |]. split; [exact Hs | exact Hfix].
Defined.








Lemma computeFocus_one (touch : Touch) (rect : DOMRect) :
  computeFocus (mkTouchEvent [touch]) rect
  = Some (getTouchFromRawTouch touch rect).
Proof.
  unfold computeFocus, sumTouches. simpl.
  rewrite !NumFacts.div_some by lra.
  unfold getTouchFromRawTouch. simpl. f_equal. f_equal; field.
Qed.

(** One move of a single finger in move mode. *)
Lemma touchMove_pan (touch : Touch) (rect : DOMRect) (time : Z) (p : Paper) :
  workMode p = 2%nat ->
  let focus := getTouchFromRawTouch touch rect in
  exists p',
    onTouchMoveProxy (mkTouchEvent [touch]) rect time p = Some p'
    /\ workMode p' = 2%nat
    /\ Position.x (position p') - Offset.x (lastFocus p')
       = Position.x (position p) - Offset.x (lastFocus p)
    /\ Position.y (position p') - Offset.y (lastFocus p')
       = Position.y (position p) - Offset.y (lastFocus p)
    /\ Position.scale (position p') = Position.scale (position p)
    /\ (Offset.x focus - Offset.x (lastFocus p'))
       * (Offset.x focus - Offset.x (lastFocus p'))
       + (Offset.y focus - Offset.y (lastFocus p'))
         * (Offset.y focus - Offset.y (lastFocus p')) <= 0.25.
Proof.
  intros Hmode focus. unfold onTouchMoveProxy.
  rewrite Hmode, computeFocus_one. simpl. fold focus.
  destruct (Num.ltb 0.25 _) eqn:E.
  - eexists. split; [reflexivity |]. simpl.
    split; [exact Hmode |]. split; [ring |]. split; [ring |].
    split; [reflexivity |].
    replace (Offset.x focus - Offset.x focus) with 0 by ring.
    replace (Offset.y focus - Offset.y focus) with 0 by ring. lra.
  - apply NumFacts.ltb_ge in E.
    eexists. split; [reflexivity |]. simpl.
    split; [exact Hmode |]. split; [reflexivity |]. split; [reflexivity |].
    split; [reflexivity |]. exact E.
Qed.

(** X24: A pan with one finger in move mode never throws and follows
    the finger: through any moves of a single touch, the pan changes by
    what the remembered focus changes by, the zoom stays, and after every
    move the remembered focus is within half a unit of the finger. *)
Theorem pan_follows_finger (moves : list (Touch * DOMRect * Z)) (p : Paper) :
  workMode p = 2%nat ->
  exists p',
    run (touchMoves
           (map (fun m => (mkTouchEvent [fst (fst m)], snd (fst m), snd m))
              moves)) p = Some p'
    /\ Position.x (position p') - Offset.x (lastFocus p')
       = Position.x (position p) - Offset.x (lastFocus p)
    /\ Position.y (position p') - Offset.y (lastFocus p')
       = Position.y (position p) - Offset.y (lastFocus p)
    /\ Position.scale (position p') = Position.scale (position p)
    /\ (forall before touch rect time,
          moves = before ++ [(touch, rect, time)] ->
          let focus := getTouchFromRawTouch touch rect in
          (Offset.x focus - Offset.x (lastFocus p'))
          * (Offset.x focus - Offset.x (lastFocus p'))
          + (Offset.y focus - Offset.y (lastFocus p'))
            * (Offset.y focus - Offset.y (lastFocus p')) <= 0.25).
Proof.
  revert p. induction moves as [| [[touch rect] time] moves IH]; intros p Hmode.
  - exists p. split; [reflexivity |]. repeat split.
    intros before touch rect time E. destruct before; discriminate.
  - destruct (touchMove_pan touch rect time p Hmode)
      as (q & Hq & Hmode' & Hx & Hy & Hs & Hnear).
    destruct (IH q Hmode') as (p' & Hrun & Hx' & Hy' & Hs' & Hlast).
    exists p'. simpl map. rewrite GestureFacts.run_moves_cons. simpl fst.
    simpl snd. rewrite Hq.
    split; [exact Hrun |]. split; [lra |]. split; [lra |].
    split; [congruence |].
    intros before touch' rect' time' E.
    destruct moves as [| m moves].
    + destruct before as [| b before];
        [| destruct before; discriminate].
      injection E as <- <- <-. injection Hrun as <-. exact Hnear.
    + destruct before as [| b before]; [discriminate |].
      injection E as _ E. apply (Hlast before touch' rect' time' E).
Qed.

Lemma pan_follows_finger_witness :
  exists p',
    run [TouchMove (Examples.touches [(160, 170)]) Examples.rect0 1]
      Examples.pinching0 = Some p'
    /\ Position.x (position p') - Offset.x (lastFocus p') = 0 - 150.
Proof.
  destruct (pan_follows_finger [(mkTouch 160 170, Examples.rect0, 1%Z)]
              Examples.pinching0 eq_refl)
    as (p' & Hrun & Hx & _).
  exists p'. split; [exact Hrun | exact Hx].
Defined.

End TransformFacts.

(** ** Where a transition ends *)

Module TransitionFacts.

Import Dom Paper Animation Invariant TransitionSpec.

#[local] Arguments frame : simpl never.

Lemma clamp_zero (v m : R) :
  0 <= v -> 0 < m -> (Num.clampNumber v 0 m = 0 <-> v = 0).
Proof. intros Hv Hm. num_cases; lra. Qed.

Lemma clamp_nonneg (v m : R) : 0 < m -> 0 <= Num.clampNumber v 0 m.
Proof. intros Hm. num_cases; lra. Qed.

Lemma sqrt_sum_zero (a b : R) : sqrt (a ^ 2 + b ^ 2) = 0 <-> a = 0 /\ b = 0.
Proof.
  replace (a ^ 2 + b ^ 2) with (Rsqr a + Rsqr b) by (unfold Rsqr; ring).
  split.
  - intros H. apply sqrt_eq_0 in H.
    + apply Rplus_sqr_eq_0 in H. exact H.
    + pose proof (Rle_0_sqr a). pose proof (Rle_0_sqr b). lra.
  - intros [-> ->]. unfold Rsqr.
    replace (0 * 0 + 0 * 0) with 0 by ring. apply sqrt_0.
Qed.

Lemma Rabs_zero (a : R) : Rabs a = 0 <-> a = 0.
Proof.
  split.
  - intros H. destruct (Req_dec a 0) as [E | E]; [exact E |].
    apply Rabs_no_R0 in E. contradiction.
  - intros ->. apply Rabs_R0.
Qed.

(** At the target, a transition has no duration, and [animateTo] does
    nothing. *)
Lemma animateTo_at_target (ex ey es maxDuration : R) (p : Paper) :
  0 < maxDuration -> at_target ex ey es p ->
  animateDuration ex ey es maxDuration p = 0
  /\ forall lost now, animateTo ex ey es maxDuration lost now p = p.
Proof.
  intros Hm (Hx & Hy & Hs).
  assert (Hd : animateDuration ex ey es maxDuration p = 0).
  { unfold animateDuration. rewrite Hx, Hy, Hs.
    rewrite (proj2 (sqrt_sum_zero _ _)) by (split; ring).
    rewrite (proj2 (Rabs_zero _)) by ring.
    replace (0 * 4) with 0 by ring. replace (0 * 1000) with 0 by ring.
    rewrite (proj2 (clamp_zero 0 maxDuration ltac:(lra) Hm) eq_refl).
    unfold Rmax. destruct (Rle_dec 0 0); reflexivity. }
  split; [exact Hd |].
  intros lost now. unfold animateTo.
  rewrite Hd, (proj2 (NumFacts.leb_le 0 0)) by lra. reflexivity.
Qed.

(** X25: The duration of a transition is 0 exactly when the view is
    already at the target (pan and zoom), and then [animateTo] changes
    nothing: it starts no animation and assigns nothing. *)
Theorem animateDuration_zero_iff (ex ey es maxDuration : R) (p : Paper) :
  0 < maxDuration ->
  (animateDuration ex ey es maxDuration p = 0 <-> at_target ex ey es p)
  /\ (at_target ex ey es p ->
      forall lost now, animateTo ex ey es maxDuration lost now p = p).
Proof.
  intros Hm. split; [| intros Hat; apply (animateTo_at_target _ _ _ _ _ Hm Hat)].
  split; [| intros Hat; apply (animateTo_at_target _ _ _ _ _ Hm Hat)].
  unfold animateDuration, at_target.
  set (A := sqrt ((ex - Position.x (position p)) ^ 2
                  + (ey - Position.y (position p)) ^ 2)).
  set (B := Rabs (es - Position.scale (position p))).
  assert (HA : 0 <= A) by apply sqrt_pos.
  assert (HB : 0 <= B) by apply Rabs_pos.
  pose proof (clamp_zero (A * 4) maxDuration ltac:(lra) Hm) as HcA.
  pose proof (clamp_zero (B * 1000) maxDuration ltac:(lra) Hm) as HcB.
  pose proof (clamp_nonneg (A * 4) maxDuration Hm) as HnA.
  pose proof (clamp_nonneg (B * 1000) maxDuration Hm) as HnB.
  pose proof (sqrt_sum_zero (ex - Position.x (position p))
                (ey - Position.y (position p))) as HsA.
  pose proof (Rabs_zero (es - Position.scale (position p))) as HsB.
  fold A in HsA. fold B in HsB.
  intros H.
  assert (H1 : Num.clampNumber (A * 4) 0 maxDuration = 0
               /\ Num.clampNumber (B * 1000) 0 maxDuration = 0).
  { revert H. unfold Rmax. destruct (Rle_dec _ _); lra. }
  destruct H1 as [H1 H2]. apply HcA in H1. apply HcB in H2.
  assert (EA : A = 0) by lra. assert (EB : B = 0) by lra.
  apply HsA in EA. apply HsB in EB. lra.
Qed.

Lemma animateDuration_zero_iff_witness :
  animateTo (-50) (-150) 2 200 true 1000 Examples.narrowZoomed0
  = Examples.narrowZoomed0.
Proof.
  apply (proj2 (animateDuration_zero_iff (-50) (-150) 2 200
                  Examples.narrowZoomed0 ltac:(lra))).
  repeat split.
Defined.

Lemma clamp_idem v lo hi :
  Num.clampNumber (Num.clampNumber v lo hi) lo hi = Num.clampNumber v lo hi.
Proof. num_cases; lra. Qed.

Lemma reclamp (v lo hi o f : R) :
  Num.clampNumber
    (f - (Num.clampNumber v lo hi - o + o)
     - (f - (Num.clampNumber v lo hi - o + o)) * 1
     + (Num.clampNumber v lo hi - o + o)) lo hi - o
  = Num.clampNumber v lo hi - o.
Proof.
  replace (f - (Num.clampNumber v lo hi - o + o)
           - (f - (Num.clampNumber v lo hi - o + o)) * 1
           + (Num.clampNumber v lo hi - o + o))
    with (Num.clampNumber v lo hi) by ring.
  rewrite clamp_idem. reflexivity.
Qed.

(** X26: Bounds correction settles in one step: on the view that it
    targets (the pan and the zoom it hands to [animateTo]), it targets
    that same view again, and so changes nothing and starts no
    animation. *)
Theorem overBound_settles (now : R) (p : Paper) (ex ey es : R) :
  1 <= maxScale p ->
  overBoundTarget p = Some (ex, ey, es) ->
  let q := set_position (Position.set_xys ex ey es (position p)) p in
  1 <= es <= maxScale p
  /\ overBoundTarget q = Some (ex, ey, es)
  /\ overBound now q = Some q.
Proof.
  intros Hm H q.
  assert (Hq : 1 <= es <= maxScale p /\ overBoundTarget q = Some (ex, ey, es)).
  { unfold overBoundTarget in H.
    destruct (Num.leb (Num.clampNumber (Position.scale (position p)) 1
                         (maxScale p)) 1) eqn:E.
    - injection H as <- <- <-. split; [lra |].
      unfold overBoundTarget, q. simpl.
      assert (Ec : Num.clampNumber 1 1 (maxScale p) = 1)
        by (apply NumFacts.clampNumber_id; lra).
      rewrite Ec, (proj2 (NumFacts.leb_le 1 1)) by lra. reflexivity.
    - apply NumFacts.leb_gt in E.
      destruct (Num.div _ _) as [ratio |]; [| discriminate].
      injection H as <- <- <-.
      set (st := Num.clampNumber (Position.scale (position p)) 1 (maxScale p))
        in *.
      split; [unfold st; apply NumFacts.clampNumber_bounds; exact Hm |].
      unfold overBoundTarget, q, computeScaleOffset. simpl. fold st.
      assert (Ec : Num.clampNumber st 1 (maxScale p) = st)
        by (unfold st; apply clamp_idem).
      rewrite Ec, (proj2 (NumFacts.leb_gt _ _) E).
      rewrite NumFacts.div_some by lra.
      replace (st / st) with 1 by (field; lra).
      f_equal. apply f_equal2; [apply f_equal2 | reflexivity]; apply reclamp. }
  destruct Hq as [Hes Ht]. split; [exact Hes |]. split; [exact Ht |].
  unfold overBound. rewrite Ht. f_equal.
  apply (proj2 (animateTo_at_target ex ey es 200 q ltac:(lra)
                  ltac:(repeat split))).
Qed.

Lemma overBound_settles_witness :
  overBoundTarget
    (set_position (Position.set_xys (-150) (-120) 2 (position Examples.zoomed0))
       Examples.zoomed0)
  = Some (-150, -120, 2).
Proof.
  apply (proj1 (proj2 (overBound_settles 0 Examples.zoomed0 (-150) (-120) 2
                         ltac:(simpl; lra) ExampleFacts.pinch_target))).
Defined.

(** *** The frames of a transition *)







End TransitionFacts.

(** ** The measures of a touch event *)

Module TouchFacts.

Import Dom Paper.

Lemma sum_step (rect : DOMRect) (touches : list Touch) : forall acc,
  fold_left
    (fun (sum : R * R) target =>
       let offset := getTouchFromRawTouch target rect in
       (fst sum + Offset.x offset, snd sum + Offset.y offset))
    touches acc
  = (fst acc + fst (sumTouches rect touches),
     snd acc + snd (sumTouches rect touches)).
Proof.
  unfold sumTouches.
  induction touches as [| t touches IH]; intros [ax ay]; simpl.
  - f_equal; ring.
  - rewrite IH. rewrite (IH (0 + _, 0 + _)). simpl. f_equal; ring.
Qed.

Lemma sumTouches_cons (rect : DOMRect) (t : Touch) (touches : list Touch) :
  sumTouches rect (t :: touches)
  = (pageX t - Dom.x rect + fst (sumTouches rect touches),
     pageY t - Dom.y rect + snd (sumTouches rect touches)).
Proof.
  unfold sumTouches at 1. cbn [fold_left]. rewrite sum_step.
  unfold getTouchFromRawTouch. simpl. f_equal; ring.
Qed.

Lemma sumTouches_perm (rect : DOMRect) (l l' : list Touch) :
  Permutation l l' -> sumTouches rect l = sumTouches rect l'.
Proof.
  induction 1 as [| t l l' _ IH | a b l | l1 l2 l3 _ IH1 _ IH2].
  - reflexivity.
  - rewrite !sumTouches_cons, IH. reflexivity.
  - rewrite !sumTouches_cons. simpl. f_equal; ring.
  - congruence.
Qed.

(** X28: The focus of a touch event is the mean of its touches, told
    from the corner of the root: it is a pair of numbers exactly when
    there is a touch, it does not depend on the order of the touches, and
    for two touches it is the point half way between them.  The length is
    the distance between the first two touches: it is a number exactly
    when there are two, it is not negative, and it depends neither on
    which of the two comes first, nor on the other touches, nor on where
    the root is. *)
Theorem touch_measures :
  (forall event rect,
     computeFocus event rect = None <-> targetTouches event = [])
  /\ (forall l l' rect,
        Permutation l l' ->
        computeFocus (mkTouchEvent l) rect = computeFocus (mkTouchEvent l') rect)
  /\ (forall a b rect,
        computeFocus (mkTouchEvent [a; b]) rect
        = Some (Offset.mk ((pageX a + pageX b) / 2 - Dom.x rect)
                  ((pageY a + pageY b) / 2 - Dom.y rect)))
  /\ (forall event rect,
        computeLength event rect = None
        <-> (List.length (targetTouches event) < 2)%nat)
  /\ (forall a b l l' rect rect',
        computeLength (mkTouchEvent (a :: b :: l)) rect
        = Some (sqrt ((pageX a - pageX b) ^ 2 + (pageY a - pageY b) ^ 2))
        /\ computeLength (mkTouchEvent (b :: a :: l')) rect'
           = computeLength (mkTouchEvent (a :: b :: l)) rect
        /\ 0 <= sqrt ((pageX a - pageX b) ^ 2 + (pageY a - pageY b) ^ 2)).
Proof.
  split; [| split; [| split; [| split]]].
  - intros event rect. unfold computeFocus.
    destruct (sumTouches rect (targetTouches event)) as [sx sy].
    destruct (targetTouches event) as [| t l].
    + simpl. unfold Num.div. destruct (Req_dec_T 0 0); [tauto | lra].
    + assert (Hn : INR (List.length (t :: l)) <> 0)
        by (apply not_0_INR; discriminate).
      rewrite !(NumFacts.div_some _ _ Hn). split; discriminate.
  - intros l l' rect Hperm. unfold computeFocus. simpl.
    rewrite (sumTouches_perm rect l l' Hperm).
    rewrite (Permutation_length Hperm). reflexivity.
  - intros a b rect. unfold computeFocus. simpl targetTouches.
    rewrite !sumTouches_cons. unfold sumTouches. simpl.
    rewrite !NumFacts.div_some by lra. f_equal. f_equal; field.
  - intros event rect. unfold computeLength, getTouch.
    destruct (targetTouches event) as [| a [| b l]]; simpl.
    + split; [lia | reflexivity].
    + split; [lia | reflexivity].
    + split; [discriminate | lia].
  - intros a b l l' rect rect'. unfold computeLength, getTouch. simpl.
    split; [| split].
    + f_equal. f_equal. ring.
    + f_equal. f_equal. ring.
    + apply sqrt_pos.
Qed.

Lemma touch_measures_witness :
  computeFocus (Examples.touches [(200, 150); (100, 150)]) Examples.rect0
  = computeFocus (Examples.touches [(100, 150); (200, 150)]) Examples.rect0
  /\ computeLength (Examples.touches [(150, 150)]) Examples.rect0 = None.
Proof.
  split.
  - apply (proj1 (proj2 touch_measures)). apply perm_swap.
  - apply (proj1 (proj2 (proj2 (proj2 touch_measures)))). simpl. lia.
Defined.

(** X29: A resize to a root of positive sizes, on a Paper that the
    constructor and the events can make, does not throw: it fits the
    drawing anew, puts the pan at 0 and the zoom at 1, so that the parent
    element shows whole and centred within the root, and leaves the
    strokes, the canvas, the brush and the work mode alone.  It does not
    cancel an animation that is live. *)
Theorem resize_refits (root' : Element) (p : Paper) :
  reachable p ->
  0 < offsetWidth root' -> 0 < offsetHeight root' ->
  exists p',
    onResize root' p = Some p'
    /\ root p' = root'
    /\ TransitionSpec.at_target 0 0 1 p'
    /\ 0 <= LayoutSpec.shownX p' 0
    /\ LayoutSpec.shownX p' 1 <= offsetWidth root'
    /\ LayoutSpec.shownX p' 0 + LayoutSpec.shownX p' 1 = offsetWidth root'
    /\ 0 <= LayoutSpec.shownY p' 0
    /\ LayoutSpec.shownY p' 1 <= offsetHeight root'
    /\ LayoutSpec.shownY p' 0 + LayoutSpec.shownY p' 1 = offsetHeight root'
    /\ (LayoutSpec.shownX p' 0 = 0 \/ LayoutSpec.shownY p' 0 = 0)
    /\ histories p' = histories p /\ redoHistories p' = redoHistories p
    /\ canvas p' = canvas p /\ brush p' = brush p
    /\ workMode p' = workMode p /\ animCtrl p' = animCtrl p.
Proof.
  intros Hr Hrw Hrh.
  destruct (LayoutFacts.Fitted_reachable p Hr) as [(_ & Hw & Hh & _) _].
  destruct (LayoutFacts.loadSizeAndPosition_fit (set_root root' p))
    as (pos & Hload & Hpw & Hph & Hd & Hox & Hox' & Hoy & Hoy' & _);
    try assumption.
  simpl in Hpw, Hph, Hd, Hox', Hoy'.
  unfold onResize. rewrite Hload. eexists. split; [reflexivity |].
  unfold TransitionSpec.at_target, LayoutSpec.shownX, LayoutSpec.shownY.
  simpl.
  repeat split; try reflexivity; lra.
Qed.

Lemma resize_refits_witness :
  exists p',
    onResize (mkElement 600 300) Examples.zoomed0 = Some p'
    /\ Position.scale (position p') = 1.
Proof.
  assert (Hr : reachable Examples.zoomed0).
  { apply (reachable_step
             (TouchMove (fst (fst Examples.pinchMove))
                (snd (fst Examples.pinchMove)) (snd Examples.pinchMove))
             Examples.pinching0);
      [exact ExampleFacts.reachable_pinching0 | exact ExampleFacts.pinch_move]. }
  destruct (resize_refits (mkElement 600 300) Examples.zoomed0 Hr)
    as (p' & Hrun & _ & (_ & _ & Hs) & _); [simpl; lra | simpl; lra |].
  exists p'. split; [exact Hrun | exact Hs].
Defined.

End TouchFacts.
